(** * A shallow embedding of the virtual-shell execution engine

    The development follows [src/virtual-shell.ts], the command classes under
    [src/commands] and the two hook pipelines.  JavaScript strings are modelled
    as Rocq strings whose characters are the code units below 256; a thrown
    value is an object seen through its message and code, or one of [null]
    and [undefined], on which the property read of a [catch] clause
    throws. *)

From Stdlib Require Import Ascii String List Bool Arith Lia.
From stdpp Require Import base option list strings gmap.

Local Open Scope string_scope.

(** ** JavaScript string primitives used by the sources *)

Module JS.

(** [\s] of a regular expression and the characters [String.prototype.trim]
    strips: TAB, LF, VT, FF, CR, SPACE and NBSP. *)
Definition is_space (c : ascii) : bool :=
  let n := nat_of_ascii c in
  ((9 <=? n)%nat && (n <=? 13)%nat) || (n =? 32)%nat || (n =? 160)%nat.

(** Characters the regular expression dot refuses: LF and CR. *)
Definition is_line_terminator (c : ascii) : bool :=
  let n := nat_of_ascii c in (n =? 10)%nat || (n =? 13)%nat.

Fixpoint all_chars (p : ascii -> bool) (s : string) : bool :=
  match s with
  | EmptyString => true
  | String c s' => p c && all_chars p s'
  end.

Fixpoint trimStart (s : string) : string :=
  match s with
  | EmptyString => EmptyString
  | String c s' => if is_space c then trimStart s' else s
  end.

(** [trimEnd] drops the rest of the string once it is white space only. *)
Fixpoint trimEnd (s : string) : string :=
  match s with
  | EmptyString => EmptyString
  | String c s' =>
      if all_chars is_space s then EmptyString else String c (trimEnd s')
  end.

Definition trim (s : string) : string := trimEnd (trimStart s).

Fixpoint startsWith (s prefix : string) {struct prefix} : bool :=
  match prefix, s with
  | EmptyString, _ => true
  | String p prefix', String c s' => Ascii.eqb c p && startsWith s' prefix'
  | String _ _, EmptyString => false
  end.

Definition endsWith (s suffix : string) : bool :=
  startsWith (String.rev s) (String.rev suffix).

(** [Array.prototype.join]. *)
Fixpoint join (sep : string) (l : list string) : string :=
  match l with
  | [] => ""
  | [x] => x
  | x :: l' => x ++ sep ++ join sep l'
  end.

(** [s.split(sep)] for a one-character separator: a list that is never
    empty. *)
Fixpoint split (sep : ascii) (s : string) : list string :=
  match s with
  | EmptyString => [EmptyString]
  | String c s' =>
      if Ascii.eqb c sep then EmptyString :: split sep s'
      else match split sep s' with
           | [] => [String c EmptyString]
           | w :: ws => String c w :: ws
           end
  end.

(** [s.split(/\s+/)] on a trimmed string: the maximal runs of characters
    that are not white space ([cur] is the run being read, reversed). *)
Fixpoint runs_go (cur : option string) (s : string) : list string :=
  match s with
  | EmptyString => option_list (String.rev <$> cur)
  | String c s' =>
      if is_space c
      then (option_list (String.rev <$> cur) ++ runs_go None s')%list
      else runs_go (Some (from_option (String c) (String c "") cur)) s'
  end.

Definition split_spaces (s : string) : list string :=
  match s with
  | EmptyString => [EmptyString]
  | _ => runs_go None s
  end.

Definition lower_char (c : ascii) : ascii :=
  let n := nat_of_ascii c in
  if ((65 <=? n)%nat && (n <=? 90)%nat)
     || ((192 <=? n)%nat && (n <=? 222)%nat && negb (n =? 215)%nat)
  then ascii_of_nat (n + 32) else c.

Fixpoint toLowerCase (s : string) : string :=
  match s with
  | EmptyString => EmptyString
  | String c s' => String (lower_char c) (toLowerCase s')
  end.

(** [s.replace(pat, "")] with a string pattern: the first occurrence only. *)
Fixpoint drop_prefix (s prefix : string) {struct prefix} : option string :=
  match prefix, s with
  | EmptyString, _ => Some s
  | String p prefix', String c s' =>
      if Ascii.eqb c p then drop_prefix s' prefix' else None
  | String _ _, EmptyString => None
  end.

Fixpoint remove_first (pat s : string) : string :=
  match drop_prefix s pat with
  | Some rest => rest
  | None => match s with
            | EmptyString => EmptyString
            | String c s' => String c (remove_first pat s')
            end
  end.

End JS.

(** ** Thrown values and results *)

(** The value a [catch] clause receives.  An object is seen the way the
    sources read it, through its [message] and, for filesystem errors, its
    [code]; a thrown primitive other than [null] and [undefined] has neither
    property and reads like an object with an empty message.  [null] and
    [undefined] have no properties at all: reading one throws a
    [TypeError]. *)
Inductive JSError : Type :=
| mkError (message : string) (code : option string)
| ThrownNull
| ThrownUndefined.

(** The two properties, where the caught value has properties.  The
    filesystem throws objects only, and [executeCommand], whose [catch]
    clause can meet [null] and [undefined], branches on them before it
    reads [message]. *)
Definition message (e : JSError) : string :=
  match e with
  | mkError m _ => m
  | ThrownNull | ThrownUndefined => ""
  end.

Definition code (e : JSError) : option string :=
  match e with
  | mkError _ c => c
  | ThrownNull | ThrownUndefined => None
  end.

Definition Error (msg : string) : JSError := mkError msg None.

(** What reading [property] of [null] or [undefined] throws. *)
Definition TypeError_cannot_read (value property : string) : JSError :=
  Error ("Cannot read properties of " ++ value ++ " (reading '" ++ property
           ++ "')").

Inductive Result (A : Type) : Type :=
| Ok (a : A)
| Throw (e : JSError).
Arguments Ok {A} a.
Arguments Throw {A} e.

(** ** [node:path], POSIX flavour *)

(** Modelled from the spec: [path.posix] of the Node runtime, which the shell
    resolves every path with.  The working directory of the process is
    absolute, so [resolve] always ends on an absolute path. *)
Module Path.

Definition sep : ascii := "/"%char.

(** An absolute path printed from its steps: [render []] is the root. *)
Definition render (steps : list string) : string := "/" ++ JS.join "/" steps.

(** One segment of [normalizeString] when the path is absolute
    ([allowAboveRoot = false]); [stack] holds the kept segments, last one
    first. *)
Definition norm_step (stack : list string) (seg : string) : list string :=
  if String.eqb seg "" || String.eqb seg "." then stack
  else if String.eqb seg ".." then tail stack
  else seg :: stack.

Definition normalize (segs : list string) : list string :=
  rev (fold_left norm_step segs []).

(** The loop of [resolve]: arguments are read from the last one, empty ones
    are skipped, and reading stops at the first absolute one; when none is
    absolute the host's working directory, [render cwd], comes first. *)
Fixpoint gather (cwd : list string) (args_rev : list string) (acc : string)
  : string :=
  match args_rev with
  | [] => render cwd ++ "/" ++ acc
  | p :: rest =>
      if String.eqb p "" then gather cwd rest acc
      else if JS.startsWith p "/" then p ++ "/" ++ acc
      else gather cwd rest (p ++ "/" ++ acc)
  end.

Definition steps (cwd : list string) (args : list string) : list string :=
  normalize (JS.split sep (gather cwd (rev args) "")).

(** [path.posix.resolve(...args)] in a process whose working directory is
    [render cwd]. *)
Definition resolve (cwd : list string) (args : list string) : string :=
  render (steps cwd args).

(** [path.posix.basename(p)]: the last segment that is not empty. *)
Definition basename (p : string) : string :=
  List.last (List.filter (fun seg => negb (String.eqb seg ""))
                         (JS.split sep p)) "".

End Path.

(** ** The in-memory filesystem *)

Module Memfs.

(** Modelled from the spec: the [memfs] volume behind [this.fs], which the
    repository imports and the specification treats as an opaque POSIX-like
    filesystem.  A volume maps the steps of an absolute path to a node;
    it keeps contents and no modes, and the times a caller sets through
    [utimes] are kept with the state of the shell, by the call. *)
Inductive Node : Type :=
| File (content : string)
| Dir.

Global Instance Node_eq_dec : EqDecision Node.
Proof. solve_decision. Defined.

Abbreviation Volume := (gmap (list string) Node).

Inductive Errno := ENOENT | EISDIR | ENOTDIR | EEXIST.

Definition errno_name (c : Errno) : string :=
  match c with
  | ENOENT => "ENOENT" | EISDIR => "EISDIR"
  | ENOTDIR => "ENOTDIR" | EEXIST => "EEXIST"
  end.

Definition errno_text (c : Errno) : string :=
  match c with
  | ENOENT => "no such file or directory"
  | EISDIR => "illegal operation on a directory"
  | ENOTDIR => "not a directory"
  | EEXIST => "file already exists"
  end.

Definition createError (c : Errno) (func path : string) : JSError :=
  mkError (errno_name c ++ ": " ++ errno_text c ++ ", " ++ func
             ++ " '" ++ path ++ "'")
          (Some (errno_name c)).

(** [new Volume()], also what [reset()] leaves: the root directory alone. *)
Definition empty : Volume := {[ [] := Dir ]}.

Definition is_child_of (p k : list string) : bool :=
  match k with
  | [] => false
  | _ => bool_decide (removelast k = p)
  end.

Definition has_child (v : Volume) (p : list string) : bool :=
  existsb (fun e => is_child_of p e.1) (map_to_list v).

(** *** Operations on the steps of a path *)

(** The node at which the walk to a missing path stops: the nearest ancestor
    that exists.  [rev_p] holds the steps of the path, last one first. *)
Fixpoint stopped_at (v : Volume) (rev_p : list string) : option Node :=
  match rev_p with
  | [] => None
  | _ :: rev_q =>
      match v !! rev rev_q with
      | Some n => Some n
      | None => stopped_at v rev_q
      end
  end.

(** The error of the walk to a missing path: [ENOTDIR] when it stops at a
    regular file, [ENOENT] when it stops at a directory. *)
Definition missing (v : Volume) (p : list string) : Errno :=
  match stopped_at v (rev p) with
  | Some (File _) => ENOTDIR
  | _ => ENOENT
  end.

Definition lookup_at (func filename : string) (p : list string) (v : Volume)
  : Result Node :=
  match v !! p with
  | Some n => Ok n
  | None => Throw (createError (missing v p) func filename)
  end.

(** Opening for writing, with creation: [upd] receives the old content, or
    the empty string for a file that is created. *)
Definition write_at (filename : string) (p : list string)
    (upd : string -> string) (v : Volume) : Result Volume :=
  match v !! p with
  | Some (File c) => Ok (<[p := File (upd c)]> v)
  | Some Dir => Throw (createError EISDIR "open" filename)
  | None =>
      match p with
      | [] => Throw (createError ENOENT "open" filename)
      | _ =>
          match v !! removelast p with
          | Some Dir => Ok (<[p := File (upd "")]> v)
          | Some (File _) => Throw (createError ENOTDIR "open" filename)
          | None => Throw (createError (missing v p) "open" filename)
          end
      end
  end.

(** [mkdirpBase]: what exists of the path is kept and what is missing is
    created below it.  A path that exists as a whole is left alone, be it a
    directory or a regular file; a regular file further up stops the call
    with [ENOTDIR]. *)
Fixpoint mkdirp_go (filename : string) (seen todo : list string)
    (v : Volume) : Result Volume :=
  match todo with
  | [] => Ok v
  | x :: todo' =>
      let p := (seen ++ [x])%list in
      match v !! p with
      | Some Dir => mkdirp_go filename p todo' v
      | Some (File _) =>
          match todo' with
          | [] => Ok v
          | _ => Throw (createError ENOTDIR "mkdir" filename)
          end
      | None => mkdirp_go filename p todo' (<[p := Dir]> v)
      end
  end.

Definition mkdirp_at (filename : string) (p : list string) (v : Volume)
  : Result Volume :=
  mkdirp_go filename [] p v.

(** [mkdirBase]: the parent must be a directory and the name free. *)
Definition mkdir_at (filename : string) (p : list string) (v : Volume)
  : Result Volume :=
  match p with
  | [] => Throw (createError EEXIST "mkdir" filename)
  | _ =>
      match v !! removelast p with
      | None => Throw (createError (missing v p) "mkdir" filename)
      | Some (File _) => Throw (createError ENOTDIR "mkdir" filename)
      | Some Dir =>
          match v !! p with
          | Some _ => Throw (createError EEXIST "mkdir" filename)
          | None => Ok (<[p := Dir]> v)
          end
      end
  end.

(** Removal of a link together with everything below it. *)
Definition delete_tree (p : list string) (v : Volume) : Volume :=
  filter (fun e => ¬ (p `prefix_of` e.1)) v.

Section WithCwd.

(** The steps of [process.cwd()], which [memfs] resolves file names
    against. *)
Variable cwd : list string.

Definition filenameToSteps (filename : string) : list string :=
  Path.steps cwd [filename].

Definition lstat (filename : string) (v : Volume) : Result Node :=
  lookup_at "lstat" filename (filenameToSteps filename) v.

(** [access(path, W_OK)]: the link has to exist; nodes are created
    writable and no command changes a mode. *)
Definition access (filename : string) (v : Volume) : Result unit :=
  match lookup_at "access" filename (filenameToSteps filename) v with
  | Ok _ => Ok tt
  | Throw e => Throw e
  end.

Definition readFile (filename : string) (v : Volume) : Result string :=
  match lookup_at "open" filename (filenameToSteps filename) v with
  | Ok (File c) => Ok c
  | Ok Dir => Throw (createError EISDIR "read" filename)
  | Throw e => Throw e
  end.

Definition writeFile (filename data : string) (v : Volume)
  : Result Volume :=
  write_at filename (filenameToSteps filename) (fun _ => data) v.

Definition appendFile (filename data : string) (v : Volume)
  : Result Volume :=
  write_at filename (filenameToSteps filename) (fun c => c ++ data) v.

Definition mkdir (filename : string) (recursive : bool) (v : Volume)
  : Result Volume :=
  if recursive then mkdirp_at filename (filenameToSteps filename) v
  else mkdir_at filename (filenameToSteps filename) v.

Definition copyFile (src dest : string) (v : Volume) : Result Volume :=
  match readFile src v with
  | Ok data => writeFile dest data v
  | Throw e => Throw e
  end.

Definition unlink (filename : string) (v : Volume) : Result Volume :=
  let p := filenameToSteps filename in
  match lookup_at "unlink" filename p v with
  | Ok (File _) => Ok (delete p v)
  | Ok Dir => Throw (createError EISDIR "unlink" filename)
  | Throw e => Throw e
  end.

(** [rm(path, { recursive: true, force: true })]: a missing path is not
    an error and the root itself stays. *)
Definition rm_rf (filename : string) (v : Volume) : Result Volume :=
  let p := filenameToSteps filename in
  match p with
  | [] => Ok v
  | _ => Ok (delete_tree p v)
  end.

(** [utimes(path, atime, mtime)]: the link has to exist, file or directory.
    The call sets the two time stamps of the node and leaves the tree and
    the contents alone; the answer names the node, and the caller keeps it
    with the state. *)
Definition utimes (filename : string) (v : Volume) : Result (list string) :=
  match lookup_at "utimes" filename (filenameToSteps filename) v with
  | Ok _ => Ok (filenameToSteps filename)
  | Throw e => Throw e
  end.

(** *** Snapshots *)

(** [toJSON()]: every file with its content and every empty directory
    other than the root with [null], keyed by absolute path. *)
Definition toJSON_entry (v : Volume) (e : list string * Node)
  : list (string * option string) :=
  match e.2 with
  | File c => [(Path.render e.1, Some c)]
  | Dir =>
      match e.1 with
      | [] => []
      | _ => if has_child v e.1 then []
             else [(Path.render e.1, None)]
      end
  end.

Definition toJSON (v : Volume) : list (string * option string) :=
  flat_map (toJSON_entry v) (map_to_list v).

(** One property of the object given to [fromJSON]: a string is a file
    written below its (created) parent directories, [null] a directory. *)
Definition fromJSON_entry (v : Volume) (e : string * option string)
  : Result Volume :=
  let p := filenameToSteps e.1 in
  match e.2 with
  | Some data =>
      match mkdirp_at e.1 (removelast p) v with
      | Ok v' => write_at e.1 p (fun _ => data) v'
      | Throw err => Throw err
      end
  | None => mkdirp_at e.1 p v
  end.

Fixpoint fromJSON_go (json : list (string * option string)) (v : Volume)
  : Result Volume :=
  match json with
  | [] => Ok v
  | e :: json' =>
      match fromJSON_entry v e with
      | Ok v' => fromJSON_go json' v'
      | Throw err => Throw err
      end
  end.

(** [Volume.fromJSON(json)]. *)
Definition fromJSON (json : list (string * option string))
  : Result Volume :=
  fromJSON_go json empty.

(** *** Mutations a command can issue through [this.shell.fs] *)

Inductive Mutation : Type :=
| MWriteFile (filename data : string)
| MAppendFile (filename data : string)
| MMkdir (filename : string) (recursive : bool)
| MCopyFile (src dest : string)
| MUnlink (filename : string)
| MRm (filename : string).

Definition mutate (m : Mutation) (v : Volume) : Result Volume :=
  match m with
  | MWriteFile f d => writeFile f d v
  | MAppendFile f d => appendFile f d v
  | MMkdir f r => mkdir f r v
  | MCopyFile s d => copyFile s d v
  | MUnlink f => unlink f v
  | MRm f => rm_rf f v
  end.

(** A mutation that fails leaves the volume as it was. *)
Definition apply (ms : list Mutation) (v : Volume) : Volume :=
  fold_left (fun acc m => match mutate m acc with
                          | Ok acc' => acc'
                          | Throw _ => acc
                          end) ms v.

End WithCwd.

End Memfs.

(** ** [JSON.stringify] and [JSON.parse] on volume snapshots *)

Module JSON.

(** Modelled from the spec: the JSON text of a snapshot, which the
    repository obtains from the built-in [JSON] object.  A snapshot is a
    flat object whose values are strings or [null]; its keys are absolute
    paths, so property order is insertion order. *)
Abbreviation Object := (list (string * option string)).

Definition dquote : ascii := "034"%char.
Definition backslash : ascii := "092"%char.

Definition hex_digit (n : nat) : ascii :=
  match n with
  | 0 => "0" | 1 => "1" | 2 => "2" | 3 => "3" | 4 => "4" | 5 => "5"
  | 6 => "6" | 7 => "7" | 8 => "8" | 9 => "9" | 10 => "a" | 11 => "b"
  | 12 => "c" | 13 => "d" | 14 => "e" | _ => "f"
  end%char.

Definition hex_value (c : ascii) : option nat :=
  let n := nat_of_ascii c in
  if (48 <=? n)%nat && (n <=? 57)%nat then Some (n - 48)
  else if (97 <=? n)%nat && (n <=? 102)%nat then Some (n - 87)
  else if (65 <=? n)%nat && (n <=? 70)%nat then Some (n - 55)
  else None.

(** [QuoteJSONString], one code unit at a time. *)
Definition escape_char (c : ascii) : string :=
  let n := nat_of_ascii c in
  if Ascii.eqb c dquote then String backslash (String dquote "")
  else if Ascii.eqb c backslash then String backslash (String backslash "")
  else if (n =? 8)%nat then String backslash "b"
  else if (n =? 12)%nat then String backslash "f"
  else if (n =? 10)%nat then String backslash "n"
  else if (n =? 13)%nat then String backslash "r"
  else if (n =? 9)%nat then String backslash "t"
  else if (n <? 32)%nat
       then String backslash
              (String "u" (String "0" (String "0"
                 (String (hex_digit (n / 16))
                    (String (hex_digit (n mod 16)) "")))))
  else String c "".

Fixpoint escape (s : string) : string :=
  match s with
  | EmptyString => EmptyString
  | String c s' => escape_char c ++ escape s'
  end.

Definition quote (s : string) : string :=
  String dquote (escape s ++ String dquote "").

Definition stringify_value (v : option string) : string :=
  match v with
  | Some s => quote s
  | None => "null"
  end.

Definition stringify_member (m : string * option string) : string :=
  quote m.1 ++ ":" ++ stringify_value m.2.

Definition stringify (o : Object) : string :=
  "{" ++ JS.join "," (map stringify_member o) ++ "}".

(** The character a simple escape stands for. *)
Definition unescape (e : ascii) : option ascii :=
  if Ascii.eqb e dquote then Some dquote
  else if Ascii.eqb e backslash then Some backslash
  else if Ascii.eqb e "/" then Some "/"%char
  else if Ascii.eqb e "b" then Some (ascii_of_nat 8)
  else if Ascii.eqb e "f" then Some (ascii_of_nat 12)
  else if Ascii.eqb e "n" then Some (ascii_of_nat 10)
  else if Ascii.eqb e "r" then Some (ascii_of_nat 13)
  else if Ascii.eqb e "t" then Some (ascii_of_nat 9)
  else None.

Definition hex4 (h1 h2 h3 h4 : ascii) : option ascii :=
  match hex_value h1, hex_value h2, hex_value h3, hex_value h4 with
  | Some a, Some b, Some c, Some d =>
      let n := ((a * 16 + b) * 16 + c) * 16 + d in
      if (n <? 256)%nat then Some (ascii_of_nat n) else None
  | _, _, _, _ => None
  end.

Definition prepend (c : ascii) (r : option (string * string))
  : option (string * string) :=
  match r with
  | Some (s, rest) => Some (String c s, rest)
  | None => None
  end.

(** The characters of a string literal after its opening quote: the
    decoded string and what follows the closing quote. *)
Fixpoint parse_chars (s : string) : option (string * string) :=
  match s with
  | EmptyString => None
  | String c s1 =>
      if Ascii.eqb c dquote then Some (EmptyString, s1)
      else if Ascii.eqb c backslash then
        match s1 with
        | EmptyString => None
        | String e s2 =>
            match unescape e with
            | Some d => prepend d (parse_chars s2)
            | None =>
                if Ascii.eqb e "u" then
                  match s2 with
                  | String h1 (String h2 (String h3 (String h4 s3))) =>
                      match hex4 h1 h2 h3 h4 with
                      | Some d => prepend d (parse_chars s3)
                      | None => None
                      end
                  | _ => None
                  end
                else None
            end
        end
      else if (nat_of_ascii c <? 32)%nat then None
      else prepend c (parse_chars s1)
  end.

Definition parse_string (s : string) : option (string * string) :=
  match s with
  | String c s' => if Ascii.eqb c dquote then parse_chars s' else None
  | EmptyString => None
  end.

Definition parse_value (s : string) : option (option string * string) :=
  match JS.drop_prefix s "null" with
  | Some rest => Some (None, rest)
  | None =>
      match parse_string s with
      | Some (v, rest) => Some (Some v, rest)
      | None => None
      end
  end.

(** Defining a property: a key that is already there keeps its place and
    takes the new value. *)
Fixpoint set_property (k : string) (v : option string) (o : Object)
  : Object :=
  match o with
  | [] => [(k, v)]
  | (k', v') :: o' =>
      if String.eqb k' k then (k', v) :: o'
      else (k', v') :: set_property k v o'
  end.

Fixpoint parse_members (fuel : nat) (s : string) (acc : Object)
  : option Object :=
  match fuel with
  | O => None
  | S fuel' =>
      match parse_string s with
      | Some (k, String c1 s1) =>
          if Ascii.eqb c1 ":" then
            match parse_value s1 with
            | Some (v, String c2 s2) =>
                if Ascii.eqb c2 "," then
                  parse_members fuel' s2 (set_property k v acc)
                else if Ascii.eqb c2 "}" && String.eqb s2 ""
                     then Some (set_property k v acc)
                     else None
            | _ => None
            end
          else None
      | _ => None
      end
  end.

(** [JSON.parse] on the texts [stringify] writes: a flat object without
    insignificant white space.  [None] stands for the [SyntaxError]. *)
Definition parse (s : string) : option Object :=
  if String.eqb s "{}" then Some []
  else match s with
       | String c s' =>
           if Ascii.eqb c "{" then parse_members (String.length s') s' []
           else None
       | EmptyString => None
       end.

Definition SyntaxError : JSError := Error "Unexpected token in JSON".

End JSON.

(** ** Error messages ([src/types.ts]) *)

Module ERROR_MESSAGES.

Definition NO_COMMAND (command : string) : string :=
  command ++ ": command not provided".
Definition ERR_CMD_NOT_FOUND (command : string) : string :=
  command ++ ": command not found".
Definition ERR_PERMISSION_DENIED (filePath : string) : string :=
  filePath ++ ": permission denied".
Definition ERR_NOT_A_DIRECTORY (path : string) : string :=
  "cd: " ++ path ++ ": not a directory".
Definition ERR_NO_SUCH_DIRECTORY (path : string) : string :=
  "cd: " ++ path ++ ": no such file or directory".
Definition ERR_INVALID_OPERATOR (operator : string) : string :=
  operator ++ ": invalid operator".
Definition ERR_UNKNOWN : string := "An unknown error occurred".
Definition ERR_INVALID_COMMAND_CLASS (path : string) : string :=
  path ++ ": invalid command class".
Definition ERR_MISSING_PATH : string := "cd: missing operand".
Definition ERR_MKDIR_CREATE (dir message : string) : string :=
  "mkdir: cannot create directory '" ++ dir ++ "': " ++ message.

End ERROR_MESSAGES.
Import ERROR_MESSAGES.

(** ** The shell *)

(** What [shellQuote.parse] returns for one token: a plain string, an
    operator object [{ op }], a glob object [{ op: 'glob', pattern }] or a
    comment object [{ comment }]. *)
Inductive ParseEntry : Type :=
| PString (s : string)
| POp (op : string)
| PGlob (pattern : string)
| PComment (comment : string).

(** The Node process the shell lives in: the steps of [process.cwd()] and the
    tokenizer of the [shell-quote] package. *)
Record Host := mkHost {
  process_cwd : list string;
  shellQuote_parse : string -> list ParseEntry;
}.

(** The state a command or a hook can reach through its shell reference.
    [emitted] lists the [(event, message)] pairs given to [emit], [console]
    the lines given to [console.debug], oldest first. [stamped] lists the
    calls of [utimes] made so far, oldest first, each by the node whose
    access and modification time it set to the time of the call: nothing in
    the shell reads a time back, so the calls are kept and not the dates. *)
Record World := mkWorld {
  currentDirectory : string;
  user : string;
  volume : Memfs.Volume;
  emitted : list (string * string);
  console : list string;
  stamped : list (list string);
}.

Definition set_currentDirectory (d : string) (w : World) : World :=
  mkWorld d (user w) (volume w) (emitted w) (console w) (stamped w).

Definition set_volume (v : Memfs.Volume) (w : World) : World :=
  mkWorld (currentDirectory w) (user w) v (emitted w) (console w)
          (stamped w).

Definition emit (event message : string) (w : World) : World :=
  mkWorld (currentDirectory w) (user w) (volume w)
          (emitted w ++ [(event, message)])%list (console w) (stamped w).

Definition console_debug (line : string) (w : World) : World :=
  mkWorld (currentDirectory w) (user w) (volume w) (emitted w)
          (console w ++ [line])%list (stamped w).

(** The state after [utimes(path, now, now)] on the node [node]. *)
Definition stamp (node : list string) (w : World) : World :=
  mkWorld (currentDirectory w) (user w) (volume w) (emitted w) (console w)
          (stamped w ++ [node])%list.

(** [execute(args)]: the value returned or thrown, the argument array as the
    body leaves it (the caller passes its own array, and [rm] shifts flags
    off it), and the state. *)
Abbreviation Command :=
  (list string -> World -> Result string * list string * World)%type.

(** Hooks get a copy of the arguments; what they return is dropped. *)
Abbreviation PreHookFn := (list string -> World -> Result unit * World)%type.
Abbreviation PostHookFn :=
  (list string -> string -> World -> Result unit * World)%type.

Record Shell := mkShell {
  world : World;
  commands : gmap string Command;
  preHook : gmap string (list PreHookFn);
  postHook : gmap string (list PostHookFn);
}.

Definition set_world (w : World) (sh : Shell) : Shell :=
  mkShell w (commands sh) (preHook sh) (postHook sh).

Definition set_postHook (p : gmap string (list PostHookFn)) (sh : Shell)
  : Shell :=
  mkShell (world sh) (commands sh) (preHook sh) p.

(** *** Hook pipelines ([src/hooks]) *)

Module Hook.

(** [register]: the list of a name is created on first use and the
    function goes to its end. *)
Definition register {F : Type} (commandName : string) (hookFunction : F)
    (hooks : gmap string (list F)) : gmap string (list F) :=
  <[commandName := (default [] (hooks !! commandName) ++ [hookFunction])%list]>
    hooks.

(** The [for ... await] loop of [run]: a hook that throws ends it. *)
Fixpoint run_all {F : Type} (call : F -> World -> Result unit * World)
    (hooks : list F) (w : World) : Result unit * World :=
  match hooks with
  | [] => (Ok tt, w)
  | hook :: hooks' =>
      match call hook w with
      | (Ok _, w') => run_all call hooks' w'
      | (Throw e, w') => (Throw e, w')
      end
  end.

Definition run {F : Type} (call : F -> World -> Result unit * World)
    (hooks : gmap string (list F)) (commandName : string) (w : World)
  : Result unit * World :=
  match hooks !! commandName with
  | Some l => run_all call l w
  | None => (Ok tt, w)
  end.

End Hook.

Module PreHook.

Definition register (commandName : string) (hookFunction : PreHookFn)
    (hooks : gmap string (list PreHookFn)) : gmap string (list PreHookFn) :=
  Hook.register commandName hookFunction hooks.

(** [run(commandName, args)]: each hook is called with a copy of [args]. *)
Definition run (hooks : gmap string (list PreHookFn))
    (commandName : string) (args : list string) (w : World)
  : Result unit * World :=
  Hook.run (fun hook => hook args) hooks commandName w.

End PreHook.

Module PostHook.

Definition register (commandName : string) (hookFunction : PostHookFn)
    (hooks : gmap string (list PostHookFn)) : gmap string (list PostHookFn) :=
  Hook.register commandName hookFunction hooks.

(** [run(commandName, args, output)]: each hook is called with a copy of
    [args] and with the output of the command. *)
Definition run (hooks : gmap string (list PostHookFn))
    (commandName : string) (args : list string) (output : string) (w : World)
  : Result unit * World :=
  Hook.run (fun hook => hook args output) hooks commandName w.

End PostHook.

(** *** Property lookup on [this.commands] *)

(** [this.commands] starts as an object literal, so next to the registered
    names it answers to the names it inherits from [Object.prototype]. *)
Definition Object_prototype_keys : list string :=
  [ "constructor"; "__defineGetter__"; "__defineSetter__"; "hasOwnProperty";
    "__lookupGetter__"; "__lookupSetter__"; "isPrototypeOf";
    "propertyIsEnumerable"; "toString"; "valueOf"; "__proto__";
    "toLocaleString" ].

Inductive Property : Type :=
| Own (c : Command)
| Inherited
| Missing.

(** [this.commands[name]]. *)
Definition get_property (name : string) (cmds : gmap string Command)
  : Property :=
  match cmds !! name with
  | Some c => Own c
  | None => if bool_decide (name ∈ Object_prototype_keys) then Inherited
            else Missing
  end.

(** [name in this.commands]. *)
Definition has_property (name : string) (cmds : gmap string Command) : bool :=
  match get_property name cmds with
  | Missing => false
  | _ => true
  end.

(** What calling a method that is [undefined] throws. *)
Definition TypeError_not_a_function (callee : string) : JSError :=
  Error (callee ++ " is not a function").

(** *** [VirtualShell] ([src/virtual-shell.ts]) *)

Definition stdout (message : string) (w : World) : string * World :=
  let shellMessage := "bash: " ++ message in
  (shellMessage, emit "stdout" shellMessage (console_debug shellMessage w)).

Definition stderr (message : string) (w : World) : string * World :=
  let shellErrorMessage := "bash: " ++ message in
  (shellErrorMessage,
   emit "stderr" shellErrorMessage (console_debug shellErrorMessage w)).

(** [(err as Error).message || ERROR_MESSAGES.ERR_UNKNOWN]. *)
Definition message_or_unknown (e : JSError) : string :=
  if String.eqb (message e) "" then ERR_UNKNOWN else message e.

Definition isInvalidCommand (command : string) : bool :=
  String.eqb (JS.trim command) "".

(** [x || null] on a string that may be [undefined]. *)
Definition or_null (x : option string) : option string :=
  match x with
  | Some s => if String.eqb s "" then None else Some s
  | None => None
  end.

Record Redirection := mkRedirection {
  commandInput : string;
  redirectionOperator : option string;
  targetFile : option string;
}.

(** Whether [t] as a whole matches [\s*(?:>>|>)\s*(\S+)]: white space, one of
    the operators, white space, then characters that are not white space up
    to the end. *)
Definition is_target (r : string) : bool :=
  let r' := JS.trimStart r in
  negb (String.eqb r' "") && JS.all_chars (fun c => negb (JS.is_space c)) r'.

Definition redirection_suffix (t : string) : bool :=
  match JS.trimStart t with
  | String c rest =>
      Ascii.eqb c ">"
      && (is_target rest
          || match rest with
             | String c' rest' => Ascii.eqb c' ">" && is_target rest'
             | EmptyString => false
             end)
  | EmptyString => false
  end.

(** [command.match(/(.*?)(\s*(?:>>|>)\s*(\S+))$/)]: the second group is the
    longest suffix of the line that matches, the first group what precedes it
    on its line, since the dot stops at line terminators and the lazy star
    takes as little as it can.  [line_rev] is the current line read so far,
    reversed. *)
Fixpoint find_redirection (line_rev : string) (s : string)
  : option (string * string) :=
  if redirection_suffix s then Some (String.rev line_rev, s)
  else match s with
       | EmptyString => None
       | String c s' =>
           find_redirection
             (if JS.is_line_terminator c then EmptyString
              else String c line_rev) s'
       end.

Definition extractRedirection (command : string) : Redirection :=
  match find_redirection "" command with
  | Some (group1, group2) =>
      let trimmed := JS.trim group1 in
      let redirectionDetails := JS.split_spaces (JS.trim group2) in
      mkRedirection
        (if String.eqb trimmed "" then command else trimmed)
        (or_null (redirectionDetails !! 0%nat))
        (or_null (redirectionDetails !! 1%nat))
  | None => mkRedirection command None None
  end.

(** The [map] and [filter] that turn parse entries into arguments. *)
Definition entry_text (arg : ParseEntry) : string :=
  match arg with
  | PString s => s
  | PGlob pattern => pattern
  | POp op => op
  | PComment _ => ""
  end.

Definition commandName_of (args : list ParseEntry) : string :=
  match args with
  | PString s :: _ => s
  | _ => ""
  end.

Definition commandArgs_of (args : list ParseEntry) : list string :=
  List.filter (fun arg => negb (String.eqb arg ""))
              (map entry_text (tail args)).

(** What [executeCommand] leaves when its promise resolves with the string
    of [r], on shell [sh]. *)
Definition ending (sh : Shell) (r : string * World) : Result string * Shell :=
  (Ok r.1, set_world r.2 sh).

(** The [catch] clause of [executeCommand],
    [(err as Error).message || ERR_UNKNOWN] given to [stderr].  Reading
    [message] of [null] or [undefined] throws inside the clause, so the
    promise of [executeCommand] is rejected with that [TypeError] and
    [stderr] is not called. *)
Definition caught (sh : Shell) (err : JSError) (w : World)
  : Result string * Shell :=
  match err with
  | ThrownNull =>
      (Throw (TypeError_cannot_read "null" "message"), set_world w sh)
  | ThrownUndefined =>
      (Throw (TypeError_cannot_read "undefined" "message"), set_world w sh)
  | mkError _ _ => ending sh (stderr (message_or_unknown err) w)
  end.

Section Engine.

Variable h : Host.

Definition resolve (w : World) (target : string) : string :=
  Path.resolve (process_cwd h) [currentDirectory w; target].

Definition processRedirection (output operator targetFile commandName : string)
    (w : World) : string * World :=
  let filePath := resolve w targetFile in
  match Memfs.access (process_cwd h) filePath (volume w) with
  | Throw _ => stderr (ERR_PERMISSION_DENIED filePath) w
  | Ok _ =>
      let nl := String (ascii_of_nat 10) "" in
      let written :=
        if String.eqb operator ">" then
          Some (Memfs.writeFile (process_cwd h) filePath (output ++ nl)
                                (volume w))
        else if String.eqb operator ">>" then
          Some (Memfs.appendFile (process_cwd h) filePath (output ++ nl)
                                 (volume w))
        else None in
      match written with
      | None => stderr (ERR_INVALID_OPERATOR operator) w
      | Some (Ok v') => stdout "" (set_volume v' w)
      | Some (Throw err) =>
          stderr (commandName ++ ": " ++ message_or_unknown err) w
      end
  end.

Definition executeCommand (sh : Shell) (command : string)
  : Result string * Shell :=
  let w := world sh in
  if isInvalidCommand command then ending sh (stderr (NO_COMMAND "bash") w)
  else
    let red := extractRedirection command in
    let args := shellQuote_parse h (commandInput red) in
    let commandName := commandName_of args in
    let commandArgs := commandArgs_of args in
    if String.eqb commandName "" then ending sh (stderr (NO_COMMAND "bash") w)
    else if negb (has_property commandName (commands sh))
    then ending sh (stderr (ERR_CMD_NOT_FOUND commandName) w)
    else
      match PreHook.run (preHook sh) commandName commandArgs w with
      | (Throw err, w1) => caught sh err w1
      | (Ok _, w1) =>
          match get_property commandName (commands sh) with
          | Missing => ending sh (stderr (ERR_CMD_NOT_FOUND commandName) w1)
          | Inherited =>
              caught sh (TypeError_not_a_function "commandInstance.execute")
                     w1
          | Own commandInstance =>
              match commandInstance commandArgs w1 with
              | (Throw err, _, w2) => caught sh err w2
              | (Ok output, commandArgs', w2) =>
                  match PostHook.run (postHook sh) commandName commandArgs'
                                     output w2 with
                  | (Throw err, w3) => caught sh err w3
                  | (Ok _, w3) =>
                      match redirectionOperator red, targetFile red with
                      | Some operator, Some target =>
                          ending sh (processRedirection output operator target
                                                     commandName w3)
                      | _, _ => ending sh (output, w3)
                      end
                  end
              end
          end
      end.

Definition changeDirectory (newPath : string) (w : World) : string * World :=
  let targetPath := resolve w newPath in
  match Memfs.lstat (process_cwd h) targetPath (volume w) with
  | Ok Memfs.Dir => (targetPath, set_currentDirectory targetPath w)
  | Ok (Memfs.File _) => (ERR_NOT_A_DIRECTORY newPath, w)
  | Throw _ => (ERR_NO_SUCH_DIRECTORY newPath, w)
  end.

Definition serializeVolume (w : World) : string :=
  JSON.stringify (Memfs.toJSON (volume w)).

(** [deserializeVolume] with [this.volume] being [current]: [None] is the
    field before its first assignment, when [this.volume.reset()] is a
    [TypeError].  On a volume that is there, [reset] empties it before the
    text is parsed, and the state keeps it when parsing or loading throws. *)
Definition deserializeVolume_on (current : option Memfs.Volume)
    (serializedVolume : string)
  : Result Memfs.Volume * option Memfs.Volume :=
  match current with
  | None =>
      (Throw (Error "Cannot read properties of undefined (reading 'reset')"),
       None)
  | Some _ =>
      match JSON.parse serializedVolume with
      | None => (Throw JSON.SyntaxError, Some Memfs.empty)
      | Some json =>
          match Memfs.fromJSON (process_cwd h) json with
          | Ok v => (Ok v, Some v)
          | Throw err => (Throw err, Some Memfs.empty)
          end
      end
  end.

Definition deserializeVolume (serializedVolume : string) (w : World)
  : Result Memfs.Volume * World :=
  match deserializeVolume_on (Some (volume w)) serializedVolume with
  | (r, Some v) => (r, set_volume v w)
  | (r, None) => (r, w)
  end.

End Engine.

(** *** Registration and construction *)

Definition registerCommand (name : string) (commandInstance : Command)
    (cmds : gmap string Command) : gmap string Command :=
  <[name := commandInstance]> cmds.

(** A value exported by a command module, seen through the three tests of
    [isValidCommand], and the instance [new] makes of it. *)
Record Exported := mkExported {
  typeof_function : bool;
  proto_is_Function_prototype : bool;
  BaseCommand_in_prototype_chain : bool;
  construct : Command;
}.

Definition isValidCommand (CommandClass : Exported) : bool :=
  typeof_function CommandClass
  && proto_is_Function_prototype CommandClass
  && BaseCommand_in_prototype_chain CommandClass.

(** The body of the async function [importCommandModules]: how its promise
    settles and the registry it leaves.  [import] is the dynamic [import()]
    of the host, which yields the exported values of a module or rejects. *)
Fixpoint importCommandModules (h : Host)
    (import : string -> Result (list Exported)) (files : list string)
    (cmds : gmap string Command) : Result unit * gmap string Command :=
  match files with
  | [] => (Ok tt, cmds)
  | file :: files' =>
      if negb (JS.endsWith file ".js")
      then importCommandModules h import files' cmds
      else
        let commandName := JS.toLowerCase (JS.remove_first "-command.js" file) in
        let commandPath := Path.resolve (process_cwd h) ["commands"; file] in
        match import ("file://" ++ commandPath) with
        | Throw err => (Throw err, cmds)
        | Ok module =>
            match List.find typeof_function module with
            | Some CommandClass =>
                if isValidCommand CommandClass
                then importCommandModules h import files'
                       (registerCommand commandName (construct CommandClass)
                                        cmds)
                else (Throw (Error (ERR_INVALID_COMMAND_CLASS commandPath)),
                      cmds)
            | None =>
                (Throw (Error (ERR_INVALID_COMMAND_CLASS commandPath)), cmds)
            end
        end
  end.

(** [VirtualShellOptions]: [None] is a property that is absent. *)
Record VirtualShellOptions := mkOptions {
  opt_serializedVolume : option string;
  opt_currentDirectory : option string;
  opt_user : option string;
}.

(** [x || fallback] on an optional string. *)
Definition or_default (x : option string) (fallback : string) : string :=
  match or_null x with
  | Some s => s
  | None => fallback
  end.

(** What [new VirtualShell(options)] leaves: the instance as the constructor
    returns it, and the promise of [importCommandModules], which the
    constructor calls without awaiting and drops. *)
Record Construction := mkConstruction {
  instance : Shell;
  importing : Result unit * gmap string Command;
}.

(** The instance once the import promise has settled. *)
Definition after_import (c : Construction) : Shell :=
  mkShell (world (instance c)) (importing c).2
          (preHook (instance c)) (postHook (instance c)).

Definition constructor (h : Host) (options : VirtualShellOptions)
    (readdirSync : Result (list string))
    (import : string -> Result (list Exported)) : Result Construction :=
  let currentDirectory0 := or_default (opt_currentDirectory options) "/" in
  let user0 := or_default (opt_user options) "guest" in
  let volume0 :=
    match or_null (opt_serializedVolume options) with
    | Some s => (deserializeVolume_on h None s).1
    | None => Ok Memfs.empty
    end in
  match volume0 with
  | Throw err => Throw err
  | Ok v =>
      match readdirSync with
      | Throw err => Throw err
      | Ok files =>
          let promise := importCommandModules h import files ∅ in
          (* Object.assign(this, options) *)
          let currentDirectory1 :=
            default currentDirectory0 (opt_currentDirectory options) in
          let user1 := default user0 (opt_user options) in
          Ok (mkConstruction
                (mkShell (mkWorld currentDirectory1 user1 v [] [] []) ∅ ∅ ∅)
                promise)
      end
  end.

(** ** Commands ([src/commands]) *)

Module BaseCommand.

Definition resolvePath (h : Host) (w : World) (targetPath : string)
  : string :=
  resolve h w targetPath.

(** What the function run in the isolate does with its global [console],
    as far as the host can tell.  [setupIsolate] sets [console] to an
    [ivm.Reference] to the object that holds the two callbacks, not to the
    object, so a callback is reached through the reference only:
    [console.getSync('log', { reference: true }).applySync(undefined, args)]
    is [Log args], the same on ['error'] is [LogError args].  The reference
    has no property [log] or [error]: [console.log(...)] written as on the
    host is [Method "log"], a call of [undefined]. *)
Inductive ConsoleCall : Type :=
| Log (args : list string)
| LogError (args : list string)
| Method (name : string).

Inductive Completion : Type :=
| Returned
| ThrewError (msg : string)
| ThrewOther.

Record Script := mkScript {
  calls : list ConsoleCall;
  completion : Completion;
}.

(** The two [let] variables of [setupIsolate] that the console callbacks
    close over, and whether the isolate was disposed. *)
Record Isolate := mkIsolate {
  var_output : string;
  var_errorOutput : string;
  disposed : bool;
}.

(** The object [setupIsolate] returns: [output] and [errorOutput] are
    properties holding the strings the variables had when it returned. *)
Record Setup := mkSetup {
  isolate : Isolate;
  output : string;
  errorOutput : string;
}.

Definition nl : string := String (ascii_of_nat 10) "".

(** The two callbacks of [consoleRef]. *)
Definition consoleRef_log (args : list string) (i : Isolate) : Isolate :=
  mkIsolate (var_output i ++ JS.join " " args ++ nl)
            (var_errorOutput i) (disposed i).

Definition consoleRef_error (args : list string) (i : Isolate) : Isolate :=
  mkIsolate (var_output i)
            (var_errorOutput i ++ JS.join " " args ++ nl) (disposed i).

Definition setupIsolate : Setup :=
  let output := "" in
  let errorOutput := "" in
  mkSetup (mkIsolate output errorOutput false) output errorOutput.

Definition dispose (i : Isolate) : Isolate :=
  mkIsolate (var_output i) (var_errorOutput i) true.

Record ExecutionResult := mkExecutionResult {
  stdout : string;
  stderr : string;
}.

(** The calls of the script in their order: a callback runs against the
    variables of [setupIsolate]; a call of a property the reference does
    not have throws a [TypeError] and the calls after it do not happen. *)
Fixpoint run_calls (calls : list ConsoleCall) (i : Isolate)
  : option string * Isolate :=
  match calls with
  | [] => (None, i)
  | Log args :: calls' => run_calls calls' (consoleRef_log args i)
  | LogError args :: calls' => run_calls calls' (consoleRef_error args i)
  | Method name :: _ =>
      (Some ("console." ++ name ++ " is not a function"), i)
  end.

(** [script.run]: the script ends the way it is written to end unless one
    of its calls threw before. *)
Definition run (func : Script) (i : Isolate) : Completion * Isolate :=
  match run_calls (calls func) i with
  | (Some msg, i') => (ThrewError msg, i')
  | (None, i') => (completion func, i')
  end.

Definition executeFunction (func : Script) : ExecutionResult * Isolate :=
  let s := setupIsolate in
  let '(c, i) := run func (isolate s) in
  let result :=
    match c with
    | Returned =>
        mkExecutionResult (JS.trim (output s)) (JS.trim (errorOutput s))
    | ThrewError msg => mkExecutionResult (JS.trim (output s)) msg
    | ThrewOther => mkExecutionResult (JS.trim (output s)) "Unknown error"
    end in
  (result, dispose i).

End BaseCommand.

(** [getSearchPaths] of [BaseCommand]: [PATH] is the variable of that name
    in [this.shell.environment], [None] when it is not set, and [platform]
    is [process.platform]. *)
Definition getSearchPaths (PATH : option string) (platform : string)
  : list string :=
  JS.split (if String.eqb platform "win32" then ";"%char else ":"%char)
           (or_default PATH "").

Module EchoCommand.

Definition execute : Command := fun args w =>
  match args with
  | [] => (Throw (Error (NO_COMMAND "echo")), args, w)
  | _ => (Ok (JS.join " " args), args, w)
  end.

End EchoCommand.

Module CatCommand.

(** The [catch] clause of the loop: the properties are read under the
    test [err instanceof Error], and any other value gets the message of an
    unknown error. *)
Definition rethrow (filePath : string) (err : JSError) : JSError :=
  match err with
  | mkError _ _ =>
      match code err with
      | Some c =>
          if String.eqb c "ENOENT"
          then Error (ERR_NO_SUCH_DIRECTORY (Path.basename filePath))
          else Error ("cat: " ++ Path.basename filePath ++ ": " ++ message err)
      | None =>
          Error ("cat: " ++ Path.basename filePath ++ ": " ++ message err)
      end
  | ThrownNull | ThrownUndefined =>
      Error ("cat: " ++ Path.basename filePath ++ ": " ++ ERR_UNKNOWN)
  end.

Fixpoint read_all (h : Host) (filePaths : list string) (output : string)
    (v : Memfs.Volume) : Result string :=
  match filePaths with
  | [] => Ok output
  | filePath :: rest =>
      match Memfs.lstat (process_cwd h) filePath v with
      | Throw err => Throw (rethrow filePath err)
      | Ok Memfs.Dir =>
          Throw (rethrow filePath
                   (Error (ERR_NOT_A_DIRECTORY (Path.basename filePath))))
      | Ok (Memfs.File _) =>
          match Memfs.readFile (process_cwd h) filePath v with
          | Throw err => Throw (rethrow filePath err)
          | Ok data => read_all h rest (output ++ data) v
          end
      end
  end.

Definition execute (h : Host) : Command := fun args w =>
  match args with
  | [] => (Throw (Error (NO_COMMAND "cat")), args, w)
  | _ => (read_all h (map (resolve h w) args) "" (volume w), args, w)
  end.

End CatCommand.

Module CdCommand.

(** [changeDirectory] answers with a string on each of its paths, so the
    [typeof result !== 'string'] test that would throw never holds. *)
Definition execute (h : Host) : Command := fun args w =>
  match args with
  | [] => (Throw (Error ERR_MISSING_PATH), args, w)
  | newPath :: _ =>
      let '(_, w') := changeDirectory h newPath w in
      (Ok "", args, w')
  end.

End CdCommand.

Module RmCommand.

Definition is_recursive_flag (option : string) : bool :=
  String.eqb option "-r" || String.eqb option "-R".

(** The [while] loop: leading arguments that start with a dash are shifted
    off the array. *)
Fixpoint shift_flags (args : list string) (recursive : bool)
  : Result bool * list string :=
  match args with
  | option :: rest =>
      if JS.startsWith option "-" then
        if is_recursive_flag option then shift_flags rest true
        else (Throw (Error (ERR_INVALID_OPERATOR option)), rest)
      else (Ok recursive, args)
  | [] => (Ok recursive, [])
  end.

(** The closure [rmFunction], which would delete the targets. *)
Fixpoint rmFunction (h : Host) (recursive : bool) (targets : list string)
    (v : Memfs.Volume) : Result unit * Memfs.Volume :=
  match targets with
  | [] => (Ok tt, v)
  | target :: rest =>
      let failed (err : JSError) :=
        match code err with
        | Some "ENOENT" => Error (ERR_NO_SUCH_DIRECTORY target)
        | _ => Error ("rm: cannot remove '" ++ target ++ "': " ++ message err)
        end in
      match Memfs.lstat (process_cwd h) target v with
      | Throw err => (Throw (failed err), v)
      | Ok Memfs.Dir =>
          if recursive then
            match Memfs.rm_rf (process_cwd h) target v with
            | Ok v' => rmFunction h recursive rest v'
            | Throw err => (Throw (failed err), v)
            end
          else (Throw (failed (Error ("rm: cannot remove '" ++ target
                                        ++ "': Is a directory"))), v)
      | Ok (Memfs.File _) =>
          match Memfs.unlink (process_cwd h) target v with
          | Ok v' => rmFunction h recursive rest v'
          | Throw err => (Throw (failed err), v)
          end
      end
  end.

(** The call of [rmFunction] through [executeFunction] is commented out in
    the source, so the targets are resolved and nothing else happens. *)
Definition execute (h : Host) : Command := fun args w =>
  match args with
  | [] => (Throw (Error (NO_COMMAND "rm")), args, w)
  | _ =>
      match shift_flags args false with
      | (Throw err, args') => (Throw err, args', w)
      | (Ok recursive, []) => (Throw (Error ERR_MISSING_PATH), [], w)
      | (Ok recursive, args') =>
          let targets := map (BaseCommand.resolvePath h w) args' in
          (Ok "", args', w)
      end
  end.

End RmCommand.

Module TouchCommand.

Definition createFile (h : Host) (filePath : string) (w : World)
  : Result string * World :=
  match Memfs.writeFile (process_cwd h) filePath "" (volume w) with
  | Ok v' => (Ok "", set_volume v' w)
  | Throw writeError =>
      (Throw (Error ("touch: cannot create file '" ++ filePath ++ "': "
                       ++ message writeError)), w)
  end.

Definition handleError (error : JSError) (fileName : string) : JSError :=
  Error ("touch: cannot touch '" ++ fileName ++ "': " ++ message error).

Definition execute (h : Host) : Command := fun args w =>
  match args with
  | [] => (Throw (Error ERR_MISSING_PATH), args, w)
  | fileName :: _ =>
      if String.eqb fileName "" then (Throw (Error ERR_MISSING_PATH), args, w)
      else
        let filePath := resolve h w fileName in
        match Memfs.utimes (process_cwd h) filePath (volume w) with
        | Ok node => (Ok "", args, stamp node w)
        | Throw error =>
            match code error with
            | Some "ENOENT" =>
                let '(r, w') := createFile h filePath w in (r, args, w')
            | _ => (Throw (handleError error fileName), args, w)
            end
        end
  end.

End TouchCommand.

Module MkdirCommand.

(** The inner loop over the characters after the dash. *)
Fixpoint parse_flag (chars : string) (parents : bool) : Result bool :=
  match chars with
  | EmptyString => Ok parents
  | String char chars' =>
      if Ascii.eqb char "p" then parse_flag chars' true
      else Throw (Error (ERR_INVALID_OPERATOR (String char "")))
  end.

(** [arg.slice(1)]. *)
Definition slice1 (arg : string) : string :=
  match arg with
  | EmptyString => EmptyString
  | String _ rest => rest
  end.

(** The loop that sorts arguments into options and resolved directories. *)
Fixpoint parse_args (h : Host) (w : World) (args : list string)
    (parents : bool) (directories : list string)
  : Result (bool * list string) :=
  match args with
  | [] => Ok (parents, directories)
  | arg :: args' =>
      if JS.startsWith arg "-" then
        match parse_flag (slice1 arg) parents with
        | Ok parents' => parse_args h w args' parents' directories
        | Throw err => Throw err
        end
      else parse_args h w args' parents
                      (directories ++ [resolve h w arg])%list
  end.

(** The loop that creates the directories and collects the failures. *)
Fixpoint create_all (h : Host) (parents : bool) (directories : list string)
    (errors : list string) (v : Memfs.Volume) : list string * Memfs.Volume :=
  match directories with
  | [] => (errors, v)
  | dir :: directories' =>
      match Memfs.mkdir (process_cwd h) dir parents v with
      | Ok v' => create_all h parents directories' errors v'
      | Throw err =>
          create_all h parents directories'
            (errors ++ [ERR_MKDIR_CREATE (Path.basename dir) (message err)])%list
            v
      end
  end.

Definition execute (h : Host) : Command := fun args w =>
  match args with
  | [] => (Throw (Error ERR_MISSING_PATH), args, w)
  | _ =>
      match parse_args h w args false [] with
      | Throw err => (Throw err, args, w)
      | Ok (parents, directories) =>
          let '(errors, v') := create_all h parents directories [] (volume w) in
          match errors with
          | [] => (Ok "", args, set_volume v' w)
          | _ =>
              (Throw (Error (JS.join (String (ascii_of_nat 10) "") errors)),
               args, set_volume v' w)
          end
      end
  end.

End MkdirCommand.

(** The registry with the commands above under their names. *)
Definition builtins (h : Host) : gmap string Command :=
  registerCommand "echo" EchoCommand.execute
    (registerCommand "cat" (CatCommand.execute h)
       (registerCommand "cd" (CdCommand.execute h)
          (registerCommand "rm" (RmCommand.execute h) ∅))).

(** The same registry with [touch] and [mkdir]. *)
Definition all_builtins (h : Host) : gmap string Command :=
  registerCommand "touch" (TouchCommand.execute h)
    (registerCommand "mkdir" (MkdirCommand.execute h) (builtins h)).

(** A shell on an empty volume, in the root directory, without hooks. *)
Definition fresh_shell (h : Host) : Shell :=
  mkShell (mkWorld "/" "guest" Memfs.empty [] [] []) (builtins h) ∅ ∅.

(** A tokenizer that cuts a line at white space: what [shell-quote] does on
    lines made of plain words. *)
Definition words_parse (line : string) : list ParseEntry :=
  map PString (JS.runs_go None line).

Definition plain_host : Host := mkHost [] words_parse.

(** ** What a line is parsed into *)

Definition parsed_name (h : Host) (command : string) : string :=
  commandName_of (shellQuote_parse h (commandInput (extractRedirection command))).

Definition parsed_args (h : Host) (command : string) : list string :=
  commandArgs_of (shellQuote_parse h (commandInput (extractRedirection command))).

(** A line is redirected when the match yields both an operator and a
    target. *)
Definition redirected (command : string) : bool :=
  match redirectionOperator (extractRedirection command),
        targetFile (extractRedirection command) with
  | Some _, Some _ => true
  | _, _ => false
  end.

(** ** Vocabulary of the statements *)

(** A thrown value with properties. *)
Definition is_object (e : JSError) : Prop :=
  match e with
  | mkError _ _ => True
  | ThrownNull | ThrownUndefined => False
  end.

(** No regular file stands on the way to the steps [p], nor at [p]: what is
    missing there is missing below a directory. *)
Definition no_file_above (v : Memfs.Volume) (p : list string) : Prop :=
  forall k c, v !! take k p <> Some (Memfs.File c).

(** The same, computed. *)
Definition is_file (n : option Memfs.Node) : bool :=
  match n with
  | Some (Memfs.File _) => true
  | _ => false
  end.

Definition no_file_aboveb (v : Memfs.Volume) (p : list string) : bool :=
  forallb (fun k => negb (is_file (v !! take k p))) (seq 0 (S (length p))).

(** What the caller of [executeCommand] gets when the value [err] was thrown
    in state [w]: for an object the message under the shell's name, returned
    and published as one [stderr] event and one console line; for [null] and
    [undefined] a rejection with the [TypeError] of the property read, in
    the state as it was. *)
Definition failure_answer (sh : Shell) (err : JSError) (w : World)
    (r : Result string * Shell) : Prop :=
  match err with
  | mkError m _ =>
      let text :=
        "bash: " ++ (if String.eqb m "" then "An unknown error occurred"
                     else m) in
      r = (Ok text,
           set_world (mkWorld (currentDirectory w) (user w) (volume w)
                              (emitted w ++ [("stderr", text)])%list
                              (console w ++ [text])%list (stamped w)) sh)
  | ThrownNull =>
      r = (Throw (Error "Cannot read properties of null (reading 'message')"),
           set_world w sh)
  | ThrownUndefined =>
      r = (Throw (Error
                    "Cannot read properties of undefined (reading 'message')"),
           set_world w sh)
  end.

(** The line feed a redirection ends the output with. *)
Definition newline : string := String (ascii_of_nat 10) "".

(** The steps the filesystem looks a redirection target up under. *)
Definition target_steps (h : Host) (w : World) (target : string)
  : list string :=
  Memfs.filenameToSteps (process_cwd h) (resolve h w target).

(** One member read by [JSON.parse], added to the object read so far. *)
Definition define (acc : JSON.Object) (m : string * option string)
  : JSON.Object :=
  JSON.set_property m.1 m.2 acc.

(** A string without the path separator. *)
Definition no_slash (s : string) : bool :=
  JS.all_chars (fun c => negb (Ascii.eqb c Path.sep)) s.

(** A step the normalization keeps as it is. *)
Definition valid_name (s : string) : bool :=
  negb (String.eqb s "") && negb (String.eqb s ".")
  && negb (String.eqb s "..") && no_slash s.

(** Steps that are all valid names. *)
Abbreviation valid_path := (Forall (fun seg => valid_name seg = true)).

(** The shape every volume has: the root is a directory, what lies below a
    path lies below a directory, and every step is a name that
    normalization keeps. *)
Definition wf (v : Memfs.Volume) : Prop :=
  v !! [] = Some Memfs.Dir
  /\ (forall p x, is_Some (v !! (p ++ [x])%list) -> v !! p = Some Memfs.Dir)
  /\ (forall p, is_Some (v !! p) -> valid_path p).

(** An entry of a snapshot of [v], with the steps of its key. *)
Inductive entry_of (v : Memfs.Volume)
  : string * option string -> list string -> Prop :=
| file_entry p c :
    v !! p = Some (Memfs.File c) -> entry_of v (Path.render p, Some c) p
| dir_entry p :
    v !! p = Some Memfs.Dir -> entry_of v (Path.render p, None) p.

(** A string without the character [>]. *)
Definition no_gt (s : string) : bool :=
  JS.all_chars (fun c => negb (Ascii.eqb c ">")) s.

(** A string without line terminators. *)
Definition one_line (s : string) : bool :=
  JS.all_chars (fun c => negb (JS.is_line_terminator c)) s.

(** A word: at least one character and no white space. *)
Definition is_word (t : string) : bool :=
  negb (String.eqb t "") && JS.all_chars (fun c => negb (JS.is_space c)) t.

(** The contents of files, one after the other. *)
Definition concat_all (contents : list string) : string :=
  fold_right String.append "" contents.

(** An option of [mkdir] made of the letter p only. *)
Definition only_p (chars : string) : bool :=
  JS.all_chars (fun c => Ascii.eqb c "p") chars.

(** An argument of [mkdir] that is a directory name or an option made of
    the letter p. *)
Definition mkdir_accepts (arg : string) : bool :=
  negb (JS.startsWith arg "-") || only_p (MkdirCommand.slice1 arg).

(** The shell stands in a directory of a well-formed volume. *)
Definition at_home (h : Host) (w : World) : Prop :=
  wf (volume w)
  /\ volume w !! Memfs.filenameToSteps (process_cwd h) (currentDirectory w)
     = Some Memfs.Dir.

(** A command or hook result that published nothing. *)
Definition quiet (before after : World) : Prop :=
  emitted after = emitted before.

(** What a call of [executeCommand] published: nothing, or one event whose
    message is the string the call returned. *)
Definition reports (before : Shell) (r : Result string * Shell) : Prop :=
  emitted (world r.2) = emitted (world before)
  \/ exists event returned,
       (event = "stdout" \/ event = "stderr")
       /\ r.1 = Ok returned
       /\ emitted (world r.2)
          = (emitted (world before) ++ [(event, returned)])%list.

(** Lines given to [executeCommand] one after the other. *)
Fixpoint run_lines (h : Host) (sh : Shell) (lines : list string) : Shell :=
  match lines with
  | [] => sh
  | line :: lines' => run_lines h (executeCommand h sh line).2 lines'
  end.

(** A name the session below can use as it is: a path step without [>] and
    without a leading dash. *)
Definition plain_name (s : string) : bool :=
  valid_name s && no_gt s && negb (JS.startsWith s "-").

(** The separator [getSearchPaths] splits at. *)
Definition search_separator (platform : string) : ascii :=
  if String.eqb platform "win32" then ";"%char else ":"%char.

(** ** Sample shells and modules *)

(** A post-hook that leaves a trace when it runs. *)
Definition noisy_post : PostHookFn :=
  fun _ _ w => (Ok tt, emit "post" "ran" w).

(** A command whose body throws [null]. *)
Definition throws_null : Command := fun args w => (Throw ThrownNull, args, w).

(** The fresh shell with that command registered as [fail], and with the
    post-hook above registered for it. *)
Definition failing_shell : Shell :=
  mkShell (world (fresh_shell plain_host))
          (registerCommand "fail" throws_null (builtins plain_host))
          ∅ (PostHook.register "fail" noisy_post ∅).

(** The fresh shell with that post-hook registered for [echo]. *)
Definition hooked_shell : Shell :=
  set_postHook (PostHook.register "echo" noisy_post ∅) (fresh_shell plain_host).

(** A module whose export is a function that is no command class. *)
Definition bad_module : list Exported :=
  [mkExported true true false EchoCommand.execute].

(** A volume with a file in a directory. *)
Definition sample_volume : Memfs.Volume :=
  Memfs.apply [] [Memfs.MMkdir "/tmp" false;
                  Memfs.MWriteFile "/tmp/out.txt" "old"] Memfs.empty.

(** The fresh shell on that volume. *)
Definition sample_shell : Shell :=
  set_world (set_volume sample_volume (world (fresh_shell plain_host)))
            (fresh_shell plain_host).

(** A shell with all the commands above, on the sample volume. *)
Definition stocked_shell : Shell :=
  mkShell (world sample_shell) (all_builtins plain_host) ∅ ∅.

(** A module that exports one command class. *)
Definition echo_module : list Exported :=
  [mkExported true true true EchoCommand.execute].

(** * Properties *)

(** ** The models on sample inputs *)

Example resolve_relative :
  Path.resolve [] ["/a/b"; "../c/./d//"] = "/a/c/d".
Proof. reflexivity. Qed.

Example resolve_above_root : Path.resolve [] ["/"; "../.."] = "/".
Proof. reflexivity. Qed.

Example resolve_from_process_cwd :
  Path.resolve ["home"; "u"] [""; "x"] = "/home/u/x".
Proof. reflexivity. Qed.

Example extract_append :
  extractRedirection "echo a >>   f"
  = mkRedirection "echo a" (Some ">>") (Some "f").
Proof. vm_compute. reflexivity. Qed.

(** An operator glued to its target is one word: no target is found. *)
Example extract_glued :
  extractRedirection "echo a >f" = mkRedirection "echo a" (Some ">f") None.
Proof. vm_compute. reflexivity. Qed.

Example extract_last_redirection :
  extractRedirection "echo a > b > c"
  = mkRedirection "echo a > b" (Some ">") (Some "c").
Proof. vm_compute. reflexivity. Qed.

Example extract_nothing :
  extractRedirection "echo a" = mkRedirection "echo a" None None.
Proof. vm_compute. reflexivity. Qed.

Example blank_line_is_invalid : isInvalidCommand "   " = true.
Proof. reflexivity. Qed.

Example blank_line_answer :
  (executeCommand plain_host (fresh_shell plain_host) "   ").1
  = Ok "bash: bash: command not provided".
Proof. vm_compute. reflexivity. Qed.

Example unknown_command_answer :
  (executeCommand plain_host (fresh_shell plain_host) "nosuchcmd arg").1
  = Ok "bash: nosuchcmd: command not found".
Proof. vm_compute. reflexivity. Qed.

Example snapshot_of_sample :
  Memfs.toJSON sample_volume = [("/tmp/out.txt", Some "old")].
Proof. vm_compute. reflexivity. Qed.

(** ** The dispatch pipeline *)

Section Dispatch.

Variable h : Host.

Lemma get_property_own name (cmds : gmap string Command) c :
  cmds !! name = Some c -> get_property name cmds = Own c.
Proof. intros E. unfold get_property. by rewrite E. Qed.

Lemma has_property_own name (cmds : gmap string Command) c :
  cmds !! name = Some c -> has_property name cmds = true.
Proof. intros E. unfold has_property. by rewrite (get_property_own _ _ _ E). Qed.

Lemma volume_stderr m w : volume (stderr m w).2 = volume w.
Proof. reflexivity. Qed.

Lemma currentDirectory_stderr m w :
  currentDirectory (stderr m w).2 = currentDirectory w.
Proof. reflexivity. Qed.

Lemma emitted_stderr m w :
  emitted (stderr m w).2 = (emitted w ++ [("stderr", ("bash: " ++ m)%string)])%list.
Proof. reflexivity. Qed.

Lemma emitted_stdout m w :
  emitted (stdout m w).2 = (emitted w ++ [("stdout", ("bash: " ++ m)%string)])%list.
Proof. reflexivity. Qed.

(** The [catch] clause, written out. *)
Lemma caught_answer sh err w : failure_answer sh err w (caught sh err w).
Proof. by destruct err. Qed.

(** The engine up to the lookup: a line that is not blank and names a
    registered command runs the pre-hooks of that name first. *)
Lemma executeCommand_dispatch sh command cmd :
  isInvalidCommand command = false ->
  parsed_name h command <> "" ->
  commands sh !! parsed_name h command = Some cmd ->
  executeCommand h sh command =
    match PreHook.run (preHook sh) (parsed_name h command)
                      (parsed_args h command) (world sh) with
    | (Throw err, w1) => caught sh err w1
    | (Ok _, w1) =>
        match cmd (parsed_args h command) w1 with
        | (Throw err, _, w2) => caught sh err w2
        | (Ok output, args', w2) =>
            match PostHook.run (postHook sh) (parsed_name h command) args'
                               output w2 with
            | (Throw err, w3) => caught sh err w3
            | (Ok _, w3) =>
                match redirectionOperator (extractRedirection command),
                      targetFile (extractRedirection command) with
                | Some operator, Some target =>
                    ending sh (processRedirection h output operator target
                                 (parsed_name h command) w3)
                | _, _ => ending sh (output, w3)
                end
            end
        end
    end.
Proof.
  intros Hvalid Hname Hcmd.
  unfold executeCommand, parsed_name, parsed_args in *.
  rewrite Hvalid.
  apply String.eqb_neq in Hname. rewrite Hname.
  rewrite (has_property_own _ _ _ Hcmd). simpl negb. cbv iota.
  rewrite (get_property_own _ _ _ Hcmd).
  reflexivity.
Qed.

(** C1, as amended: a line that is not blank, carries no redirection, names a
    registered command and whose hooks and body succeed returns the output of
    the command as it is, and the state is the one the post-hooks left: the
    engine adds no prefix and publishes no event on this path. *)
Theorem executeCommand_plain_success sh command cmd output args' w1 w2 w3 :
  isInvalidCommand command = false ->
  redirected command = false ->
  parsed_name h command <> "" ->
  commands sh !! parsed_name h command = Some cmd ->
  PreHook.run (preHook sh) (parsed_name h command) (parsed_args h command)
              (world sh) = (Ok tt, w1) ->
  cmd (parsed_args h command) w1 = (Ok output, args', w2) ->
  PostHook.run (postHook sh) (parsed_name h command) args' output w2
    = (Ok tt, w3) ->
  executeCommand h sh command = (Ok output, set_world w3 sh).
Proof.
  intros Hvalid Hred Hname Hcmd Hpre Hbody Hpost.
  rewrite (executeCommand_dispatch sh command cmd Hvalid Hname Hcmd).
  rewrite Hpre, Hbody, Hpost.
  unfold redirected in Hred.
  destruct (redirectionOperator (extractRedirection command));
    destruct (targetFile (extractRedirection command));
    try discriminate; reflexivity.
Qed.

(** C6, on every thrown value: when the body of the command throws, the
    answer depends on what was thrown and on nothing else, whatever
    post-hooks are registered, so none of them runs.  A thrown object gives
    the one [stderr] message made from its message, returned and published
    once, in the state the body left.  On [null] and [undefined] the [catch]
    clause itself throws: the call is rejected with a [TypeError] and no
    message is returned or published.  A pre-hook or a post-hook that throws
    ends the call the same way. *)
Theorem thrown_value_decides_failure_answer sh command cmd :
  isInvalidCommand command = false ->
  parsed_name h command <> "" ->
  commands sh !! parsed_name h command = Some cmd ->
  (forall w1 err args' w2,
      PreHook.run (preHook sh) (parsed_name h command) (parsed_args h command)
                  (world sh) = (Ok tt, w1) ->
      cmd (parsed_args h command) w1 = (Throw err, args', w2) ->
      forall post,
        failure_answer (set_postHook post sh) err w2
          (executeCommand h (set_postHook post sh) command))
  /\ (forall err w1,
      PreHook.run (preHook sh) (parsed_name h command) (parsed_args h command)
                  (world sh) = (Throw err, w1) ->
      forall post,
        failure_answer (set_postHook post sh) err w1
          (executeCommand h (set_postHook post sh) command))
  /\ (forall w1 output args' w2 err w3,
      PreHook.run (preHook sh) (parsed_name h command) (parsed_args h command)
                  (world sh) = (Ok tt, w1) ->
      cmd (parsed_args h command) w1 = (Ok output, args', w2) ->
      PostHook.run (postHook sh) (parsed_name h command) args' output w2
        = (Throw err, w3) ->
      failure_answer sh err w3 (executeCommand h sh command)).
Proof.
  intros Hvalid Hname Hcmd. repeat split.
  - intros w1 err args' w2 Hpre Hbody post.
    rewrite (executeCommand_dispatch (set_postHook post sh) command cmd
               Hvalid Hname Hcmd).
    simpl preHook. simpl world. rewrite Hpre, Hbody. apply caught_answer.
  - intros err w1 Hpre post.
    rewrite (executeCommand_dispatch (set_postHook post sh) command cmd
               Hvalid Hname Hcmd).
    simpl preHook. simpl world. rewrite Hpre. apply caught_answer.
  - intros w1 output args' w2 err w3 Hpre Hbody Hpost.
    rewrite (executeCommand_dispatch sh command cmd Hvalid Hname Hcmd).
    rewrite Hpre, Hbody, Hpost. apply caught_answer.
Qed.

(** A name that is neither registered nor inherited is not found. *)
Lemma executeCommand_not_found sh command :
  isInvalidCommand command = false ->
  parsed_name h command <> "" ->
  commands sh !! parsed_name h command = None ->
  parsed_name h command ∉ Object_prototype_keys ->
  executeCommand h sh command
  = ending sh (stderr (ERR_CMD_NOT_FOUND (parsed_name h command)) (world sh)).
Proof.
  intros Hvalid Hname Hcmd Hproto.
  unfold executeCommand, parsed_name in *.
  rewrite Hvalid. apply String.eqb_neq in Hname. rewrite Hname.
  unfold has_property, get_property. rewrite Hcmd.
  rewrite bool_decide_eq_false_2 by exact Hproto. reflexivity.
Qed.

(** A name inherited from [Object.prototype] passes the [in] test, and the
    call of its missing [execute] method is what fails. *)
Lemma executeCommand_inherited sh command :
  isInvalidCommand command = false ->
  commands sh !! parsed_name h command = None ->
  parsed_name h command ∈ Object_prototype_keys ->
  preHook sh !! parsed_name h command = None ->
  executeCommand h sh command
  = ending sh (stderr "commandInstance.execute is not a function" (world sh)).
Proof.
  intros Hvalid Hcmd Hproto Hpre.
  assert (Hname : (parsed_name h command =? "")%string = false).
  { apply String.eqb_neq. intros E. rewrite E in Hproto.
    revert Hproto. unfold Object_prototype_keys.
    rewrite !elem_of_cons, elem_of_nil. intros H'. intuition discriminate. }
  unfold executeCommand, parsed_name, parsed_args in *.
  rewrite Hvalid, Hname.
  unfold has_property, get_property. rewrite Hcmd.
  rewrite bool_decide_eq_true_2 by exact Hproto. simpl negb. cbv iota.
  unfold PreHook.run, Hook.run. rewrite Hpre. reflexivity.
Qed.

End Dispatch.

(** ** Concrete runs of the dispatch pipeline *)

(** C1, the claim as stated fails: [echo hi] returns [hi] without the
    namespace prefix and the shell is left as it was, no event emitted. *)
Lemma plain_output_is_not_namespaced :
  let r := executeCommand plain_host (fresh_shell plain_host) "echo hi" in
  r.1 = Ok "hi"
  /\ JS.startsWith "hi" "bash: " = false
  /\ emitted (world r.2) = []
  /\ r.2 = fresh_shell plain_host.
Proof. repeat split; vm_compute; reflexivity. Qed.

Lemma executeCommand_plain_success_witness :
  executeCommand plain_host (fresh_shell plain_host) "echo hi"
  = (Ok "hi",
     set_world (world (fresh_shell plain_host)) (fresh_shell plain_host)).
Proof.
  apply (executeCommand_plain_success plain_host (fresh_shell plain_host)
           "echo hi" EchoCommand.execute "hi" ["hi"]
           (world (fresh_shell plain_host)) (world (fresh_shell plain_host))
           (world (fresh_shell plain_host))).
  - reflexivity.
  - reflexivity.
  - intros E. vm_compute in E. discriminate E.
  - reflexivity.
  - reflexivity.
  - reflexivity.
  - reflexivity.
Defined.

Lemma thrown_value_decides_failure_answer_witness :
  failure_answer failing_shell ThrownNull (world failing_shell)
    (executeCommand plain_host failing_shell "fail")
  /\ (executeCommand plain_host failing_shell "fail").1
     = Throw (Error "Cannot read properties of null (reading 'message')")
  /\ emitted (world (executeCommand plain_host failing_shell "fail").2) = [].
Proof.
  split; [|split; vm_compute; reflexivity].
  destruct (thrown_value_decides_failure_answer plain_host
              (mkShell (world failing_shell) (commands failing_shell) ∅ ∅)
              "fail" throws_null) as [Hbody _].
  - reflexivity.
  - intros E. vm_compute in E. discriminate E.
  - reflexivity.
  - exact (Hbody (world failing_shell) ThrownNull [] (world failing_shell)
                 eq_refl eq_refl (postHook failing_shell)).
Defined.

(** The same command throwing an object is answered with its message. *)
Lemma thrown_object_is_one_stderr_message :
  executeCommand plain_host hooked_shell "echo"
  = (Ok "bash: echo: command not provided",
     set_world (mkWorld "/" "guest" Memfs.empty
                        [("stderr", "bash: echo: command not provided")]
                        ["bash: echo: command not provided"] []) hooked_shell).
Proof. vm_compute. reflexivity. Qed.

(** With the body succeeding the same post-hook does run. *)
Lemma noisy_post_runs_after_success :
  emitted (world (executeCommand plain_host hooked_shell "echo hi").2)
  = [("post", "ran")].
Proof. vm_compute. reflexivity. Qed.

(** C10, the failing input: [toString] is not registered, yet the answer is
    the message of a [TypeError], not the command-not-found message. *)
Theorem inherited_name_is_not_reported_missing :
  (executeCommand plain_host (fresh_shell plain_host) "toString").1
  = Ok "bash: commandInstance.execute is not a function"
  /\ (executeCommand plain_host (fresh_shell plain_host) "toString").1
     <> Ok ("bash: " ++ ERR_CMD_NOT_FOUND "toString").
Proof. split; [vm_compute; reflexivity | vm_compute; discriminate]. Qed.

(** The uppercase spelling of a registered name is reported missing. *)
Lemma uppercase_echo_not_found :
  (executeCommand plain_host (fresh_shell plain_host) "ECHO hi").1
  = Ok "bash: ECHO: command not found".
Proof. vm_compute. reflexivity. Qed.

(** X1: in a registry of lowercase names, a name with an uppercase letter that
    [Object.prototype] does not define is not found. *)
Lemma uppercase_name_not_found h sh command :
  isInvalidCommand command = false ->
  (forall k, is_Some (commands sh !! k) -> JS.toLowerCase k = k) ->
  JS.toLowerCase (parsed_name h command) <> parsed_name h command ->
  parsed_name h command ∉ Object_prototype_keys ->
  executeCommand h sh command
  = ending sh (stderr (ERR_CMD_NOT_FOUND (parsed_name h command)) (world sh)).
Proof.
  intros Hvalid Hlower Hupper Hproto.
  apply executeCommand_not_found; try assumption.
  - intros E. rewrite E in Hupper. apply Hupper. reflexivity.
  - destruct (commands sh !! parsed_name h command) eqn:E; [|reflexivity].
    exfalso. apply Hupper. apply Hlower. rewrite E. eauto.
Qed.

(** Lowercasing a lowercased name changes nothing. *)
Lemma lower_char_idempotent c : JS.lower_char (JS.lower_char c) = JS.lower_char c.
Proof. destruct c as [[] [] [] [] [] [] [] []]; reflexivity. Qed.

Lemma toLowerCase_idempotent s :
  JS.toLowerCase (JS.toLowerCase s) = JS.toLowerCase s.
Proof.
  induction s as [|c s IH]; [reflexivity|].
  simpl. by rewrite lower_char_idempotent, IH.
Qed.

(** X2: [importCommandModules] registers lowercase names only. *)
Lemma importCommandModules_lowercase h import files :
  forall cmds : gmap string Command,
    (forall k, is_Some (cmds !! k) -> JS.toLowerCase k = k) ->
    forall k, is_Some ((importCommandModules h import files cmds).2 !! k) ->
              JS.toLowerCase k = k.
Proof.
  induction files as [|file files IH]; intros cmds Hcmds k; [apply Hcmds|].
  simpl. destruct (negb (JS.endsWith file ".js")); [by apply IH|].
  destruct (import _) as [module|err]; [|apply Hcmds].
  destruct (find typeof_function module) as [CommandClass|]; [|apply Hcmds].
  destruct (isValidCommand CommandClass); [|apply Hcmds].
  apply IH. intros k' [c Hk']. unfold registerCommand in Hk'.
  apply lookup_insert_Some in Hk' as [[<- _]|[_ Hk']].
  - apply toLowerCase_idempotent.
  - apply Hcmds. eauto.
Qed.

(** ** [cd] *)

(** [changeDirectory] moves only into a directory, and answers with a string
    in each case. *)
Lemma changeDirectory_cases h newPath w :
  let targetPath := resolve h w newPath in
  match Memfs.lstat (process_cwd h) targetPath (volume w) with
  | Ok Memfs.Dir =>
      changeDirectory h newPath w
      = (targetPath, set_currentDirectory targetPath w)
  | Ok (Memfs.File _) =>
      changeDirectory h newPath w = (ERR_NOT_A_DIRECTORY newPath, w)
  | Throw _ =>
      changeDirectory h newPath w = (ERR_NO_SUCH_DIRECTORY newPath, w)
  end.
Proof.
  intros targetPath. unfold changeDirectory. fold targetPath.
  destruct (Memfs.lstat (process_cwd h) targetPath (volume w)) as [[c|]|e];
    reflexivity.
Qed.

(** [cd] with an operand never throws: the message [changeDirectory] answers
    with is dropped. *)
Lemma CdCommand_never_throws h newPath rest w :
  exists w', CdCommand.execute h (newPath :: rest) w
             = (Ok "", newPath :: rest, w').
Proof.
  unfold CdCommand.execute.
  destruct (changeDirectory h newPath w) as [r w']. eauto.
Qed.

(** C3, the failing input: [cd /does/not/exist] on a fresh shell leaves the
    shell as it was and returns the empty string, not the message for a
    directory that does not exist. *)
Theorem cd_missing_directory_returns_empty_output :
  executeCommand plain_host (fresh_shell plain_host) "cd /does/not/exist"
  = (Ok "", fresh_shell plain_host)
  /\ changeDirectory plain_host "/does/not/exist"
                     (world (fresh_shell plain_host))
     = (ERR_NO_SUCH_DIRECTORY "/does/not/exist",
        world (fresh_shell plain_host)).
Proof. split; vm_compute; reflexivity. Qed.

(** ** Functions run in an isolate *)

(** [executeFunction] reads the [output] property of the object
    [setupIsolate] returned, which is the empty string, so its [stdout] is
    empty whatever the script logged. *)
Lemma executeFunction_stdout_empty func :
  BaseCommand.stdout (BaseCommand.executeFunction func).1 = "".
Proof.
  unfold BaseCommand.executeFunction.
  destruct (BaseCommand.run func _) as [[| |] i]; reflexivity.
Qed.

(** A thrown error, a timeout included, comes back as [stderr], and the
    isolate is disposed. *)
Lemma executeFunction_catches func msg i :
  BaseCommand.run func (BaseCommand.isolate BaseCommand.setupIsolate)
  = (BaseCommand.ThrewError msg, i) ->
  BaseCommand.stderr (BaseCommand.executeFunction func).1 = msg
  /\ BaseCommand.disposed (BaseCommand.executeFunction func).2 = true.
Proof.
  intros E. unfold BaseCommand.executeFunction. rewrite E.
  split; reflexivity.
Qed.

(** A script that calls [console.log] the way it would on the host never
    reaches the callback: the call throws, nothing is accumulated, and the
    message of the [TypeError] is the [stderr] of the result. *)
Lemma console_log_on_the_reference_throws rest completion :
  let func := BaseCommand.mkScript (BaseCommand.Method "log" :: rest)
                                   completion in
  (BaseCommand.executeFunction func).1
  = BaseCommand.mkExecutionResult "" "console.log is not a function"
  /\ BaseCommand.var_output (BaseCommand.executeFunction func).2 = "".
Proof. split; reflexivity. Qed.

(** C2, the failing input: a script that reaches the [log] callback through
    the reference, [console.getSync('log', { reference: true })
    .applySync(undefined, ['a'])], and then throws [new Error('boom')], gets
    its error back as [stderr] but not the line it logged: the variable the
    callback wrote holds it, the result does not. *)
Theorem executeFunction_loses_console_output :
  let func := BaseCommand.mkScript [BaseCommand.Log ["a"]]
                                   (BaseCommand.ThrewError "boom") in
  (BaseCommand.executeFunction func).1
  = BaseCommand.mkExecutionResult "" "boom"
  /\ JS.trim (BaseCommand.var_output (BaseCommand.executeFunction func).2)
     = "a".
Proof. split; vm_compute; reflexivity. Qed.

(** ** Construction *)

(** Without a snapshot to load and with a readable commands directory the
    constructor returns an instance, whatever the modules are: the outcome of
    the import is in the promise it dropped, and the registry of the
    instance is still empty. *)
Lemma constructor_returns h options files import :
  or_null (opt_serializedVolume options) = None ->
  exists c, constructor h options (Ok files) import = Ok c
            /\ commands (instance c) = ∅
            /\ importing c = importCommandModules h import files ∅.
Proof.
  intros E. unfold constructor. rewrite E. eexists. repeat split.
Qed.

(** X3: a snapshot given to the constructor is loaded while [this.volume] is
    still undefined, and the constructor throws. *)
Lemma constructor_with_snapshot_throws h options readdirSync import s :
  or_null (opt_serializedVolume options) = Some s ->
  exists err, constructor h options readdirSync import = Throw err.
Proof. intros E. unfold constructor. rewrite E. simpl. eauto. Qed.

(** C8, the failing input: a commands directory with one invalid module.
    The constructor returns an instance all the same; the invalid-class
    error is the rejection of the promise the constructor dropped. *)
Theorem constructor_survives_invalid_command_class :
  exists c,
    constructor plain_host (mkOptions None None None)
                (Ok ["bad-command.js"]) (fun _ => Ok bad_module) = Ok c
    /\ importing c
       = (Throw (Error (ERR_INVALID_COMMAND_CLASS "/commands/bad-command.js")),
          ∅).
Proof. eexists. split; vm_compute; reflexivity. Qed.

(** ** [rm] *)

Lemma shift_flags_accepts flags targets recursive :
  Forall (fun f => f = "-r" \/ f = "-R") flags ->
  match targets with
  | t :: _ => JS.startsWith t "-" = false
  | [] => True
  end ->
  exists r, RmCommand.shift_flags (flags ++ targets)%list recursive
            = (Ok r, targets).
Proof.
  intros Hflags Htargets. revert recursive.
  induction Hflags as [|f flags Hf _ IH]; intros recursive.
  - destruct targets as [|t ts]; [simpl; eauto|].
    cbn [app RmCommand.shift_flags]. rewrite Htargets. eauto.
  - destruct Hf as [-> | ->]; simpl; apply IH.
Qed.

(** C9: on arguments made of flags [-r] or [-R] followed by at least one
    target, [rm] returns the empty string, hands back the targets and leaves
    the state, the volume with it, as it was. *)
Theorem rm_execute_deletes_nothing h flags t targets w :
  Forall (fun f => f = "-r" \/ f = "-R") flags ->
  JS.startsWith t "-" = false ->
  RmCommand.execute h (flags ++ t :: targets)%list w
  = (Ok "", t :: targets, w).
Proof.
  intros Hflags Ht.
  destruct (shift_flags_accepts flags (t :: targets) false Hflags Ht)
    as [r Hr].
  unfold RmCommand.execute. rewrite Hr.
  destruct (flags ++ t :: targets)%list eqn:E.
  - destruct flags; discriminate E.
  - reflexivity.
Qed.

Lemma rm_execute_deletes_nothing_witness :
  RmCommand.execute plain_host ["-r"; "/tmp"] (world sample_shell)
  = (Ok "", ["/tmp"], world sample_shell).
Proof.
  apply (rm_execute_deletes_nothing plain_host ["-r"] "/tmp" []
           (world sample_shell)).
  - repeat constructor.
  - reflexivity.
Defined.

(** Whatever the arguments, [rm] leaves the state as it was. *)
Lemma rm_execute_frame h args w : (RmCommand.execute h args w).2 = w.
Proof.
  unfold RmCommand.execute. destruct args as [|a args]; [reflexivity|].
  destruct (RmCommand.shift_flags (a :: args) false) as [[r|e] [|x xs]];
    reflexivity.
Qed.

(** The closure that [rm] builds and never calls would have removed the
    directory and the file in it. *)
Lemma rmFunction_would_delete :
  RmCommand.rmFunction plain_host true ["/tmp"] sample_volume
  = (Ok tt, Memfs.empty).
Proof. vm_compute. reflexivity. Qed.

(** ** Redirection *)

Section Redirection.

Variable h : Host.

(** Opens [processRedirection] down to the lookups in the volume. *)
Ltac open_redirection :=
  unfold processRedirection, target_steps, Memfs.access, Memfs.lookup_at,
    Memfs.writeFile, Memfs.appendFile, Memfs.write_at in *.

(** The writability check fails on a target that is missing: the answer is
    the permission-denied message, in the state as it was. *)
Lemma processRedirection_denied output operator target commandName w :
  volume w !! target_steps h w target = None ->
  processRedirection h output operator target commandName w
  = stderr (ERR_PERMISSION_DENIED (resolve h w target)) w.
Proof.
  intros Hp. open_redirection. by rewrite Hp.
Qed.

(** [>] on a regular file replaces its content. *)
Lemma processRedirection_overwrites output target commandName w old :
  volume w !! target_steps h w target = Some (Memfs.File old) ->
  processRedirection h output ">" target commandName w
  = stdout "" (set_volume
                 (<[target_steps h w target := Memfs.File (output ++ newline)]>
                    (volume w)) w).
Proof.
  intros Hp. open_redirection. by rewrite Hp.
Qed.

(** [>>] on a regular file adds to its content. *)
Lemma processRedirection_appends output target commandName w old :
  volume w !! target_steps h w target = Some (Memfs.File old) ->
  processRedirection h output ">>" target commandName w
  = stdout "" (set_volume
                 (<[target_steps h w target
                    := Memfs.File (old ++ output ++ newline)]>
                    (volume w)) w).
Proof.
  intros Hp. open_redirection. by rewrite Hp.
Qed.

(** A directory passes the check, and the write fails on it. *)
Lemma processRedirection_on_directory output operator target commandName w :
  volume w !! target_steps h w target = Some Memfs.Dir ->
  operator = ">" \/ operator = ">>" ->
  processRedirection h output operator target commandName w
  = stderr (commandName ++ ": "
              ++ "EISDIR: illegal operation on a directory, open '"
              ++ resolve h w target ++ "'") w.
Proof.
  intros Hp Hop. open_redirection.
  rewrite Hp. by destruct Hop as [-> | ->].
Qed.

(** An operator other than the two is refused once the check has passed. *)
Lemma processRedirection_invalid_operator output operator target commandName
    w :
  is_Some (volume w !! target_steps h w target) ->
  String.eqb operator ">" = false -> String.eqb operator ">>" = false ->
  processRedirection h output operator target commandName w
  = stderr (ERR_INVALID_OPERATOR operator) w.
Proof.
  intros [n Hp] H1 H2. open_redirection. by rewrite Hp, H1, H2.
Qed.

(** C5, as amended: a target that is missing fails the writability check,
    the answer is the permission-denied message and nothing is written; on a
    target that exists, [>] overwrites a regular file and [>>] appends to it
    the output and a newline, and the answer is the empty success message;
    when the target is a directory the write fails after the check and the
    answer is the message of that failure under the name of the command;
    any other operator gives the invalid-operator message. *)
Theorem processRedirection_cases output operator target commandName w :
  let filePath := resolve h w target in
  let p := target_steps h w target in
  match volume w !! p with
  | None =>
      processRedirection h output operator target commandName w
      = stderr (ERR_PERMISSION_DENIED filePath) w
      /\ volume (processRedirection h output operator target commandName w).2
         = volume w
  | Some node =>
      if String.eqb operator ">" || String.eqb operator ">>" then
        match node with
        | Memfs.File old =>
            processRedirection h output operator target commandName w
            = stdout ""
                (set_volume
                   (<[p := Memfs.File
                             (if String.eqb operator ">"
                              then output ++ newline
                              else old ++ output ++ newline)]> (volume w)) w)
        | Memfs.Dir =>
            processRedirection h output operator target commandName w
            = stderr (commandName ++ ": "
                        ++ "EISDIR: illegal operation on a directory, open '"
                        ++ filePath ++ "'") w
        end
      else
        processRedirection h output operator target commandName w
        = stderr (ERR_INVALID_OPERATOR operator) w
  end.
Proof.
  intros filePath p. subst filePath p.
  destruct (volume w !! target_steps h w target) as [node|] eqn:Hp.
  - destruct (String.eqb_spec operator ">") as [->|H1].
    { destruct node as [old|]; simpl orb; cbv iota.
      - by eapply processRedirection_overwrites.
      - apply processRedirection_on_directory; auto. }
    destruct (String.eqb_spec operator ">>") as [->|H2].
    { destruct node as [old|]; simpl orb; cbv iota.
      - by eapply processRedirection_appends.
      - apply processRedirection_on_directory; auto. }
    simpl orb. cbv iota.
    apply processRedirection_invalid_operator; [eauto| |];
      by apply String.eqb_neq.
  - rewrite (processRedirection_denied _ _ _ _ _ Hp). split; reflexivity.
Qed.

Lemma resolve_tmp_out w : resolve h w "/tmp/out.txt" = "/tmp/out.txt".
Proof. vm_compute. reflexivity. Qed.

Lemma steps_tmp_out :
  Memfs.filenameToSteps (process_cwd h) "/tmp/out.txt" = ["tmp"; "out.txt"].
Proof. vm_compute. reflexivity. Qed.

Lemma target_steps_tmp_out w : target_steps h w "/tmp/out.txt" = ["tmp"; "out.txt"].
Proof. unfold target_steps. rewrite resolve_tmp_out. apply steps_tmp_out. Qed.

(** [cat] of one regular file returns its content. *)
Lemma CatCommand_reads_file w file content :
  volume w !! target_steps h w file = Some (Memfs.File content) ->
  CatCommand.execute h [file] w = (Ok content, [file], w).
Proof.
  intros Hp. unfold CatCommand.execute. simpl map.
  unfold CatCommand.read_all, Memfs.lstat, Memfs.readFile, Memfs.lookup_at.
  unfold target_steps in Hp. rewrite Hp. reflexivity.
Qed.

(** [cat] of one missing file throws the message for a missing directory. *)
Lemma CatCommand_missing_file w file :
  volume w !! target_steps h w file = None ->
  Memfs.missing (volume w) (target_steps h w file) = Memfs.ENOENT ->
  CatCommand.execute h [file] w
  = (Throw (Error (ERR_NO_SUCH_DIRECTORY (Path.basename (resolve h w file)))),
     [file], w).
Proof.
  intros Hp Hway. unfold CatCommand.execute. simpl map.
  unfold CatCommand.read_all, Memfs.lstat, Memfs.lookup_at.
  unfold target_steps in Hp, Hway. rewrite Hp, Hway. reflexivity.
Qed.

Lemma extract_echo_line :
  extractRedirection "echo hello world > /tmp/out.txt"
  = mkRedirection "echo hello world" (Some ">") (Some "/tmp/out.txt").
Proof. vm_compute. reflexivity. Qed.

Lemma extract_cat_line :
  extractRedirection "cat /tmp/out.txt"
  = mkRedirection "cat /tmp/out.txt" None None.
Proof. vm_compute. reflexivity. Qed.

Lemma builtins_echo : builtins h !! "echo" = Some EchoCommand.execute.
Proof. reflexivity. Qed.

Lemma builtins_cat : builtins h !! "cat" = Some (CatCommand.execute h).
Proof. reflexivity. Qed.

(** The first line of the scenario, on a shell with the built-in commands
    and no hooks: the output of [echo] goes through [processRedirection]. *)
Lemma echo_line_redirects w :
  shellQuote_parse h "echo hello world"
  = [PString "echo"; PString "hello"; PString "world"] ->
  executeCommand h (mkShell w (builtins h) ∅ ∅)
                 "echo hello world > /tmp/out.txt"
  = ending (mkShell w (builtins h) ∅ ∅)
      (processRedirection h "hello world" ">" "/tmp/out.txt" "echo" w).
Proof.
  intros Hparse.
  assert (Hname : parsed_name h "echo hello world > /tmp/out.txt" = "echo").
  { unfold parsed_name. rewrite extract_echo_line. simpl commandInput.
    rewrite Hparse. reflexivity. }
  assert (Hargs : parsed_args h "echo hello world > /tmp/out.txt"
                  = ["hello"; "world"]).
  { unfold parsed_args. rewrite extract_echo_line. simpl commandInput.
    rewrite Hparse. reflexivity. }
  rewrite (executeCommand_dispatch h _ _ EchoCommand.execute).
  - rewrite Hname, Hargs, extract_echo_line. reflexivity.
  - reflexivity.
  - rewrite Hname. discriminate.
  - rewrite Hname. apply builtins_echo.
Qed.

Lemma cat_line_runs w :
  shellQuote_parse h "cat /tmp/out.txt"
  = [PString "cat"; PString "/tmp/out.txt"] ->
  executeCommand h (mkShell w (builtins h) ∅ ∅) "cat /tmp/out.txt"
  = match CatCommand.execute h ["/tmp/out.txt"] w with
    | (Ok output, _, w') => ending (mkShell w (builtins h) ∅ ∅) (output, w')
    | (Throw err, _, w') => caught (mkShell w (builtins h) ∅ ∅) err w'
    end.
Proof.
  intros Hparse.
  assert (Hname : parsed_name h "cat /tmp/out.txt" = "cat").
  { unfold parsed_name. rewrite extract_cat_line. simpl commandInput.
    rewrite Hparse. reflexivity. }
  assert (Hargs : parsed_args h "cat /tmp/out.txt" = ["/tmp/out.txt"]).
  { unfold parsed_args. rewrite extract_cat_line. simpl commandInput.
    rewrite Hparse. reflexivity. }
  rewrite (executeCommand_dispatch h _ _ (CatCommand.execute h)).
  - rewrite Hname, Hargs, extract_cat_line.
    cbn [preHook postHook world redirectionOperator targetFile].
    unfold PreHook.run, PostHook.run, Hook.run. rewrite !lookup_empty.
    destruct (CatCommand.execute h ["/tmp/out.txt"] w) as [[[o|e] a] w'];
      reflexivity.
  - reflexivity.
  - rewrite Hname. discriminate.
  - rewrite Hname. apply builtins_cat.
Qed.

(** C4, as amended: with the built-in commands, no hooks, and a tokenizer
    that cuts the two lines at their blanks, [echo hello world > /tmp/out.txt]
    followed by [cat /tmp/out.txt] returns [hello world] and a newline when
    [/tmp/out.txt] is a regular file already; when it does not exist, as on
    a fresh volume, the first line answers with the permission-denied message
    and writes nothing. *)
Theorem echo_redirect_then_cat w :
  shellQuote_parse h "echo hello world"
  = [PString "echo"; PString "hello"; PString "world"] ->
  shellQuote_parse h "cat /tmp/out.txt"
  = [PString "cat"; PString "/tmp/out.txt"] ->
  let sh := mkShell w (builtins h) ∅ ∅ in
  let r1 := executeCommand h sh "echo hello world > /tmp/out.txt" in
  (forall old,
      volume w !! ["tmp"; "out.txt"] = Some (Memfs.File old) ->
      r1.1 = Ok "bash: "
      /\ (executeCommand h r1.2 "cat /tmp/out.txt").1
         = Ok ("hello world" ++ newline))
  /\ (volume w !! ["tmp"; "out.txt"] = None ->
      r1.1 = Ok "bash: /tmp/out.txt: permission denied"
      /\ volume (world r1.2) = volume w).
Proof.
  intros Hecho Hcat sh r1. subst sh r1.
  rewrite (echo_line_redirects w Hecho).
  split.
  - intros old Hold.
    rewrite (processRedirection_overwrites _ _ _ _ old)
      by (by rewrite target_steps_tmp_out).
    rewrite target_steps_tmp_out.
    split; [reflexivity|].
    unfold ending. simpl fst. simpl snd. unfold set_world. simpl.
    rewrite (cat_line_runs _ Hcat).
    rewrite (CatCommand_reads_file _ "/tmp/out.txt" ("hello world" ++ newline)).
    + reflexivity.
    + rewrite target_steps_tmp_out. simpl. apply lookup_insert_eq.
  - intros Hnone.
    rewrite processRedirection_denied by (by rewrite target_steps_tmp_out).
    rewrite resolve_tmp_out. split; reflexivity.
Qed.

End Redirection.

(** C5, the claim as stated fails: the root directory passes the writability
    check, yet [>] does not overwrite it and the answer is an error message,
    not the empty success message. *)
Lemma redirection_to_directory_fails_after_check :
  let w := world (fresh_shell plain_host) in
  Memfs.access (process_cwd plain_host) (resolve plain_host w "/") (volume w)
  = Ok tt
  /\ processRedirection plain_host "hi" ">" "/" "echo" w
     = stderr "echo: EISDIR: illegal operation on a directory, open '/'" w
  /\ processRedirection plain_host "hi" ">" "/" "echo" w
     <> stdout "" (set_volume
                     (<[ [] := Memfs.File ("hi" ++ newline) ]> (volume w)) w).
Proof.
  repeat split; try (vm_compute; reflexivity).
  vm_compute. discriminate.
Qed.

(** C4, the claim as stated fails: on a fresh shell the redirection is
    refused, and [cat] then reports the file missing. *)
Lemma fresh_volume_redirection_is_denied :
  let r1 := executeCommand plain_host (fresh_shell plain_host)
                           "echo hello world > /tmp/out.txt" in
  r1.1 = Ok "bash: /tmp/out.txt: permission denied"
  /\ volume (world r1.2) = Memfs.empty
  /\ (executeCommand plain_host r1.2 "cat /tmp/out.txt").1
     = Ok "bash: cd: out.txt: no such file or directory"
  /\ (executeCommand plain_host r1.2 "cat /tmp/out.txt").1
     <> Ok ("hello world" ++ newline).
Proof.
  repeat split; try (vm_compute; reflexivity).
  vm_compute. discriminate.
Qed.

Lemma echo_redirect_then_cat_witness :
  let r1 := executeCommand plain_host sample_shell
                           "echo hello world > /tmp/out.txt" in
  r1.1 = Ok "bash: "
  /\ (executeCommand plain_host r1.2 "cat /tmp/out.txt").1
     = Ok ("hello world" ++ newline).
Proof.
  destruct (echo_redirect_then_cat plain_host (world sample_shell)
              eq_refl eq_refl) as [Hfile _].
  exact (Hfile "old" eq_refl).
Defined.

(** * Snapshots *)

(** ** Strings *)

Lemma append_cons c (s t : string) : String c s ++ t = String c (s ++ t).
Proof. reflexivity. Qed.

Lemma append_nil_l (t : string) : "" ++ t = t.
Proof. reflexivity. Qed.

Lemma append_assoc (s t u : string) : (s ++ t) ++ u = s ++ (t ++ u).
Proof.
  induction s as [|c s IH]; [reflexivity|].
  rewrite !append_cons. by rewrite IH.
Qed.

Lemma append_nil_r (s : string) : s ++ "" = s.
Proof.
  induction s as [|c s IH]; [reflexivity|]. rewrite append_cons. by rewrite IH.
Qed.

(** ** JSON texts are read back *)

Lemma parse_chars_escape_char c tail :
  JSON.parse_chars (JSON.escape_char c ++ tail)
  = JSON.prepend c (JSON.parse_chars tail).
Proof.
  destruct c as [[] [] [] [] [] [] [] []]; reflexivity.
Qed.

Lemma parse_chars_escape s rest :
  JSON.parse_chars (JSON.escape s ++ String JSON.dquote rest) = Some (s, rest).
Proof.
  induction s as [|c s IH].
  - reflexivity.
  - simpl JSON.escape. rewrite append_assoc, parse_chars_escape_char, IH.
    reflexivity.
Qed.

Lemma parse_string_quote s rest :
  JSON.parse_string (JSON.quote s ++ rest) = Some (s, rest).
Proof.
  unfold JSON.quote. rewrite append_cons. unfold JSON.parse_string.
  change (Ascii.eqb JSON.dquote JSON.dquote) with true. cbv iota.
  rewrite append_assoc, append_cons, append_nil_l.
  apply parse_chars_escape.
Qed.

Lemma parse_value_stringify v rest :
  JSON.parse_value (JSON.stringify_value v ++ rest) = Some (v, rest).
Proof.
  destruct v as [s|].
  - unfold JSON.parse_value, JSON.stringify_value.
    rewrite parse_string_quote.
    unfold JSON.quote. rewrite append_cons. reflexivity.
  - reflexivity.
Qed.

Lemma length_append (s t : string) :
  String.length (s ++ t) = String.length s + String.length t.
Proof.
  induction s as [|c s IH]; [reflexivity|].
  rewrite append_cons. simpl. by rewrite IH.
Qed.

Lemma stringify_member_head m :
  exists rest, JSON.stringify_member m = String JSON.dquote rest.
Proof. unfold JSON.stringify_member, JSON.quote. rewrite append_cons. eauto. Qed.

Lemma join_members_head m o :
  exists rest,
    JS.join "," (map JSON.stringify_member (m :: o)) = String JSON.dquote rest.
Proof.
  destruct (stringify_member_head m) as [r Hr].
  destruct o as [|m' o]; cbn [JS.join map]; rewrite Hr, ?append_cons; eauto.
Qed.

Lemma join_members_length o :
  length o <= String.length (JS.join "," (map JSON.stringify_member o)).
Proof.
  induction o as [|m o IH]; [simpl; lia|].
  destruct (stringify_member_head m) as [r Hr].
  destruct o as [|m' o].
  - cbn [JS.join map]. rewrite Hr. simpl. lia.
  - change (JS.join "," (map JSON.stringify_member (m :: m' :: o)))
      with (JSON.stringify_member m ++ ","
              ++ JS.join "," (map JSON.stringify_member (m' :: o))).
    set (J := JS.join "," (map JSON.stringify_member (m' :: o))) in *.
    rewrite !length_append, Hr. simpl in *. lia.
Qed.

Lemma parse_members_join o : forall m acc fuel,
  length o < fuel ->
  JSON.parse_members fuel
    (JS.join "," (map JSON.stringify_member (m :: o)) ++ "}") acc
  = Some (fold_left define (m :: o) acc).
Proof.
  induction o as [|m' o IH]; intros [k v] acc fuel Hfuel;
    (destruct fuel as [|fuel]; [lia|]).
  - simpl JS.join. unfold JSON.stringify_member. simpl fst. simpl snd.
    rewrite !append_assoc. cbn [JSON.parse_members].
    rewrite parse_string_quote. rewrite append_cons, append_nil_l.
    change (Ascii.eqb ":" ":") with true. cbv iota.
    rewrite parse_value_stringify. reflexivity.
  - change (JS.join "," (map JSON.stringify_member ((k, v) :: m' :: o)))
      with (JSON.stringify_member (k, v) ++ ","
              ++ JS.join "," (map JSON.stringify_member (m' :: o))).
    unfold JSON.stringify_member at 1. simpl fst. simpl snd.
    rewrite !append_assoc. cbn [JSON.parse_members].
    rewrite parse_string_quote. rewrite append_cons, append_nil_l.
    change (Ascii.eqb ":" ":") with true. cbv iota.
    rewrite parse_value_stringify. rewrite append_cons, append_nil_l.
    change (Ascii.eqb "," ",") with true. cbv iota.
    rewrite IH by (simpl in Hfuel; lia). reflexivity.
Qed.

Lemma set_property_fresh k v (o : JSON.Object) :
  k ∉ o.*1 -> JSON.set_property k v o = (o ++ [(k, v)])%list.
Proof.
  induction o as [|[k' v'] o IH]; intros Hk; [reflexivity|].
  simpl in *. apply not_elem_of_cons in Hk as [Hne Hk].
  destruct (String.eqb_spec k' k) as [->|_]; [done|].
  by rewrite IH.
Qed.

Lemma fold_define_fresh (o : JSON.Object) : forall acc : JSON.Object,
  NoDup ((acc ++ o)%list).*1 -> fold_left define o acc = (acc ++ o)%list.
Proof.
  induction o as [|[k v] o IH]; intros acc Hnd.
  - by rewrite app_nil_r.
  - simpl. unfold define at 2. simpl.
    rewrite set_property_fresh.
    + rewrite IH; rewrite <- app_assoc; [done|exact Hnd].
    + rewrite fmap_app in Hnd. apply NoDup_app in Hnd as (_ & Hd & _).
      intros Hin. apply (Hd k Hin). simpl. left.
Qed.

(** [JSON.parse] reads back what [JSON.stringify] wrote when no key occurs
    twice. *)
Lemma parse_stringify (o : JSON.Object) :
  NoDup o.*1 -> JSON.parse (JSON.stringify o) = Some o.
Proof.
  intros Hnd. destruct o as [|m o]; [reflexivity|].
  unfold JSON.stringify. rewrite append_cons, append_nil_l.
  destruct (join_members_head m o) as [r Hr].
  unfold JSON.parse.
  assert (Hne : String.eqb
                  (String "{" (JS.join "," (map JSON.stringify_member (m :: o))
                                 ++ "}")) "{}" = false).
  { rewrite Hr. reflexivity. }
  rewrite Hne. change (Ascii.eqb "{" "{") with true. cbv iota.
  rewrite parse_members_join.
  - rewrite (fold_define_fresh (m :: o) []); [done|exact Hnd].
  - rewrite length_append.
    pose proof (join_members_length (m :: o)) as Hl. simpl in *. lia.
Qed.

(** ** Paths and their steps *)

Lemma split_nonempty sep s : JS.split sep s <> [].
Proof.
  destruct s as [|c s]; simpl; [done|].
  destruct (Ascii.eqb c sep); [done|]. by destruct (JS.split sep s).
Qed.

Lemma split_no_sep s : no_slash s = true -> JS.split Path.sep s = [s].
Proof.
  induction s as [|c s IH]; intros Hs; [reflexivity|].
  simpl in *. apply andb_true_iff in Hs as [Hc Hs].
  apply negb_true_iff in Hc. rewrite Hc, (IH Hs). reflexivity.
Qed.

Lemma split_app_sep a t :
  no_slash a = true ->
  JS.split Path.sep (a ++ String Path.sep t) = a :: JS.split Path.sep t.
Proof.
  induction a as [|c a IH]; intros Ha.
  - reflexivity.
  - simpl in Ha. apply andb_true_iff in Ha as [Hc Ha].
    apply negb_true_iff in Hc.
    rewrite append_cons. simpl. rewrite Hc, (IH Ha). reflexivity.
Qed.

Lemma split_elements_no_slash s :
  Forall (fun seg => no_slash seg = true) (JS.split Path.sep s).
Proof.
  induction s as [|c s IH]; simpl.
  - repeat constructor.
  - destruct (Ascii.eqb c Path.sep) eqn:Hc.
    + constructor; [reflexivity|exact IH].
    + destruct (JS.split Path.sep s) as [|w ws].
      * constructor; [|constructor].
        unfold no_slash. cbn [JS.all_chars]. by rewrite Hc.
      * inversion IH as [|? ? Hw Hws]; subst. constructor; [|exact Hws].
        unfold no_slash in *. cbn [JS.all_chars]. by rewrite Hc, Hw.
Qed.

Lemma split_join_slash x (q : list string) :
  Forall (fun seg => no_slash seg = true) (x :: q) ->
  JS.split Path.sep (JS.join "/" (x :: q) ++ "/") = (x :: q ++ [""])%list.
Proof.
  revert x. induction q as [|y q IH]; intros x Hall.
  - inversion Hall as [|? ? Hx _]; subst. cbn [JS.join].
    change "/" with (String Path.sep ""). by rewrite split_app_sep.
  - inversion Hall as [|? ? Hx Hq]; subst.
    change (JS.join "/" (x :: y :: q)) with (x ++ "/" ++ JS.join "/" (y :: q)).
    rewrite !append_assoc.
    change ("/" ++ JS.join "/" (y :: q) ++ "/")
      with (String Path.sep (JS.join "/" (y :: q) ++ "/")).
    rewrite split_app_sep by done. rewrite IH by done. reflexivity.
Qed.

Lemma fold_norm_step_valid (names : list string) : forall stack,
  Forall (fun seg => valid_name seg = true) names ->
  fold_left Path.norm_step names stack = (rev names ++ stack)%list.
Proof.
  induction names as [|n names IH]; intros stack Hall; [reflexivity|].
  inversion Hall as [|? ? Hn Hnames]; subst. simpl.
  unfold valid_name in Hn. rewrite !andb_true_iff, !negb_true_iff in Hn.
  destruct Hn as [[[H1 H2] H3] _].
  unfold Path.norm_step at 2. rewrite H1, H2, H3. simpl.
  rewrite IH by done. by rewrite <- app_assoc.
Qed.

Lemma valid_name_no_slash s : valid_name s = true -> no_slash s = true.
Proof. unfold valid_name. rewrite !andb_true_iff. tauto. Qed.

(** The steps of a printed path are the steps it was printed from. *)
Lemma steps_render cwd (p : list string) :
  Forall (fun seg => valid_name seg = true) p ->
  Memfs.filenameToSteps cwd (Path.render p) = p.
Proof.
  intros Hp. unfold Memfs.filenameToSteps, Path.steps. simpl rev.
  unfold Path.gather, Path.render.
  rewrite append_cons, append_nil_l. simpl String.eqb. cbv iota.
  simpl JS.startsWith. cbv iota.
  rewrite append_nil_r. rewrite append_cons.
  destruct p as [|x q]; [reflexivity|].
  change (String "/" (JS.join "/" (x :: q) ++ "/"))
    with ("" ++ String Path.sep (JS.join "/" (x :: q) ++ "/")).
  rewrite split_app_sep by reflexivity.
  rewrite split_join_slash
    by (eapply Forall_impl; [exact Hp|]; intros; by apply valid_name_no_slash).
  unfold Path.normalize.
  change (fold_left Path.norm_step ("" :: (x :: q ++ [""])%list) [])
    with (fold_left Path.norm_step ((x :: q) ++ [""])%list []).
  rewrite fold_left_app, (fold_norm_step_valid (x :: q)) by exact Hp.
  cbn [fold_left]. unfold Path.norm_step at 1. cbn [String.eqb orb].
  rewrite app_nil_r. apply rev_involutive.
Qed.

(** Normalization keeps valid names only. *)
Lemma fold_norm_step_keeps_valid (segs : list string) : forall stack,
  Forall (fun seg => no_slash seg = true) segs ->
  Forall (fun seg => valid_name seg = true) stack ->
  Forall (fun seg => valid_name seg = true) (fold_left Path.norm_step segs stack).
Proof.
  induction segs as [|s segs IH]; intros stack Hsegs Hstack; [exact Hstack|].
  inversion Hsegs as [|? ? Hs Hrest]; subst. simpl. apply IH; [exact Hrest|].
  unfold Path.norm_step.
  destruct (String.eqb s "") eqn:E1; [exact Hstack|].
  destruct (String.eqb s ".") eqn:E2; [exact Hstack|]. simpl.
  destruct (String.eqb s "..") eqn:E3.
  - destruct stack; [constructor|]. simpl. by inversion Hstack.
  - constructor; [|exact Hstack]. unfold valid_name. by rewrite E1, E2, E3, Hs.
Qed.

Lemma steps_valid cwd args :
  Forall (fun seg => valid_name seg = true) (Path.steps cwd args).
Proof.
  unfold Path.steps, Path.normalize.
  apply Forall_rev. apply fold_norm_step_keeps_valid; [|constructor].
  apply split_elements_no_slash.
Qed.

Lemma filenameToSteps_valid cwd filename :
  Forall (fun seg => valid_name seg = true) (Memfs.filenameToSteps cwd filename).
Proof. apply steps_valid. Qed.

(** ** What the filesystem throws *)

Lemma lookup_at_throws_object (func filename : string) (p : list string)
    (v : Memfs.Volume) (e : JSError) :
  Memfs.lookup_at func filename p v = Throw e -> is_object e.
Proof.
  unfold Memfs.lookup_at. destruct (v !! p); [done|]. by intros [= <-].
Qed.

Lemma write_at_throws_object (filename : string) (p : list string)
    (upd : string -> string) (v : Memfs.Volume) (e : JSError) :
  Memfs.write_at filename p upd v = Throw e -> is_object e.
Proof.
  unfold Memfs.write_at. destruct (v !! p) as [[c|]|]; [done| |].
  - by intros [= <-].
  - destruct p; [by intros [= <-]|].
    destruct (v !! removelast _) as [[c|]|]; [|done|]; by intros [= <-].
Qed.

Lemma mkdirp_go_throws_object (filename : string) (todo : list string) :
  forall (seen : list string) (v : Memfs.Volume) (e : JSError),
    Memfs.mkdirp_go filename seen todo v = Throw e -> is_object e.
Proof.
  induction todo as [|x todo IH]; intros seen v e; [done|].
  cbn [Memfs.mkdirp_go].
  destruct (v !! (seen ++ [x])%list) as [[c|]|]; [|apply IH|apply IH].
  destruct todo; [done|]. by intros [= <-].
Qed.

Lemma mkdir_at_throws_object (filename : string) (p : list string)
    (v : Memfs.Volume) (e : JSError) :
  Memfs.mkdir_at filename p v = Throw e -> is_object e.
Proof.
  unfold Memfs.mkdir_at. destruct p; [by intros [= <-]|].
  destruct (v !! removelast _) as [[c|]|]; [| |]; try (by intros [= <-]).
  destruct (v !! _); [by intros [= <-]|done].
Qed.

(** The filesystem throws objects only: the [catch] clauses around its
    calls read [message] and [code] of a value that has them. *)
Lemma filesystem_throws_objects (cwd : list string) (filename : string)
    (v : Memfs.Volume) (e : JSError) :
  (Memfs.lstat cwd filename v = Throw e -> is_object e)
  /\ (Memfs.access cwd filename v = Throw e -> is_object e)
  /\ (Memfs.readFile cwd filename v = Throw e -> is_object e)
  /\ (Memfs.utimes cwd filename v = Throw e -> is_object e)
  /\ (forall data, Memfs.writeFile cwd filename data v = Throw e ->
                   is_object e)
  /\ (forall data, Memfs.appendFile cwd filename data v = Throw e ->
                   is_object e)
  /\ (forall recursive, Memfs.mkdir cwd filename recursive v = Throw e ->
                        is_object e).
Proof.
  split_and!.
  - apply lookup_at_throws_object.
  - unfold Memfs.access.
    destruct (Memfs.lookup_at _ _ _ _) eqn:E; [done|]. intros [= <-].
    by apply lookup_at_throws_object in E.
  - unfold Memfs.readFile.
    destruct (Memfs.lookup_at _ _ _ _) as [[c|]|e'] eqn:E;
      [done|by intros [= <-]|]. intros [= <-].
    by apply lookup_at_throws_object in E.
  - unfold Memfs.utimes.
    destruct (Memfs.lookup_at _ _ _ _) eqn:E; [done|]. intros [= <-].
    by apply lookup_at_throws_object in E.
  - intros data. apply write_at_throws_object.
  - intros data. apply write_at_throws_object.
  - intros [|]; unfold Memfs.mkdir, Memfs.mkdirp_at.
    + apply mkdirp_go_throws_object.
    + apply mkdir_at_throws_object.
Qed.

(** ** Well-formed volumes *)

Lemma wf_empty : wf Memfs.empty.
Proof.
  unfold Memfs.empty. split; [|split].
  - apply lookup_singleton_eq.
  - intros p x [n Hn]. apply lookup_singleton_Some in Hn as [Hp _].
    by destruct p.
  - intros p [n Hn]. apply lookup_singleton_Some in Hn as [<- _]. constructor.
Qed.

Lemma removelast_snoc (p : list string) x : removelast (p ++ [x]) = p.
Proof. apply removelast_last. Qed.

Lemma snoc_removelast (p : list string) :
  p <> [] -> exists x, p = (removelast p ++ [x])%list.
Proof. intros Hp. exists (List.last p ""). by apply app_removelast_last. Qed.

Lemma snoc_neq_self (p : list string) x : (p ++ [x])%list <> p.
Proof.
  intros E. apply (f_equal length) in E. rewrite length_app in E. simpl in E. lia.
Qed.

(** Adding a node below a directory keeps the shape, as long as a file does
    not take the place of a directory. *)
Lemma wf_insert (v : Memfs.Volume) (p : list string) (n : Memfs.Node) :
  wf v -> p <> [] -> v !! removelast p = Some Memfs.Dir ->
  (n = Memfs.Dir \/ v !! p <> Some Memfs.Dir) ->
  valid_path p ->
  wf (<[p := n]> v).
Proof.
  intros (Hroot & Hpar & Hval) Hp Hparent Hn Hvalid. split; [|split].
  - by rewrite lookup_insert_ne.
  - intros q x Hq.
    destruct (decide (p = (q ++ [x])%list)) as [->|Hne].
    + rewrite removelast_snoc in Hparent.
      rewrite lookup_insert_ne by apply snoc_neq_self. exact Hparent.
    + rewrite lookup_insert_ne in Hq by done.
      specialize (Hpar q x Hq).
      destruct (decide (p = q)) as [->|Hne'].
      * rewrite lookup_insert_eq. destruct Hn as [->|Hn]; [done|]. by destruct Hn.
      * by rewrite lookup_insert_ne.
  - intros q Hq. destruct (decide (p = q)) as [->|Hne]; [done|].
    rewrite lookup_insert_ne in Hq by done. by apply Hval.
Qed.

Lemma write_at_wf (filename : string) (p : list string)
    (upd : string -> string) (v v' : Memfs.Volume) :
  wf v -> valid_path p ->
  Memfs.write_at filename p upd v = Ok v' -> wf v'.
Proof.
  intros Hwf Hvalid. unfold Memfs.write_at.
  destruct (v !! p) as [[c|]|] eqn:Hp.
  - intros [= <-].
    assert (Hne : p <> []).
    { intros ->. destruct Hwf as (Hroot & _). congruence. }
    destruct (snoc_removelast p Hne) as [x Hx].
    apply wf_insert; try done.
    + destruct Hwf as (_ & Hpar & _). apply (Hpar _ x). rewrite <- Hx. eauto.
    + right. congruence.
  - discriminate.
  - destruct p as [|s p']; [discriminate|].
    destruct (v !! removelast (s :: p')) as [[c|]|] eqn:Hq; try discriminate.
    intros [= <-]. apply wf_insert; try done. right. congruence.
Qed.

Lemma mkdirp_go_wf (filename : string) (todo : list string) :
  forall (seen : list string) (v v' : Memfs.Volume),
  wf v -> v !! seen = Some Memfs.Dir -> valid_path (seen ++ todo)%list ->
  Memfs.mkdirp_go filename seen todo v = Ok v' -> wf v'.
Proof.
  induction todo as [|x todo IH]; intros seen v v' Hwf Hseen Hvalid.
  - by intros [= <-].
  - simpl. assert (Hvalid' : valid_path (seen ++ [x])%list).
    { rewrite (assoc_L _ seen [x] todo : (seen ++ x :: todo = (seen ++ [x]) ++ todo)%list) in Hvalid.
      by apply Forall_app in Hvalid as [? _]. }
    destruct (v !! (seen ++ [x])%list) as [[c|]|] eqn:Hp.
    + destruct todo; [by intros [= <-]|discriminate].
    + apply IH; try done. by rewrite <- app_assoc.
    + apply IH.
      * apply wf_insert; try done.
        -- by destruct seen.
        -- by rewrite removelast_snoc.
        -- by left.
      * apply lookup_insert_eq.
      * by rewrite <- app_assoc.
Qed.

Lemma mkdir_at_wf (filename : string) (p : list string)
    (v v' : Memfs.Volume) :
  wf v -> valid_path p -> Memfs.mkdir_at filename p v = Ok v' -> wf v'.
Proof.
  intros Hwf Hvalid. unfold Memfs.mkdir_at.
  destruct p as [|s p']; [discriminate|].
  destruct (v !! removelast (s :: p')) as [[c|]|] eqn:Hq; try discriminate.
  destruct (v !! (s :: p')) eqn:Hp; [discriminate|].
  intros [= <-]. apply wf_insert; try done. by left.
Qed.

Lemma delete_file_wf (p : list string) (c : string) (v : Memfs.Volume) :
  wf v -> v !! p = Some (Memfs.File c) -> wf (delete p v).
Proof.
  intros (Hroot & Hpar & Hval) Hp. split; [|split].
  - rewrite lookup_delete_ne; [done|]. intros ->. congruence.
  - intros q x Hq.
    assert (Hq' : is_Some (v !! (q ++ [x])%list)).
    { destruct Hq as [n Hn]. apply lookup_delete_Some in Hn as [_ Hn]. eauto. }
    specialize (Hpar q x Hq').
    rewrite lookup_delete_ne; [done|]. intros ->. congruence.
  - intros q [n Hn]. apply lookup_delete_Some in Hn as [_ Hn]. apply Hval. eauto.
Qed.

Lemma delete_tree_wf (p : list string) (v : Memfs.Volume) :
  wf v -> p <> [] -> wf (Memfs.delete_tree p v).
Proof.
  intros (Hroot & Hpar & Hval) Hp. unfold Memfs.delete_tree. split; [|split].
  - apply map_lookup_filter_Some. split; [done|]. simpl.
    intros [k Hk]. by destruct p.
  - intros q x [n Hn]. apply map_lookup_filter_Some in Hn as [Hn Hpre].
    simpl in Hpre. apply map_lookup_filter_Some. split.
    + apply (Hpar q x). eauto.
    + simpl. intros Hpq. apply Hpre. by apply prefix_app_r.
  - intros q [n Hn]. apply map_lookup_filter_Some in Hn as [Hn _].
    apply Hval. eauto.
Qed.

Lemma mutate_wf (cwd : list string) (m : Memfs.Mutation)
    (v v' : Memfs.Volume) :
  wf v -> Memfs.mutate cwd m v = Ok v' -> wf v'.
Proof.
  intros Hwf. destruct m as [f d|f d|f r|s d|f|f]; simpl.
  - apply write_at_wf; [done|apply filenameToSteps_valid].
  - apply write_at_wf; [done|apply filenameToSteps_valid].
  - unfold Memfs.mkdir. destruct r.
    + apply mkdirp_go_wf; [done|by destruct Hwf|apply filenameToSteps_valid].
    + apply mkdir_at_wf; [done|apply filenameToSteps_valid].
  - unfold Memfs.copyFile. destruct (Memfs.readFile cwd s v); [|discriminate].
    apply write_at_wf; [done|apply filenameToSteps_valid].
  - unfold Memfs.unlink, Memfs.lookup_at.
    destruct (v !! Memfs.filenameToSteps cwd f) as [[c|]|] eqn:Hp;
      try discriminate.
    intros [= <-]. by eapply delete_file_wf.
  - unfold Memfs.rm_rf.
    destruct (Memfs.filenameToSteps cwd f) as [|x p] eqn:Hp.
    + by intros [= <-].
    + intros [= <-]. by apply delete_tree_wf.
Qed.

(** Every volume reached from the empty one is well formed. *)
Lemma apply_wf (cwd : list string) (ms : list Memfs.Mutation) :
  forall v : Memfs.Volume, wf v -> wf (Memfs.apply cwd ms v).
Proof.
  induction ms as [|m ms IH]; intros v Hwf; [done|].
  unfold Memfs.apply in *. simpl.
  destruct (Memfs.mutate cwd m v) as [v'|e] eqn:Hm.
  - apply IH. by eapply mutate_wf.
  - by apply IH.
Qed.

(** ** Loading a snapshot rebuilds the volume *)

Lemma wf_ancestor (v : Memfs.Volume) :
  wf v ->
  forall q p : list string,
    q <> [] -> is_Some (v !! (p ++ q)%list) -> v !! p = Some Memfs.Dir.
Proof.
  intros (_ & Hpar & _) q.
  induction q as [|x q IH] using rev_ind; intros p Hq Hsome; [done|].
  rewrite app_assoc in Hsome. specialize (Hpar _ _ Hsome).
  destruct q as [|y q].
  - by rewrite app_nil_r in Hpar.
  - apply IH; [done|]. rewrite Hpar. eauto.
Qed.

Lemma wf_take (v : Memfs.Volume) (p : list string) (k : nat) :
  wf v -> is_Some (v !! p) -> k < length p -> v !! take k p = Some Memfs.Dir.
Proof.
  intros Hwf Hp Hk. apply (wf_ancestor v Hwf (drop k p)).
  - intros E. apply (f_equal length) in E. rewrite length_drop in E.
    simpl in E. lia.
  - by rewrite take_drop.
Qed.

Section Rebuild.

Variable v : Memfs.Volume.
Hypothesis v_wf : wf v.

(** [mkdirp] towards a directory of [v], inside a part of [v]. *)
Lemma mkdirp_go_sub (filename : string) (todo : list string) :
  forall (seen : list string) (acc : Memfs.Volume),
    acc ⊆ v -> wf acc -> acc !! seen = Some Memfs.Dir ->
    (forall k, k <= length todo ->
               v !! (seen ++ take k todo)%list = Some Memfs.Dir) ->
    valid_path (seen ++ todo)%list ->
    exists acc',
      Memfs.mkdirp_go filename seen todo acc = Ok acc'
      /\ acc ⊆ acc' /\ acc' ⊆ v /\ wf acc'
      /\ acc' !! (seen ++ todo)%list = Some Memfs.Dir.
Proof.
  induction todo as [|x todo IH]; intros seen acc Hsub Hwf Hseen Hdirs Hvalid.
  - exists acc. rewrite app_nil_r. split; [done|]. split; [reflexivity|done].
  - simpl.
    assert (Hp : v !! (seen ++ [x])%list = Some Memfs.Dir).
    { apply (Hdirs 1). simpl. lia. }
    assert (Hvalid' : valid_path ((seen ++ [x]) ++ todo)%list)
      by (by rewrite <- app_assoc).
    assert (Hdirs' : forall k, k <= length todo ->
              v !! ((seen ++ [x]) ++ take k todo)%list = Some Memfs.Dir).
    { intros k Hk. rewrite <- app_assoc. apply (Hdirs (S k)). simpl. lia. }
    destruct (acc !! (seen ++ [x])%list) as [n|] eqn:Hacc.
    + assert (n = Memfs.Dir) as ->.
      { rewrite map_subseteq_spec in Hsub. apply Hsub in Hacc. congruence. }
      destruct (IH (seen ++ [x])%list acc Hsub Hwf Hacc Hdirs' Hvalid')
        as (acc' & He & H1 & H2 & H3 & H4).
      exists acc'. rewrite <- app_assoc in H4. by split_and!.
    + assert (Hsub' : <[(seen ++ [x])%list := Memfs.Dir]> acc ⊆ v).
      { rewrite map_subseteq_spec in *. intros i n Hi.
        apply lookup_insert_Some in Hi as [[<- <-]|[_ Hi]]; [done|by apply Hsub]. }
      assert (Hwf' : wf (<[(seen ++ [x])%list := Memfs.Dir]> acc)).
      { apply wf_insert; try done.
        - by destruct seen.
        - by rewrite removelast_snoc.
        - by left.
        - by apply Forall_app in Hvalid' as [? _]. }
      destruct (IH (seen ++ [x])%list _ Hsub' Hwf' (lookup_insert_eq _ _ _)
                   Hdirs' Hvalid')
        as (acc' & He & H1 & H2 & H3 & H4).
      exists acc'. rewrite <- app_assoc in H4. split_and!; try done.
      etrans; [|exact H1]. by apply insert_subseteq.
Qed.

Lemma entry_of_valid (e : string * option string) (p : list string) :
  entry_of v e p -> valid_path p.
Proof.
  destruct v_wf as (_ & _ & Hval). intros [q c Hq|q Hq]; apply Hval; eauto.
Qed.

Lemma entry_of_steps (cwd : list string) (e : string * option string)
    (p : list string) :
  entry_of v e p -> Memfs.filenameToSteps cwd e.1 = p.
Proof.
  intros He. pose proof (entry_of_valid e p He) as Hvalid.
  destruct He; simpl; by apply steps_render.
Qed.

Lemma fromJSON_entry_sub (cwd : list string) (e : string * option string)
    (p : list string) (acc : Memfs.Volume) :
  entry_of v e p -> acc ⊆ v -> wf acc ->
  exists acc',
    Memfs.fromJSON_entry cwd acc e = Ok acc'
    /\ acc ⊆ acc' /\ acc' ⊆ v /\ wf acc' /\ is_Some (acc' !! p).
Proof.
  intros He Hsub Hwf. unfold Memfs.fromJSON_entry.
  rewrite (entry_of_steps cwd e p He).
  pose proof (entry_of_valid e p He) as Hvalid.
  destruct He as [p c Hp|p Hp]; simpl snd; simpl fst.
  - assert (Hne : p <> []).
    { intros ->. destruct v_wf as (Hroot & _). congruence. }
    destruct (snoc_removelast p Hne) as [x Hx].
    destruct (mkdirp_go_sub (Path.render p) (removelast p) [] acc Hsub Hwf)
      as (acc1 & He1 & H1 & H2 & H3 & H4).
    + by destruct Hwf.
    + intros k Hk. simpl.
      apply (wf_ancestor v v_wf (drop k (removelast p) ++ [x])%list).
      * by destruct (drop k (removelast p)).
      * rewrite app_assoc, take_drop, <- Hx. eauto.
    + simpl. rewrite Hx in Hvalid. by apply Forall_app in Hvalid as [? _].
    + unfold Memfs.mkdirp_at. rewrite He1. simpl in H4.
      unfold Memfs.write_at.
      assert (Hsub1 : <[p := Memfs.File c]> acc1 ⊆ v).
      { rewrite map_subseteq_spec in *. intros i n Hi.
        apply lookup_insert_Some in Hi as [[<- <-]|[_ Hi]]; [done|by apply H2]. }
      destruct (acc1 !! p) as [n|] eqn:Hacc1.
      * assert (n = Memfs.File c) as ->.
        { rewrite map_subseteq_spec in H2. apply H2 in Hacc1. congruence. }
        exists (<[p := Memfs.File c]> acc1).
        rewrite insert_id by done. rewrite insert_id in Hsub1 by done.
        split_and!; eauto.
      * destruct p as [|s p']; [done|]. rewrite H4.
        exists (<[s :: p' := Memfs.File c]> acc1).
        split_and!; try done.
        -- etrans; [exact H1|]. by apply insert_subseteq.
        -- apply wf_insert; try done. right. congruence.
        -- rewrite lookup_insert_eq. eauto.
  - destruct (mkdirp_go_sub (Path.render p) p [] acc Hsub Hwf)
      as (acc1 & He1 & H1 & H2 & H3 & H4).
    + by destruct Hwf.
    + intros k Hk. simpl.
      destruct (decide (k = length p)) as [->|Hk'].
      * by rewrite firstn_all.
      * apply wf_take; [done|eauto|lia].
    + done.
    + unfold Memfs.mkdirp_at. exists acc1. simpl in H4.
      split_and!; eauto.
Qed.

Lemma fromJSON_go_sub (cwd : list string)
    (json : list (string * option string)) :
  forall acc : Memfs.Volume,
    Forall (fun e => exists p, entry_of v e p) json -> acc ⊆ v -> wf acc ->
    exists acc',
      Memfs.fromJSON_go cwd json acc = Ok acc'
      /\ acc ⊆ acc' /\ acc' ⊆ v /\ wf acc'
      /\ forall e p, e ∈ json -> entry_of v e p -> is_Some (acc' !! p).
Proof.
  induction json as [|e json IH]; intros acc Hall Hsub Hwf.
  - exists acc. split_and!; try done. intros e p He. by apply elem_of_nil in He.
  - inversion Hall as [|? ? [p He] Hrest]; subst. simpl.
    destruct (fromJSON_entry_sub cwd e p acc He Hsub Hwf)
      as (acc1 & He1 & H1 & H2 & H3 & H4).
    rewrite He1.
    destruct (IH acc1 Hrest H2 H3) as (acc' & He' & H1' & H2' & H3' & H4').
    exists acc'. split_and!; try done.
    + by etrans.
    + intros e' p' Hin He2. apply elem_of_cons in Hin as [->|Hin].
      * assert (p' = p) as ->.
        { rewrite <- (entry_of_steps cwd e p' He2).
          by rewrite (entry_of_steps cwd e p He). }
        destruct H4 as [n Hn]. exists n.
        rewrite map_subseteq_spec in H1'. by apply H1'.
      * by apply (H4' e').
Qed.

(** What is in a snapshot. *)
Lemma has_child_true (p : list string) :
  Memfs.has_child v p = true -> exists x, is_Some (v !! (p ++ [x])%list).
Proof.
  unfold Memfs.has_child. intros H. apply existsb_exists in H as ([k n] & Hin & Hc).
  apply list_elem_of_In, elem_of_map_to_list in Hin. simpl in Hc.
  unfold Memfs.is_child_of in Hc. destruct k as [|s k]; [discriminate|].
  apply bool_decide_eq_true in Hc.
  destruct (snoc_removelast (s :: k)) as [x Hx]; [done|].
  exists x. rewrite <- Hc, <- Hx. eauto.
Qed.

Lemma elem_of_toJSON (e : string * option string) :
  e ∈ Memfs.toJSON v ->
  exists p n, v !! p = Some n /\ e ∈ Memfs.toJSON_entry v (p, n).
Proof.
  unfold Memfs.toJSON. intros H. apply list_elem_of_In, in_flat_map in H.
  destruct H as ([p n] & Hin & He).
  apply list_elem_of_In, elem_of_map_to_list in Hin.
  exists p, n. split; [done|]. by apply list_elem_of_In.
Qed.

Lemma toJSON_entry_of (e : string * option string) :
  e ∈ Memfs.toJSON v -> exists p, entry_of v e p.
Proof.
  intros H. apply elem_of_toJSON in H as (p & n & Hp & He).
  unfold Memfs.toJSON_entry in He. simpl in He. destruct n as [c|].
  - apply list_elem_of_singleton in He as ->. exists p. by constructor.
  - destruct p as [|s p]; [by apply elem_of_nil in He|].
    destruct (Memfs.has_child v (s :: p)); [by apply elem_of_nil in He|].
    apply list_elem_of_singleton in He as ->. exists (s :: p). by constructor.
Qed.

Lemma toJSON_has (p : list string) (n : Memfs.Node) :
  v !! p = Some n ->
  match n with
  | Memfs.File c => (Path.render p, Some c) ∈ Memfs.toJSON v
  | Memfs.Dir =>
      p = [] \/ Memfs.has_child v p = true
      \/ (Path.render p, None) ∈ Memfs.toJSON v
  end.
Proof.
  intros Hp.
  assert (Hin : forall e, e ∈ Memfs.toJSON_entry v (p, n) ->
                          e ∈ Memfs.toJSON v).
  { intros e He. unfold Memfs.toJSON. apply list_elem_of_In, in_flat_map.
    exists (p, n). split; [|by apply list_elem_of_In].
    by apply list_elem_of_In, elem_of_map_to_list. }
  destruct n as [c|].
  - apply Hin. unfold Memfs.toJSON_entry. simpl. apply list_elem_of_singleton. done.
  - destruct p as [|s p]; [by left|]. right.
    destruct (Memfs.has_child v (s :: p)) eqn:Hc; [by left|]. right.
    apply Hin. unfold Memfs.toJSON_entry. simpl. rewrite Hc.
    by apply list_elem_of_singleton.
Qed.

Lemma keys_bounded (m : Memfs.Volume) :
  exists bound, forall p, is_Some (m !! p) -> length p <= bound.
Proof.
  induction m as [|i x m Hi _ [bound IH]] using map_first_key_ind.
  - exists 0. intros p [n Hn]. by rewrite lookup_empty in Hn.
  - exists (max bound (length i)). intros p [n Hn].
    apply lookup_insert_Some in Hn as [[<- _]|[_ Hn]]; [lia|].
    specialize (IH p (ex_intro _ n Hn)). lia.
Qed.

(** A part of [v] that is well formed and holds the key of every entry of
    the snapshot holds every path of [v]: each path leads down to a file or
    to an empty directory. *)
Lemma covers_all (acc : Memfs.Volume) :
  wf acc ->
  (forall e p, e ∈ Memfs.toJSON v -> entry_of v e p -> is_Some (acc !! p)) ->
  forall p, is_Some (v !! p) -> is_Some (acc !! p).
Proof.
  intros Hwf Hkeys. destruct (keys_bounded v) as [bound Hbound].
  assert (H : forall k p, bound - length p <= k -> is_Some (v !! p) ->
                          is_Some (acc !! p)).
  { induction k as [|k IH]; intros p Hk [n Hn];
      pose proof (Hbound p (ex_intro _ n Hn)) as Hlen;
      pose proof (toJSON_has p n Hn) as Hj; destruct n as [c|].
    - apply (Hkeys _ _ Hj). by constructor.
    - destruct Hj as [->|[Hc|Hj]].
      + destruct Hwf as (Hroot & _). rewrite Hroot. eauto.
      + apply has_child_true in Hc as [x Hx].
        specialize (Hbound _ Hx). rewrite length_app in Hbound. simpl in *. lia.
      + apply (Hkeys _ _ Hj). by constructor.
    - apply (Hkeys _ _ Hj). by constructor.
    - destruct Hj as [->|[Hc|Hj]].
      + destruct Hwf as (Hroot & _). rewrite Hroot. eauto.
      + apply has_child_true in Hc as [x Hx].
        pose proof (Hbound _ Hx) as Hb. rewrite length_app in Hb. simpl in Hb.
        assert (Hsome : is_Some (acc !! (p ++ [x])%list)).
        { apply IH; [rewrite length_app; simpl; lia|done]. }
        destruct Hwf as (_ & Hpar & _). rewrite (Hpar _ _ Hsome). eauto.
      + apply (Hkeys _ _ Hj). by constructor. }
  intros p Hp. by apply (H (bound - length p)).
Qed.

(** [Volume.fromJSON(vol.toJSON())] is the volume again. *)
Lemma fromJSON_toJSON (cwd : list string) : Memfs.fromJSON cwd (Memfs.toJSON v) = Ok v.
Proof.
  destruct (fromJSON_go_sub cwd (Memfs.toJSON v) Memfs.empty)
    as (acc & He & _ & Hsub & Hwf & Hkeys).
  - apply Forall_forall. intros e He. by apply toJSON_entry_of.
  - apply map_subseteq_spec. intros i n Hi. unfold Memfs.empty in Hi.
    apply lookup_singleton_Some in Hi as [<- <-]. by destruct v_wf.
  - apply wf_empty.
  - unfold Memfs.fromJSON. rewrite He. f_equal.
    apply map_eq. intros p.
    rewrite map_subseteq_spec in Hsub.
    destruct (acc !! p) as [n|] eqn:Hacc.
    + symmetry. by apply Hsub.
    + destruct (v !! p) as [n|] eqn:Hv; [|done].
      destruct (covers_all acc Hwf Hkeys p (ex_intro _ n Hv)) as [n' Hn'].
      congruence.
Qed.

(** No path is printed twice in a snapshot. *)
Lemma toJSON_keys (l : list (list string * Memfs.Node)) (k : string) :
  k ∈ (flat_map (Memfs.toJSON_entry v) l).*1 ->
  exists q, q ∈ l.*1 /\ k = Path.render q.
Proof.
  induction l as [|[p n] l IH]; simpl; [by intros ?%elem_of_nil|].
  rewrite fmap_app. intros [H|H]%elem_of_app.
  - exists p. split; [left|].
    unfold Memfs.toJSON_entry in H. simpl in H. destruct n as [c|].
    + simpl in H. by apply list_elem_of_singleton in H.
    + destruct p as [|s p]; [by apply elem_of_nil in H|].
      destruct (Memfs.has_child v (s :: p)); [by apply elem_of_nil in H|].
      simpl in H. by apply list_elem_of_singleton in H.
  - destruct (IH H) as (q & Hq & ->). exists q. split; [by right|done].
Qed.

Lemma toJSON_NoDup_go (l : list (list string * Memfs.Node)) :
  NoDup l.*1 -> Forall (fun e => valid_path e.1) l ->
  NoDup (flat_map (Memfs.toJSON_entry v) l).*1.
Proof.
  induction l as [|[p n] l IH]; intros Hnd Hvalid; [constructor|].
  simpl in *. apply NoDup_cons in Hnd as [Hp Hnd].
  inversion Hvalid as [|? ? Hpv Hlv]; subst. simpl in Hpv.
  rewrite fmap_app. apply NoDup_app. split; [|split].
  - unfold Memfs.toJSON_entry. simpl. destruct n as [c|].
    + apply NoDup_singleton.
    + destruct p as [|s p]; [constructor|].
      destruct (Memfs.has_child v (s :: p)); [constructor|apply NoDup_singleton].
  - intros k Hk Hk'. apply toJSON_keys in Hk' as (q & Hq & ->).
    assert (Hk2 : Path.render q ∈ (flat_map (Memfs.toJSON_entry v) [(p, n)]).*1).
    { simpl. by rewrite app_nil_r. }
    apply toJSON_keys in Hk2 as (q' & Hq' & Heq). simpl in Hq'.
    apply list_elem_of_singleton in Hq' as ->.
    assert (Hqv : valid_path q).
    { apply list_elem_of_fmap in Hq as ([q0 n0] & -> & Hin).
      rewrite Forall_forall in Hlv. by apply (Hlv _ Hin). }
    apply Hp. assert (q = p) as <-; [|done].
    rewrite <- (steps_render [] q Hqv), <- (steps_render [] p Hpv).
    by rewrite Heq.
  - by apply IH.
Qed.

Lemma toJSON_NoDup : NoDup (Memfs.toJSON v).*1.
Proof.
  apply toJSON_NoDup_go.
  - apply NoDup_fst_map_to_list.
  - apply Forall_forall. intros [p n] Hin. simpl.
    apply elem_of_map_to_list in Hin. destruct v_wf as (_ & _ & Hval).
    apply Hval. eauto.
Qed.

End Rebuild.

(** C7: a volume reached from the empty one by filesystem mutations and then
    serialized is the volume [deserializeVolume] installs, whatever volume
    the shell held before: every path has the node and the content it
    had. *)
Theorem serialize_deserialize_round_trip (h : Host)
    (ms : list Memfs.Mutation) (w w' : World) :
  volume w = Memfs.apply (process_cwd h) ms Memfs.empty ->
  deserializeVolume h (serializeVolume w) w'
  = (Ok (volume w), set_volume (volume w) w').
Proof.
  intros Hreach.
  assert (Hwf : wf (volume w)).
  { rewrite Hreach. apply apply_wf, wf_empty. }
  unfold deserializeVolume, deserializeVolume_on, serializeVolume.
  rewrite parse_stringify by (by apply toJSON_NoDup).
  rewrite fromJSON_toJSON by done. reflexivity.
Qed.

Lemma serialize_deserialize_round_trip_witness :
  deserializeVolume plain_host (serializeVolume (world sample_shell))
                    (world (fresh_shell plain_host))
  = (Ok sample_volume, world sample_shell).
Proof.
  apply (serialize_deserialize_round_trip plain_host
           [Memfs.MMkdir "/tmp" false; Memfs.MWriteFile "/tmp/out.txt" "old"]
           (world sample_shell) (world (fresh_shell plain_host))).
  reflexivity.
Defined.

(** * Further properties of the engine *)

(** ** Blank lines *)

Lemma trimStart_spaces s :
  JS.all_chars JS.is_space s = true -> JS.trimStart s = "".
Proof.
  induction s as [|c s IH]; [reflexivity|].
  cbn [JS.all_chars JS.trimStart]. intros [Hc Hs]%andb_true_iff.
  rewrite Hc. by apply IH.
Qed.

Lemma trimStart_not_spaces s :
  JS.all_chars JS.is_space s = false -> JS.trimStart s <> "".
Proof.
  induction s as [|c s IH]; [discriminate|].
  cbn [JS.all_chars JS.trimStart]. destruct (JS.is_space c); [exact IH|].
  discriminate.
Qed.

Lemma trimStart_keeps_non_spaces s :
  JS.all_chars JS.is_space s = false ->
  JS.all_chars JS.is_space (JS.trimStart s) = false.
Proof.
  induction s as [|c s IH]; [discriminate|].
  cbn [JS.all_chars JS.trimStart]. destruct (JS.is_space c) eqn:Hc.
  - exact IH.
  - intros _. cbn [JS.all_chars]. by rewrite Hc.
Qed.

Lemma trimEnd_not_spaces s :
  JS.all_chars JS.is_space s = false -> JS.trimEnd s <> "".
Proof.
  destruct s as [|c s]; [discriminate|]. intros H.
  cbn [JS.trimEnd]. by rewrite H.
Qed.

(** A line is invalid exactly when it holds white space only. *)
Lemma isInvalidCommand_spaces command :
  isInvalidCommand command = JS.all_chars JS.is_space command.
Proof.
  unfold isInvalidCommand, JS.trim.
  destruct (JS.all_chars JS.is_space command) eqn:H.
  - by rewrite (trimStart_spaces _ H).
  - apply String.eqb_neq, trimEnd_not_spaces.
    by apply trimStart_keeps_non_spaces.
Qed.

(** X4: a line of white space only, the empty line included, is answered
    with the no-command message, published as a [stderr] event, whatever the
    shell holds; nothing else changes. *)
Theorem blank_line_is_no_command h sh command :
  JS.all_chars JS.is_space command = true ->
  executeCommand h sh command
  = (Ok "bash: bash: command not provided",
     set_world (emit "stderr" "bash: bash: command not provided"
                  (console_debug "bash: bash: command not provided"
                     (world sh))) sh).
Proof.
  intros H. unfold executeCommand.
  rewrite isInvalidCommand_spaces, H. reflexivity.
Qed.

Lemma blank_line_is_no_command_witness :
  executeCommand plain_host sample_shell "  "
  = (Ok "bash: bash: command not provided",
     set_world (emit "stderr" "bash: bash: command not provided"
                  (console_debug "bash: bash: command not provided"
                     (world sample_shell))) sample_shell).
Proof. apply (blank_line_is_no_command plain_host sample_shell "  "). reflexivity. Defined.

(** ** Redirection syntax *)

Lemma all_chars_trimStart p s :
  JS.all_chars p s = true -> JS.all_chars p (JS.trimStart s) = true.
Proof.
  induction s as [|c s IH]; [done|].
  cbn [JS.all_chars JS.trimStart]. intros [Hc Hs]%andb_true_iff.
  destruct (JS.is_space c); [by apply IH|].
  cbn [JS.all_chars]. by rewrite Hc, Hs.
Qed.

Lemma redirection_suffix_no_gt s :
  no_gt s = true -> redirection_suffix s = false.
Proof.
  intros H. apply all_chars_trimStart in H. unfold redirection_suffix.
  destruct (JS.trimStart s) as [|c rest]; [reflexivity|].
  cbn [JS.all_chars] in H. apply andb_true_iff in H as [Hc _].
  apply negb_true_iff in Hc. by rewrite Hc.
Qed.

Lemma find_redirection_no_gt s : forall acc,
  no_gt s = true -> find_redirection acc s = None.
Proof.
  induction s as [|c s IH]; intros acc H.
  - reflexivity.
  - cbn [find_redirection]. rewrite (redirection_suffix_no_gt _ H).
    apply IH. unfold no_gt in *. cbn [JS.all_chars] in H.
    by apply andb_true_iff in H as [_ H].
Qed.

(** X5: a line without the character [>] carries no redirection: the whole
    line is the command input. *)
Theorem no_operator_no_redirection command :
  no_gt command = true ->
  extractRedirection command = mkRedirection command None None.
Proof.
  intros H. unfold extractRedirection.
  by rewrite (find_redirection_no_gt _ _ H).
Qed.

Lemma no_operator_no_redirection_witness :
  extractRedirection "cat /tmp/out.txt"
  = mkRedirection "cat /tmp/out.txt" None None.
Proof. apply (no_operator_no_redirection "cat /tmp/out.txt"). reflexivity. Defined.

Lemma rev_app_append (s1 s2 : string) :
  String.rev_app s1 s2 = String.rev_app s1 "" ++ s2.
Proof.
  revert s2. induction s1 as [|c s1 IH]; intros s2; [reflexivity|].
  cbn [String.rev_app]. rewrite (IH (String c s2)), (IH (String c "")).
  by rewrite append_assoc.
Qed.

Lemma rev_cons_append c (acc s : string) :
  String.rev (String c acc) ++ s = String.rev acc ++ String c s.
Proof.
  unfold String.rev. cbn [String.rev_app].
  rewrite (rev_app_append acc (String c "")). by rewrite append_assoc.
Qed.

Lemma redirection_suffix_skip c s :
  JS.is_space c = true ->
  redirection_suffix (String c s) = redirection_suffix s.
Proof. intros Hc. unfold redirection_suffix. cbn [JS.trimStart]. by rewrite Hc. Qed.

(** Before the operator nothing matches while something other than white
    space is still to come. *)
Lemma redirection_suffix_inside c tail :
  JS.all_chars JS.is_space c = false -> no_gt c = true ->
  redirection_suffix (c ++ tail) = false.
Proof.
  induction c as [|a c IH]; [discriminate|].
  unfold no_gt. cbn [JS.all_chars]. intros Hsp [Ha Hc]%andb_true_iff.
  rewrite append_cons. destruct (JS.is_space a) eqn:Hspa.
  - rewrite redirection_suffix_skip by done. by apply IH.
  - unfold redirection_suffix. cbn [JS.trimStart]. rewrite Hspa.
    apply negb_true_iff in Ha. by rewrite Ha.
Qed.

Lemma trimEnd_fixed_cons a c :
  JS.trimEnd (String a c) = String a c ->
  JS.all_chars JS.is_space (String a c) = false /\ JS.trimEnd c = c.
Proof.
  cbn [JS.trimEnd].
  destruct (JS.all_chars JS.is_space (String a c)); [discriminate|].
  by intros [= ->].
Qed.

Lemma find_redirection_here acc tail :
  redirection_suffix tail = true ->
  find_redirection acc tail = Some (String.rev acc, tail).
Proof.
  intros H. destruct tail as [|c tail]; [discriminate|].
  cbn [find_redirection]. by rewrite H.
Qed.

Lemma find_redirection_scan c : forall acc tail,
  JS.trimEnd c = c -> no_gt c = true -> one_line c = true ->
  redirection_suffix tail = true ->
  find_redirection acc (c ++ tail) = Some (String.rev acc ++ c, tail).
Proof.
  induction c as [|a c IH]; intros acc tail Hend Hgt Hline Htail.
  - rewrite append_nil_l, append_nil_r. by apply find_redirection_here.
  - destruct (trimEnd_fixed_cons _ _ Hend) as [Hsp Hend'].
    rewrite append_cons. cbn [find_redirection].
    rewrite <- append_cons, (redirection_suffix_inside _ _ Hsp Hgt).
    unfold no_gt, one_line in *. cbn [JS.all_chars] in Hgt, Hline.
    apply andb_true_iff in Hgt as [_ Hgt].
    apply andb_true_iff in Hline as [Ha Hline].
    apply negb_true_iff in Ha. rewrite Ha.
    rewrite (IH (String a acc) tail) by done.
    by rewrite rev_cons_append.
Qed.

Lemma trim_fixed c : JS.trim c = c -> JS.trimStart c = c /\ JS.trimEnd c = c.
Proof.
  assert (Hstart : forall s, String.length (JS.trimStart s) <= String.length s).
  { induction s as [|a s IH]; [done|]. cbn [JS.trimStart].
    destruct (JS.is_space a); simpl; lia. }
  assert (Hend : forall s, String.length (JS.trimEnd s) <= String.length s).
  { induction s as [|a s IH]; [done|]. cbn [JS.trimEnd].
    destruct (JS.all_chars _ _); simpl; lia. }
  unfold JS.trim. destruct c as [|a c]; [done|].
  cbn [JS.trimStart]. destruct (JS.is_space a).
  - intros E. apply (f_equal String.length) in E.
    pose proof (Hend (JS.trimStart c)). pose proof (Hstart c).
    simpl in E. lia.
  - intros E. by split.
Qed.

Lemma is_word_cons t :
  is_word t = true ->
  exists a t', t = String a t' /\ JS.is_space a = false
               /\ JS.all_chars (fun c => negb (JS.is_space c)) t' = true.
Proof.
  unfold is_word. destruct t as [|a t']; [discriminate|].
  cbn [JS.all_chars]. intros [_ [Ha Ht]%andb_true_iff]%andb_true_iff.
  apply negb_true_iff in Ha. eauto.
Qed.

Lemma is_target_word t : is_word t = true -> is_target t = true.
Proof.
  intros H. destruct (is_word_cons t H) as (a & t' & -> & Ha & Ht).
  unfold is_target. cbn [JS.trimStart]. rewrite Ha.
  cbn [JS.all_chars]. by rewrite Ha, Ht.
Qed.

Lemma is_target_skip c r :
  JS.is_space c = true -> is_target (String c r) = is_target r.
Proof. intros Hc. unfold is_target. cbn [JS.trimStart]. by rewrite Hc. Qed.

Lemma all_spaces_append_word s t :
  is_word t = true -> JS.all_chars JS.is_space (s ++ t) = false.
Proof.
  intros H. destruct (is_word_cons t H) as (a & t' & -> & Ha & Ht).
  induction s as [|b s IH].
  - rewrite append_nil_l. cbn [JS.all_chars]. by rewrite Ha.
  - rewrite append_cons. cbn [JS.all_chars]. rewrite IH. apply andb_false_r.
Qed.

Lemma trimEnd_no_spaces t :
  JS.all_chars (fun c => negb (JS.is_space c)) t = true -> JS.trimEnd t = t.
Proof.
  induction t as [|a t IH]; [done|].
  cbn [JS.all_chars JS.trimEnd]. intros [Ha Ht]%andb_true_iff.
  apply negb_true_iff in Ha. rewrite Ha. simpl. by rewrite IH.
Qed.

Lemma trimEnd_append_word s t :
  is_word t = true -> JS.trimEnd (s ++ t) = s ++ t.
Proof.
  intros H. induction s as [|b s IH].
  - rewrite append_nil_l. apply trimEnd_no_spaces.
    unfold is_word in H. by apply andb_true_iff in H as [_ H].
  - rewrite append_cons. cbn [JS.trimEnd]. rewrite <- append_cons.
    rewrite (all_spaces_append_word (String b s) t H).
    rewrite append_cons. by rewrite IH.
Qed.

Lemma runs_go_no_spaces t : forall cur,
  JS.all_chars (fun c => negb (JS.is_space c)) t = true ->
  JS.runs_go (Some cur) t = [String.rev cur ++ t].
Proof.
  induction t as [|a t IH]; intros cur.
  - intros _. cbn. by rewrite append_nil_r.
  - cbn [JS.all_chars JS.runs_go]. intros [Ha Ht]%andb_true_iff.
    apply negb_true_iff in Ha. rewrite Ha. cbn [from_option].
    rewrite IH by done. by rewrite rev_cons_append.
Qed.

Lemma runs_go_word t : is_word t = true -> JS.runs_go None t = [t].
Proof.
  intros H. destruct (is_word_cons t H) as (a & t' & -> & Ha & Ht).
  cbn [JS.runs_go]. rewrite Ha. cbn [from_option].
  rewrite runs_go_no_spaces by done. reflexivity.
Qed.

Lemma runs_go_until_space a : forall cur sp rest,
  JS.all_chars (fun c => negb (JS.is_space c)) a = true ->
  JS.is_space sp = true ->
  JS.runs_go (Some cur) (a ++ String sp rest)
  = (String.rev cur ++ a) :: JS.runs_go None rest.
Proof.
  induction a as [|x a IH]; intros cur sp rest Ha Hsp.
  - rewrite append_nil_l, append_nil_r. cbn [JS.runs_go]. by rewrite Hsp.
  - cbn [JS.all_chars] in Ha. apply andb_true_iff in Ha as [Hx Ha].
    apply negb_true_iff in Hx.
    rewrite append_cons. cbn [JS.runs_go]. rewrite Hx. cbn [from_option].
    rewrite IH by done. by rewrite rev_cons_append.
Qed.

(** Two words with one white space character between them. *)
Lemma split_spaces_two a sp t :
  is_word a = true -> JS.is_space sp = true -> is_word t = true ->
  JS.split_spaces (a ++ String sp t) = [a; t].
Proof.
  intros Ha Hsp Ht. destruct (is_word_cons a Ha) as (x & a' & -> & Hx & Ha').
  rewrite append_cons. cbn [JS.split_spaces JS.runs_go]. rewrite Hx.
  cbn [from_option]. rewrite runs_go_until_space by done.
  by rewrite (runs_go_word t Ht).
Qed.

Lemma or_null_word t : is_word t = true -> or_null (Some t) = Some t.
Proof.
  unfold is_word, or_null. intros [Ht _]%andb_true_iff.
  apply negb_true_iff in Ht. by rewrite Ht.
Qed.

Lemma redirection_suffix_gt r :
  redirection_suffix (String ">" r)
  = is_target r || match r with
                   | String c' r' => Ascii.eqb c' ">" && is_target r'
                   | EmptyString => false
                   end.
Proof. reflexivity. Qed.

Lemma redirection_suffix_write t :
  is_word t = true -> redirection_suffix (" > " ++ t) = true.
Proof.
  intros Ht. change (" > " ++ t) with (String " " (String ">" (String " " t))).
  rewrite redirection_suffix_skip by reflexivity.
  rewrite redirection_suffix_gt, is_target_skip by reflexivity.
  by rewrite (is_target_word t Ht).
Qed.

Lemma redirection_suffix_append t :
  is_word t = true -> redirection_suffix (" >> " ++ t) = true.
Proof.
  intros Ht.
  change (" >> " ++ t) with (String " " (String ">" (String ">" (String " " t)))).
  rewrite redirection_suffix_skip by reflexivity.
  rewrite redirection_suffix_gt. change (Ascii.eqb ">" ">") with true.
  rewrite (is_target_skip " " t) by reflexivity.
  rewrite (is_target_word t Ht). apply orb_true_r.
Qed.

Lemma redirection_suffix_glued t :
  is_word t = true -> redirection_suffix (" >" ++ t) = true.
Proof.
  intros Ht. change (" >" ++ t) with (String " " (String ">" t)).
  rewrite redirection_suffix_skip by reflexivity.
  by rewrite redirection_suffix_gt, (is_target_word t Ht).
Qed.

(** What [extractRedirection] makes of a trimmed command input followed by
    a suffix that matches. *)
Lemma extractRedirection_scan c tail :
  JS.trim c = c -> c <> "" -> no_gt c = true -> one_line c = true ->
  redirection_suffix tail = true ->
  extractRedirection (c ++ tail)
  = mkRedirection c
      (or_null (JS.split_spaces (JS.trim tail) !! 0%nat))
      (or_null (JS.split_spaces (JS.trim tail) !! 1%nat)).
Proof.
  intros Htrim Hne Hgt Hline Htail.
  destruct (trim_fixed c Htrim) as [_ Hend].
  unfold extractRedirection.
  rewrite (find_redirection_scan c "" tail Hend Hgt Hline Htail).
  change (String.rev "" ++ c) with c. rewrite Htrim.
  apply String.eqb_neq in Hne. by rewrite Hne.
Qed.

(** X6: a trimmed command input without [>] on one line, then a blank, [>]
    or [>>], a blank and a word, is split into that input, that operator and
    that word as the target. *)
Theorem extractRedirection_splits c operator t :
  JS.trim c = c -> c <> "" -> no_gt c = true -> one_line c = true ->
  operator = ">" \/ operator = ">>" ->
  is_word t = true ->
  extractRedirection (c ++ " " ++ operator ++ " " ++ t)
  = mkRedirection c (Some operator) (Some t).
Proof.
  intros Htrim Hne Hgt Hline Hop Ht.
  pose proof (is_target_word t Ht) as Htarget.
  rewrite extractRedirection_scan; try done.
  - assert (Htail : JS.trim (" " ++ operator ++ " " ++ t)
                    = operator ++ " " ++ t).
    { unfold JS.trim.
      destruct Hop as [-> | ->]; cbn [JS.trimStart String.append];
        simpl JS.is_space; cbv iota.
      - apply (trimEnd_append_word "> " t Ht).
      - apply (trimEnd_append_word ">> " t Ht). }
    rewrite Htail.
    assert (Hsplit : JS.split_spaces (operator ++ " " ++ t) = [operator; t]).
    { destruct Hop as [-> | ->]; by apply split_spaces_two. }
    rewrite Hsplit. cbn [lookup list_lookup].
    rewrite (or_null_word t Ht). by destruct Hop as [-> | ->].
  - destruct Hop as [-> | ->].
    + by apply redirection_suffix_write.
    + by apply redirection_suffix_append.
Qed.

Lemma extractRedirection_splits_witness :
  extractRedirection ("echo hello world" ++ " " ++ ">>" ++ " " ++ "/tmp/out.txt")
  = mkRedirection "echo hello world" (Some ">>") (Some "/tmp/out.txt").
Proof.
  apply (extractRedirection_splits "echo hello world" ">>" "/tmp/out.txt");
    try reflexivity; [discriminate|by right].
Defined.

(** X7: when the operator [>] is glued to the word that follows it, the two
    are cut off the command input as one word and no target is found: the
    line is not redirected. *)
Theorem glued_operator_is_not_redirection c t :
  JS.trim c = c -> c <> "" -> no_gt c = true -> one_line c = true ->
  is_word t = true ->
  extractRedirection (c ++ " >" ++ t) = mkRedirection c (Some (">" ++ t)) None
  /\ redirected (c ++ " >" ++ t) = false.
Proof.
  intros Htrim Hne Hgt Hline Ht.
  pose proof (is_target_word t Ht) as Htarget.
  assert (Hword : is_word (">" ++ t) = true).
  { unfold is_word in *. apply andb_true_iff in Ht as [_ Ht].
    rewrite append_cons, append_nil_l. cbn [JS.all_chars]. by rewrite Ht. }
  assert (E : extractRedirection (c ++ " >" ++ t)
              = mkRedirection c (Some (">" ++ t)) None).
  { rewrite extractRedirection_scan; try done.
    - assert (Htail : JS.trim (" >" ++ t) = ">" ++ t).
      { unfold JS.trim. cbn [JS.trimStart String.append].
        simpl JS.is_space. cbv iota. apply (trimEnd_append_word ">" t Ht). }
      rewrite Htail. unfold JS.split_spaces.
      rewrite (runs_go_word _ Hword).
      rewrite append_cons, append_nil_l. cbn [lookup list_lookup].
      change (String ">" t) with (">" ++ t).
      by rewrite (or_null_word _ Hword).
    - by apply redirection_suffix_glued. }
  split; [exact E|]. unfold redirected. by rewrite E.
Qed.

Lemma glued_operator_is_not_redirection_witness :
  extractRedirection ("echo a" ++ " >" ++ "f")
  = mkRedirection "echo a" (Some (">" ++ "f")) None
  /\ redirected ("echo a" ++ " >" ++ "f") = false.
Proof.
  apply (glued_operator_is_not_redirection "echo a" "f");
    try reflexivity; discriminate.
Defined.

(** ** Hook pipelines *)

Lemma run_all_app {F : Type} (call : F -> World -> Result unit * World)
    (l1 l2 : list F) (w : World) :
  Hook.run_all call (l1 ++ l2)%list w
  = match Hook.run_all call l1 w with
    | (Ok _, w') => Hook.run_all call l2 w'
    | (Throw e, w') => (Throw e, w')
    end.
Proof.
  revert w. induction l1 as [|f l1 IH]; intros w; [reflexivity|].
  simpl. destruct (call f w) as [[u|e] w']; [apply IH|reflexivity].
Qed.

(** Running after a registration: the hooks that were there run first, then
    the new one, unless one of them threw. *)
Lemma run_register {F : Type} (call : F -> World -> Result unit * World)
    (hooks : gmap string (list F)) (name name' : string) (f : F) (w : World) :
  Hook.run call (Hook.register name f hooks) name' w
  = if decide (name' = name) then
      match Hook.run call hooks name w with
      | (Ok _, w') =>
          match call f w' with
          | (Ok _, w'') => (Ok tt, w'')
          | (Throw e, w'') => (Throw e, w'')
          end
      | (Throw e, w') => (Throw e, w')
      end
    else Hook.run call hooks name' w.
Proof.
  unfold Hook.run, Hook.register. destruct (decide (name' = name)) as [->|Hne].
  - rewrite lookup_insert_eq, run_all_app.
    destruct (hooks !! name) as [l|]; simpl.
    + destruct (Hook.run_all call l w) as [[u|e] w']; [|reflexivity].
      by destruct (call f w') as [[u'|e'] w''].
    + by destruct (call f w) as [[u'|e'] w''].
  - by rewrite lookup_insert_ne.
Qed.

(** X8: pre-hooks run in the order of their registration: after
    [register(name, f)], a run for [name] is the run of the hooks registered
    before, followed by [f] on the same arguments if none of them threw, and
    a run for another name is as before. *)
Theorem PreHook_runs_in_registration_order hooks name name' f args w :
  PreHook.run (PreHook.register name f hooks) name' args w
  = if decide (name' = name) then
      match PreHook.run hooks name args w with
      | (Ok _, w') =>
          match f args w' with
          | (Ok _, w'') => (Ok tt, w'')
          | (Throw e, w'') => (Throw e, w'')
          end
      | (Throw e, w') => (Throw e, w')
      end
    else PreHook.run hooks name' args w.
Proof.
  unfold PreHook.run, PreHook.register.
  exact (run_register (fun hook : PreHookFn => hook args) hooks name name' f w).
Qed.

(** X9: post-hooks run in the order of their registration, each with the
    arguments and the output of the command; one that throws keeps the
    later ones from running. *)
Theorem PostHook_runs_in_registration_order hooks name name' f args output w :
  PostHook.run (PostHook.register name f hooks) name' args output w
  = if decide (name' = name) then
      match PostHook.run hooks name args output w with
      | (Ok _, w') =>
          match f args output w' with
          | (Ok _, w'') => (Ok tt, w'')
          | (Throw e, w'') => (Throw e, w'')
          end
      | (Throw e, w') => (Throw e, w')
      end
    else PostHook.run hooks name' args output w.
Proof.
  unfold PostHook.run, PostHook.register.
  exact (run_register (fun hook : PostHookFn => hook args output) hooks name
           name' f w).
Qed.

(** ** Missing paths *)

Lemma no_file_aboveb_true (v : Memfs.Volume) (p : list string) :
  no_file_aboveb v p = true -> no_file_above v p.
Proof.
  unfold no_file_aboveb. rewrite forallb_forall. intros H k c Hk.
  assert (Hk' : exists k', k' <= length p /\ take k' p = take k p).
  { destruct (le_lt_dec k (length p)) as [Hle|Hgt]; [by exists k|].
    exists (length p). split; [done|].
    rewrite firstn_all. symmetry. apply firstn_all2. lia. }
  destruct Hk' as (k' & Hle & Hk').
  assert (Hin : In k' (seq 0 (S (length p)))) by (apply in_seq; lia).
  specialize (H k' Hin). rewrite Hk', Hk in H. discriminate H.
Qed.

Lemma stopped_at_prefix (v : Memfs.Volume) (l : list string) (n : Memfs.Node) :
  Memfs.stopped_at v l = Some n -> exists k, v !! take k (rev l) = Some n.
Proof.
  induction l as [|a l IH]; [done|].
  cbn [Memfs.stopped_at rev]. destruct (v !! rev l) as [n'|] eqn:E.
  - intros [= <-]. exists (length (rev l)).
    by rewrite firstn_app, firstn_all, Nat.sub_diag, app_nil_r.
  - intros H. destruct (IH H) as [k Hk].
    destruct (le_lt_dec k (length (rev l))) as [Hle|Hgt].
    + exists k. rewrite firstn_app.
      replace (k - length (rev l)) with 0 by lia. by rewrite app_nil_r.
    + rewrite firstn_all2 in Hk by lia. congruence.
Qed.

(** Where no regular file stands on the way, what is missing is reported
    with [ENOENT]. *)
Lemma missing_ENOENT (v : Memfs.Volume) (p : list string) :
  no_file_above v p -> Memfs.missing v p = Memfs.ENOENT.
Proof.
  intros Hway. unfold Memfs.missing.
  destruct (Memfs.stopped_at v (rev p)) as [[c|]|] eqn:E; try reflexivity.
  apply stopped_at_prefix in E as [k Hk]. rewrite rev_involutive in Hk.
  by destruct (Hway k c).
Qed.

(** So it is below a directory. *)
Lemma missing_in_directory (v : Memfs.Volume) (p : list string) :
  v !! removelast p = Some Memfs.Dir -> Memfs.missing v p = Memfs.ENOENT.
Proof.
  intros Hparent. unfold Memfs.missing.
  destruct (decide (p = [])) as [->|Hne]; [reflexivity|].
  destruct (snoc_removelast p Hne) as [x Hx]. rewrite Hx.
  rewrite rev_app_distr. simpl. by rewrite rev_involutive, Hparent.
Qed.

(** Below a regular file, what is missing is reported with [ENOTDIR]. *)
Lemma missing_below_file (v : Memfs.Volume) (p : list string) (x c : string) :
  v !! p = Some (Memfs.File c) ->
  Memfs.missing v (p ++ [x]) = Memfs.ENOTDIR.
Proof.
  intros Hp. unfold Memfs.missing. rewrite rev_app_distr. simpl.
  by rewrite rev_involutive, Hp.
Qed.

(** ** [cat] *)

Section Cat.

Variable h : Host.

Lemma read_all_regular w (files contents : list string) : forall output,
  Forall2 (fun f c => volume w !! target_steps h w f = Some (Memfs.File c))
          files contents ->
  forall rest,
    CatCommand.read_all h (map (resolve h w) files ++ rest)%list output
                        (volume w)
    = CatCommand.read_all h rest (output ++ concat_all contents) (volume w).
Proof.
  intros output Hall. revert output.
  induction Hall as [|f c files contents Hf _ IH]; intros output rest.
  - simpl. by rewrite append_nil_r.
  - simpl. unfold Memfs.lstat, Memfs.readFile, Memfs.lookup_at.
    unfold target_steps in Hf. rewrite Hf.
    rewrite IH. by rewrite append_assoc.
Qed.

(** X10: [cat] of regular files returns their contents one after the other,
    in the order of the arguments, and leaves the state as it is. *)
Theorem cat_concatenates w f files c contents :
  Forall2 (fun f c => volume w !! target_steps h w f = Some (Memfs.File c))
          (f :: files) (c :: contents) ->
  CatCommand.execute h (f :: files) w
  = (Ok (concat_all (c :: contents)), f :: files, w).
Proof.
  intros Hall. unfold CatCommand.execute.
  pose proof (read_all_regular w _ _ "" Hall []) as H.
  rewrite app_nil_r in H. rewrite H. reflexivity.
Qed.

(** X11: [cat] stops at the first argument that does not exist, when no
    regular file stands on the way to it: it throws the no-such-file message
    with the base name of that argument, whatever comes after it, and
    nothing of what was read is returned. *)
Theorem cat_stops_at_missing w files contents f post :
  Forall2 (fun f c => volume w !! target_steps h w f = Some (Memfs.File c))
          files contents ->
  volume w !! target_steps h w f = None ->
  no_file_above (volume w) (target_steps h w f) ->
  CatCommand.execute h (files ++ f :: post)%list w
  = (Throw (Error (ERR_NO_SUCH_DIRECTORY (Path.basename (resolve h w f)))),
     (files ++ f :: post)%list, w).
Proof.
  intros Hall Hf Hway. unfold CatCommand.execute.
  destruct (files ++ f :: post)%list eqn:E; [by destruct files|].
  rewrite <- E. rewrite map_app.
  rewrite (read_all_regular w _ _ "" Hall). simpl.
  unfold Memfs.lstat, Memfs.lookup_at.
  apply missing_ENOENT in Hway. unfold target_steps in Hf, Hway.
  rewrite Hf, Hway. reflexivity.
Qed.

(** Below a regular file the failure is another one: the filesystem answers
    [ENOTDIR], and [cat] gives that message under its own name. *)
Lemma cat_below_a_file w f (p : list string) (x c : string) :
  target_steps h w f = (p ++ [x])%list ->
  volume w !! p = Some (Memfs.File c) ->
  volume w !! (p ++ [x])%list = None ->
  CatCommand.execute h [f] w
  = (Throw (Error ("cat: " ++ Path.basename (resolve h w f)
                     ++ ": ENOTDIR: not a directory, lstat '"
                     ++ resolve h w f ++ "'")),
     [f], w).
Proof.
  intros Hsteps Hp Hnone. unfold CatCommand.execute. simpl.
  unfold Memfs.lstat, Memfs.lookup_at. unfold target_steps in Hsteps.
  rewrite Hsteps, Hnone, (missing_below_file _ _ _ _ Hp). reflexivity.
Qed.

End Cat.

Lemma cat_concatenates_witness :
  CatCommand.execute plain_host ["/tmp/out.txt"; "/tmp/out.txt"]
                     (world sample_shell)
  = (Ok (concat_all ["old"; "old"]), ["/tmp/out.txt"; "/tmp/out.txt"],
     world sample_shell).
Proof.
  apply (cat_concatenates plain_host (world sample_shell) "/tmp/out.txt"
           ["/tmp/out.txt"] "old" ["old"]).
  repeat constructor.
Defined.

Lemma cat_stops_at_missing_witness :
  CatCommand.execute plain_host (["/tmp/out.txt"] ++ "/tmp/nope" :: ["/tmp/out.txt"])%list
                     (world sample_shell)
  = (Throw (Error (ERR_NO_SUCH_DIRECTORY
                     (Path.basename (resolve plain_host (world sample_shell)
                                             "/tmp/nope")))),
     (["/tmp/out.txt"] ++ "/tmp/nope" :: ["/tmp/out.txt"])%list,
     world sample_shell).
Proof.
  apply (cat_stops_at_missing plain_host (world sample_shell) ["/tmp/out.txt"]
           ["old"] "/tmp/nope" ["/tmp/out.txt"]).
  - repeat constructor.
  - reflexivity.
  - by apply no_file_aboveb_true.
Defined.

Example cat_below_sample_file :
  CatCommand.execute plain_host ["/tmp/out.txt/x"] (world sample_shell)
  = (Throw (Error
              "cat: x: ENOTDIR: not a directory, lstat '/tmp/out.txt/x'"),
     ["/tmp/out.txt/x"], world sample_shell).
Proof. vm_compute. reflexivity. Qed.

(** ** [rm], rejected arguments *)

Lemma shift_flags_rejects flags bad rest : forall recursive,
  Forall (fun f => f = "-r" \/ f = "-R") flags ->
  JS.startsWith bad "-" = true ->
  RmCommand.is_recursive_flag bad = false ->
  RmCommand.shift_flags (flags ++ bad :: rest)%list recursive
  = (Throw (Error (ERR_INVALID_OPERATOR bad)), rest).
Proof.
  intros recursive Hflags Hdash Hbad. revert recursive.
  induction Hflags as [|f flags Hf _ IH]; intros recursive.
  - cbn [app RmCommand.shift_flags]. by rewrite Hdash, Hbad.
  - destruct Hf as [-> | ->]; simpl; apply IH.
Qed.

(** X12: an argument of [rm] that starts with a dash, comes before the first
    target and is neither [-r] nor [-R] (a combined flag such as [-rf]
    included) makes it throw the invalid-operator message for that
    argument; the state is as it was. *)
Theorem rm_rejects_other_flags h flags bad rest w :
  Forall (fun f => f = "-r" \/ f = "-R") flags ->
  JS.startsWith bad "-" = true ->
  RmCommand.is_recursive_flag bad = false ->
  RmCommand.execute h (flags ++ bad :: rest)%list w
  = (Throw (Error (ERR_INVALID_OPERATOR bad)), rest, w).
Proof.
  intros Hflags Hdash Hbad. unfold RmCommand.execute.
  rewrite (shift_flags_rejects flags bad rest false Hflags Hdash Hbad).
  by destruct (flags ++ bad :: rest)%list eqn:E; [destruct flags|].
Qed.

Lemma rm_rejects_other_flags_witness :
  RmCommand.execute plain_host (["-r"] ++ "-rf" :: ["/tmp"])%list
                    (world sample_shell)
  = (Throw (Error (ERR_INVALID_OPERATOR "-rf")), ["/tmp"], world sample_shell).
Proof.
  apply (rm_rejects_other_flags plain_host ["-r"] "-rf" ["/tmp"]
           (world sample_shell)).
  - repeat constructor.
  - reflexivity.
  - reflexivity.
Defined.

Lemma shift_flags_only flags : forall recursive,
  Forall (fun f => f = "-r" \/ f = "-R") flags ->
  exists r, RmCommand.shift_flags flags recursive = (Ok r, []).
Proof.
  intros recursive Hflags. revert recursive.
  induction Hflags as [|f flags Hf _ IH]; intros recursive.
  - simpl. eauto.
  - destruct Hf as [-> | ->]; simpl; apply IH.
Qed.

(** X13: [rm] with flags and no target throws the missing-operand message,
    the one worded for [cd]. *)
Theorem rm_without_target h f flags w :
  Forall (fun f => f = "-r" \/ f = "-R") (f :: flags) ->
  RmCommand.execute h (f :: flags) w
  = (Throw (Error "cd: missing operand"), [], w).
Proof.
  intros Hflags. unfold RmCommand.execute.
  destruct (shift_flags_only (f :: flags) false Hflags) as [r Hr].
  by rewrite Hr.
Qed.

Lemma rm_without_target_witness :
  RmCommand.execute plain_host ["-r"; "-R"] (world sample_shell)
  = (Throw (Error "cd: missing operand"), [], world sample_shell).
Proof.
  apply (rm_without_target plain_host "-r" ["-R"] (world sample_shell)).
  constructor; [by left|]. constructor; [by right|]. constructor.
Defined.

(** ** Redirections one after the other *)

Lemma target_steps_stdout h m w target :
  target_steps h (stdout m w).2 target = target_steps h w target.
Proof. reflexivity. Qed.

(** X14: on a target that is a regular file, [>] with one output followed by
    [>>] with another leaves the file with the first output, a newline, the
    second output and a newline, whatever it held before. *)
Theorem overwrite_then_append h output1 output2 target name1 name2 w old :
  volume w !! target_steps h w target = Some (Memfs.File old) ->
  let w1 := (processRedirection h output1 ">" target name1 w).2 in
  let w2 := (processRedirection h output2 ">>" target name2 w1).2 in
  Memfs.readFile (process_cwd h) (resolve h w target) (volume w2)
  = Ok (output1 ++ newline ++ output2 ++ newline).
Proof.
  intros Hold w1 w2. subst w1 w2.
  rewrite (processRedirection_overwrites h _ _ _ _ old Hold).
  rewrite (processRedirection_appends h _ _ _ _ (output1 ++ newline)).
  - unfold Memfs.readFile, Memfs.lookup_at. simpl volume.
    unfold target_steps. simpl. rewrite !lookup_insert_eq.
    by rewrite append_assoc.
  - rewrite target_steps_stdout. simpl. unfold target_steps. simpl.
    apply lookup_insert_eq.
Qed.

Lemma overwrite_then_append_witness :
  let w1 := (processRedirection plain_host "one" ">" "/tmp/out.txt" "echo"
                                (world sample_shell)).2 in
  let w2 := (processRedirection plain_host "two" ">>" "/tmp/out.txt" "echo"
                                w1).2 in
  Memfs.readFile (process_cwd plain_host)
                 (resolve plain_host (world sample_shell) "/tmp/out.txt")
                 (volume w2)
  = Ok ("one" ++ newline ++ "two" ++ newline).
Proof.
  apply (overwrite_then_append plain_host "one" "two" "/tmp/out.txt" "echo"
           "echo" (world sample_shell) "old").
  reflexivity.
Defined.

(** ** Relative paths *)

Lemma split_join_then x (q : list string) (t : string) :
  Forall (fun seg => no_slash seg = true) (x :: q) ->
  JS.split Path.sep (JS.join "/" (x :: q) ++ "/" ++ t)
  = (x :: q ++ JS.split Path.sep t)%list.
Proof.
  revert x. induction q as [|y q IH]; intros x Hall.
  - inversion Hall as [|? ? Hx _]; subst. cbn [JS.join].
    change ("/" ++ t) with (String Path.sep t). by rewrite split_app_sep.
  - inversion Hall as [|? ? Hx Hq]; subst.
    change (JS.join "/" (x :: y :: q)) with (x ++ "/" ++ JS.join "/" (y :: q)).
    rewrite !append_assoc.
    change ("/" ++ JS.join "/" (y :: q) ++ "/" ++ t)
      with (String Path.sep (JS.join "/" (y :: q) ++ "/" ++ t)).
    rewrite split_app_sep by done. rewrite IH by done. reflexivity.
Qed.

(** A relative name resolved against a directory given by its steps: the
    segments of the name are normalized on top of these steps. *)
Lemma steps_below cwd (p : list string) (t : string) :
  valid_path p -> t <> "" -> JS.startsWith t "/" = false ->
  Path.steps cwd [Path.render p; t]
  = rev (fold_left Path.norm_step (JS.split Path.sep (t ++ "/")) (rev p)).
Proof.
  intros Hp Ht Hrel. unfold Path.steps. simpl rev.
  cbn [Path.gather]. apply String.eqb_neq in Ht. rewrite Ht, Hrel.
  unfold Path.render at 1. rewrite append_cons, append_nil_l.
  simpl String.eqb. cbv iota. simpl JS.startsWith. cbv iota.
  rewrite append_nil_r. unfold Path.render, Path.normalize. f_equal.
  rewrite append_cons, append_nil_l, append_cons.
  destruct p as [|x q].
  - cbn [JS.join]. rewrite append_nil_l.
    change (String "/" ("/" ++ t ++ "/"))
      with (String Path.sep (String Path.sep (t ++ "/"))).
    cbn [JS.split]. rewrite Ascii.eqb_refl. reflexivity.
  - change (String "/" (JS.join "/" (x :: q) ++ "/" ++ t ++ "/"))
      with ("" ++ String Path.sep (JS.join "/" (x :: q) ++ "/" ++ t ++ "/")).
    rewrite (split_app_sep "") by reflexivity.
    rewrite split_join_then
      by (eapply Forall_impl; [exact Hp|]; intros; by apply valid_name_no_slash).
    change (fold_left Path.norm_step
              ("" :: (x :: q ++ JS.split Path.sep (t ++ "/"))%list) [])
      with (fold_left Path.norm_step
              ((x :: q) ++ JS.split Path.sep (t ++ "/"))%list []).
    rewrite fold_left_app, (fold_norm_step_valid (x :: q)) by exact Hp.
    by rewrite app_nil_r.
Qed.

Lemma target_steps_normal h w target :
  target_steps h w target
  = Path.steps (process_cwd h) [currentDirectory w; target].
Proof.
  unfold target_steps, resolve, Path.resolve.
  apply steps_render, steps_valid.
Qed.

Lemma valid_name_relative x :
  valid_name x = true -> x <> "" /\ JS.startsWith x "/" = false.
Proof.
  unfold valid_name, no_slash. rewrite !andb_true_iff, !negb_true_iff.
  intros [[[H1 _] _] H4]. split; [by apply String.eqb_neq|].
  destruct x as [|c x]; [done|]. simpl in *.
  apply andb_true_iff in H4 as [Hc _]. apply negb_true_iff in Hc.
  unfold Path.sep in Hc. by rewrite Hc.
Qed.

(** A name below the current directory. *)
Lemma target_steps_child h w (p : list string) (x : string) :
  currentDirectory w = Path.render p -> valid_path p ->
  valid_name x = true ->
  target_steps h w x = (p ++ [x])%list.
Proof.
  intros Hcd Hp Hx. rewrite target_steps_normal, Hcd.
  destruct (valid_name_relative x Hx) as [Hne Hrel].
  rewrite steps_below by done.
  change "/" with (String Path.sep "").
  rewrite split_app_sep by (by apply valid_name_no_slash).
  change (JS.split Path.sep "") with [""].
  change [x; ""] with ([x] ++ [""])%list.
  rewrite fold_left_app, (fold_norm_step_valid [x]) by (by constructor).
  simpl. by rewrite rev_involutive.
Qed.

(** The parent of the current directory. *)
Lemma target_steps_parent h w (p : list string) (x : string) :
  currentDirectory w = Path.render (p ++ [x]) -> valid_path (p ++ [x]) ->
  target_steps h w ".." = p.
Proof.
  intros Hcd Hp. rewrite target_steps_normal, Hcd.
  rewrite steps_below by done.
  rewrite rev_app_distr. simpl. apply rev_involutive.
Qed.

(** The current directory itself. *)
Lemma target_steps_here h w (p : list string) :
  currentDirectory w = Path.render p -> valid_path p ->
  target_steps h w "." = p.
Proof.
  intros Hcd Hp. rewrite target_steps_normal, Hcd.
  rewrite steps_below by done. simpl. apply rev_involutive.
Qed.

Lemma resolve_render h w target :
  resolve h w target = Path.render (target_steps h w target).
Proof. by rewrite target_steps_normal. Qed.

(** ** [cd] to the parent *)

(** X15: on a well-formed volume, [cd ..] from an existing directory other
    than the root moves to its parent: the current directory becomes the
    path of the parent. *)
Theorem cd_dotdot_moves_to_parent h w (p : list string) (x : string) :
  wf (volume w) ->
  currentDirectory w = Path.render (p ++ [x]) ->
  is_Some (volume w !! (p ++ [x])%list) ->
  changeDirectory h ".." w
  = (Path.render p, set_currentDirectory (Path.render p) w).
Proof.
  intros (_ & Hparent & Hvalid) Hcd Hin.
  pose proof (target_steps_parent h w p x Hcd (Hvalid _ Hin)) as Hsteps.
  pose proof (Hparent _ _ Hin) as Hdir.
  pose proof (changeDirectory_cases h ".." w) as Hcases. simpl in Hcases.
  unfold Memfs.lstat, Memfs.lookup_at in Hcases.
  unfold target_steps in Hsteps. rewrite Hsteps, Hdir in Hcases.
  rewrite Hcases. rewrite resolve_render. unfold target_steps.
  by rewrite Hsteps.
Qed.

Lemma cd_dotdot_moves_to_parent_witness :
  changeDirectory plain_host ".."
                  (set_currentDirectory "/tmp" (world sample_shell))
  = ("/", set_currentDirectory "/"
            (set_currentDirectory "/tmp" (world sample_shell))).
Proof.
  apply (cd_dotdot_moves_to_parent plain_host
           (set_currentDirectory "/tmp" (world sample_shell)) [] "tmp").
  - apply apply_wf, wf_empty.
  - reflexivity.
  - by eexists.
Defined.

(** ** [touch] *)

Section Touch.

Variable h : Host.

(** X16: [touch] on a path that exists, file or directory, returns the empty
    string and does one thing: it sets the access and the modification time
    of that node to the time of the call. The tree, the content of every
    file, the current directory and the events stay as they were, so an
    existing file is not truncated. *)
Theorem touch_keeps_existing w fileName rest :
  fileName <> "" ->
  is_Some (volume w !! target_steps h w fileName) ->
  TouchCommand.execute h (fileName :: rest) w
  = (Ok "", fileName :: rest,
     mkWorld (currentDirectory w) (user w) (volume w) (emitted w) (console w)
             (stamped w ++ [target_steps h w fileName])).
Proof.
  intros Hname [n Hn]. unfold TouchCommand.execute.
  apply String.eqb_neq in Hname. rewrite Hname.
  unfold Memfs.utimes, Memfs.lookup_at. unfold target_steps in Hn.
  by rewrite Hn.
Qed.

Lemma touch_creates w fileName rest :
  fileName <> "" ->
  volume w !! target_steps h w fileName = None ->
  volume w !! removelast (target_steps h w fileName) = Some Memfs.Dir ->
  TouchCommand.execute h (fileName :: rest) w
  = (Ok "", fileName :: rest,
     set_volume (<[target_steps h w fileName := Memfs.File ""]> (volume w)) w).
Proof.
  intros Hname Hnone Hparent. unfold TouchCommand.execute.
  apply String.eqb_neq in Hname. rewrite Hname.
  unfold Memfs.utimes, Memfs.lookup_at. unfold target_steps in *.
  rewrite Hnone, (missing_in_directory _ _ Hparent). simpl.
  unfold TouchCommand.createFile, Memfs.writeFile, Memfs.write_at.
  rewrite Hnone.
  destruct (Memfs.filenameToSteps (process_cwd h) (resolve h w fileName))
    as [|x p] eqn:E.
  - simpl in Hparent. congruence.
  - by rewrite Hparent.
Qed.

(** X17: [touch] on a missing path whose parent is a directory creates an
    empty file there; a redirection of an output to that file then passes
    the writability check, and [cat] returns the output with its newline. *)
Theorem touch_then_redirect_then_cat w fileName rest output commandName :
  fileName <> "" ->
  volume w !! target_steps h w fileName = None ->
  volume w !! removelast (target_steps h w fileName) = Some Memfs.Dir ->
  let w1 := (TouchCommand.execute h (fileName :: rest) w).2 in
  let w2 := (processRedirection h output ">" fileName commandName w1).2 in
  volume w1 = <[target_steps h w fileName := Memfs.File ""]> (volume w)
  /\ CatCommand.execute h [fileName] w2
     = (Ok (output ++ newline), [fileName], w2).
Proof.
  intros Hname Hnone Hparent w1 w2. subst w1 w2.
  rewrite (touch_creates w fileName rest Hname Hnone Hparent).
  split; [reflexivity|]. cbn [snd].
  set (w1 := set_volume _ w).
  assert (Hfile : volume w1 !! target_steps h w1 fileName
                  = Some (Memfs.File "")).
  { subst w1. unfold target_steps. simpl. apply lookup_insert_eq. }
  rewrite (processRedirection_overwrites h _ _ _ _ "" Hfile).
  apply CatCommand_reads_file. unfold target_steps. simpl.
  apply lookup_insert_eq.
Qed.

(** X18: [touch] on a missing path whose parent is missing too, with no
    regular file on the way, throws [touch: cannot create file] with the
    resolved path and the reason, not the argument as typed, and creates
    nothing. *)
Theorem touch_without_parent w fileName rest :
  fileName <> "" ->
  volume w !! target_steps h w fileName = None ->
  volume w !! removelast (target_steps h w fileName) = None ->
  no_file_above (volume w) (target_steps h w fileName) ->
  TouchCommand.execute h (fileName :: rest) w
  = (Throw (Error ("touch: cannot create file '" ++ resolve h w fileName
                     ++ "': ENOENT: no such file or directory, open '"
                     ++ resolve h w fileName ++ "'")),
     fileName :: rest, w).
Proof.
  intros Hname Hnone Hparent Hway. unfold TouchCommand.execute.
  apply String.eqb_neq in Hname. rewrite Hname.
  apply missing_ENOENT in Hway.
  unfold Memfs.utimes, Memfs.lookup_at. unfold target_steps in *.
  rewrite Hnone, Hway. simpl.
  unfold TouchCommand.createFile, Memfs.writeFile, Memfs.write_at.
  rewrite Hnone, Hparent, Hway.
  by destruct (Memfs.filenameToSteps (process_cwd h) (resolve h w fileName)).
Qed.

(** Below a regular file the time stamps cannot be set either, for another
    reason than a missing file, so [touch] does not try to create the file
    and reports that it cannot touch the argument as typed. *)
Lemma touch_below_a_file w fileName rest (p : list string) (x c : string) :
  fileName <> "" ->
  target_steps h w fileName = (p ++ [x])%list ->
  volume w !! p = Some (Memfs.File c) ->
  volume w !! (p ++ [x])%list = None ->
  exists reason,
    TouchCommand.execute h (fileName :: rest) w
    = (Throw (Error ("touch: cannot touch '" ++ fileName ++ "': " ++ reason)),
       fileName :: rest, w).
Proof.
  intros Hname Hsteps Hp Hnone. unfold TouchCommand.execute.
  apply String.eqb_neq in Hname. rewrite Hname.
  unfold Memfs.utimes, Memfs.lookup_at. unfold target_steps in Hsteps.
  rewrite Hsteps, Hnone, (missing_below_file _ _ _ _ Hp). simpl.
  eexists. reflexivity.
Qed.

End Touch.

Lemma touch_keeps_existing_witness :
  TouchCommand.execute plain_host ["/tmp/out.txt"] (world sample_shell)
  = (Ok "", ["/tmp/out.txt"],
     stamp ["tmp"; "out.txt"] (world sample_shell)).
Proof.
  apply (touch_keeps_existing plain_host (world sample_shell) "/tmp/out.txt" []).
  - discriminate.
  - by eexists.
Defined.

Lemma touch_then_redirect_then_cat_witness :
  let w1 := (TouchCommand.execute plain_host ["/tmp/new"]
                                  (world sample_shell)).2 in
  let w2 := (processRedirection plain_host "hi" ">" "/tmp/new" "echo" w1).2 in
  volume w1
  = <[target_steps plain_host (world sample_shell) "/tmp/new"
      := Memfs.File ""]> (volume (world sample_shell))
  /\ CatCommand.execute plain_host ["/tmp/new"] w2
     = (Ok ("hi" ++ newline), ["/tmp/new"], w2).
Proof.
  apply (touch_then_redirect_then_cat plain_host (world sample_shell)
           "/tmp/new" [] "hi" "echo").
  - discriminate.
  - reflexivity.
  - reflexivity.
Defined.

Lemma touch_without_parent_witness :
  TouchCommand.execute plain_host ["/nowhere/new"] (world sample_shell)
  = (Throw (Error ("touch: cannot create file '"
                     ++ resolve plain_host (world sample_shell) "/nowhere/new"
                     ++ "': ENOENT: no such file or directory, open '"
                     ++ resolve plain_host (world sample_shell) "/nowhere/new"
                     ++ "'")),
     ["/nowhere/new"], world sample_shell).
Proof.
  apply (touch_without_parent plain_host (world sample_shell)
           "/nowhere/new" []).
  - discriminate.
  - reflexivity.
  - reflexivity.
  - by apply no_file_aboveb_true.
Defined.

(** ** [mkdir] *)

Section Mkdir.

Variable h : Host.

Lemma parse_flag_only_p chars : forall parents,
  only_p chars = true ->
  MkdirCommand.parse_flag chars parents
  = Ok (parents || negb (String.eqb chars "")).
Proof.
  induction chars as [|c chars IH]; intros parents Hp.
  - simpl. by rewrite orb_false_r.
  - unfold only_p in Hp. cbn [JS.all_chars] in Hp.
    apply andb_true_iff in Hp as [Hc Hp]. cbn [MkdirCommand.parse_flag].
    rewrite Hc, (IH true Hp). simpl. by rewrite orb_true_r.
Qed.

Lemma parse_flag_unknown ps c cs : forall parents,
  only_p ps = true -> Ascii.eqb c "p" = false ->
  MkdirCommand.parse_flag (ps ++ String c cs) parents
  = Throw (Error (ERR_INVALID_OPERATOR (String c ""))).
Proof.
  induction ps as [|a ps IH]; intros parents Hp Hc.
  - rewrite append_nil_l. cbn [MkdirCommand.parse_flag]. by rewrite Hc.
  - unfold only_p in Hp. cbn [JS.all_chars] in Hp.
    apply andb_true_iff in Hp as [Ha Hp]. rewrite append_cons.
    cbn [MkdirCommand.parse_flag]. rewrite Ha. by apply IH.
Qed.

Lemma parse_args_unknown w pre ps c cs post : forall parents directories,
  Forall (fun arg => mkdir_accepts arg = true) pre ->
  only_p ps = true -> Ascii.eqb c "p" = false ->
  MkdirCommand.parse_args h w (pre ++ ("-" ++ ps ++ String c cs)%string :: post)%list
                          parents directories
  = Throw (Error (ERR_INVALID_OPERATOR (String c ""))).
Proof.
  intros parents directories Hpre Hp Hc. revert parents directories.
  induction Hpre as [|arg pre Harg _ IH]; intros parents directories.
  - cbn [app MkdirCommand.parse_args].
    change ("-" ++ ps ++ String c cs) with (String "-" (ps ++ String c cs)).
    cbn [JS.startsWith MkdirCommand.slice1]. rewrite Ascii.eqb_refl.
    cbn [andb]. by rewrite parse_flag_unknown.
  - cbn [app MkdirCommand.parse_args]. unfold mkdir_accepts in Harg.
    destruct (JS.startsWith arg "-"); simpl in Harg.
    + rewrite (parse_flag_only_p _ _ Harg). apply IH.
    + apply IH.
Qed.

(** X19: an option of [mkdir] with a character other than p makes it throw
    the invalid-operator message for the first such character, wherever the
    option stands: no directory is created, not even those named before
    it. *)
Theorem mkdir_rejects_unknown_option w pre ps c cs post :
  Forall (fun arg => mkdir_accepts arg = true) pre ->
  only_p ps = true -> c <> "p"%char ->
  MkdirCommand.execute h (pre ++ ("-" ++ ps ++ String c cs)%string :: post)%list w
  = (Throw (Error (ERR_INVALID_OPERATOR (String c ""))),
     (pre ++ ("-" ++ ps ++ String c cs)%string :: post)%list, w).
Proof.
  intros Hpre Hp Hc. unfold MkdirCommand.execute.
  apply Ascii.eqb_neq in Hc.
  rewrite (parse_args_unknown w pre ps c cs post false [] Hpre Hp Hc).
  by destruct pre.
Qed.

Lemma create_all_apply parents directories : forall errors (v : Memfs.Volume),
  (MkdirCommand.create_all h parents directories errors v).2
  = Memfs.apply (process_cwd h)
      (map (fun dir => Memfs.MMkdir dir parents) directories) v.
Proof.
  induction directories as [|dir directories IH]; intros errors v;
    [reflexivity|].
  cbn [MkdirCommand.create_all map]. unfold Memfs.apply. cbn [fold_left].
  cbn [Memfs.mutate].
  destruct (Memfs.mkdir (process_cwd h) dir parents v); apply IH.
Qed.

(** X20: [mkdir] goes on after a directory that cannot be created: when the
    arguments are well formed, the volume it leaves is the one reached by
    trying each directory in turn and skipping the failures, whether the
    command ends by returning or by throwing the collected messages. *)
Theorem mkdir_creates_what_it_can w arg args parents directories :
  MkdirCommand.parse_args h w (arg :: args) false [] = Ok (parents, directories) ->
  let w' := (MkdirCommand.execute h (arg :: args) w).2 in
  volume w'
  = Memfs.apply (process_cwd h)
      (map (fun dir => Memfs.MMkdir dir parents) directories) (volume w)
  /\ currentDirectory w' = currentDirectory w.
Proof.
  intros Hparse w'. subst w'. unfold MkdirCommand.execute. rewrite Hparse.
  pose proof (create_all_apply parents directories [] (volume w)) as Hv.
  destruct (MkdirCommand.create_all h parents directories [] (volume w))
    as [errors v']. simpl in Hv. subst v'.
  by destruct errors.
Qed.

Lemma mkdirp_go_makes filename (todo : list string) :
  forall (seen : list string) (v v' : Memfs.Volume),
    v !! seen = Some Memfs.Dir ->
    Memfs.mkdirp_go filename seen todo v = Ok v' ->
    v' !! (seen ++ todo)%list = Some Memfs.Dir
    \/ exists c, v !! (seen ++ todo)%list = Some (Memfs.File c).
Proof.
  induction todo as [|x todo IH]; intros seen v v' Hseen Hgo.
  - simpl in Hgo. rewrite app_nil_r. left. congruence.
  - cbn [Memfs.mkdirp_go] in Hgo.
    replace (seen ++ x :: todo)%list with ((seen ++ [x]) ++ todo)%list
      by (by rewrite <- app_assoc).
    destruct (v !! (seen ++ [x])%list) as [[c|]|] eqn:E.
    + destruct todo; [|done]. right. exists c. by rewrite app_nil_r.
    + by apply (IH _ v).
    + destruct (IH _ (<[(seen ++ [x])%list := Memfs.Dir]> v) v'
                  (lookup_insert_eq _ _ _) Hgo) as [Hdir|[c Hc]];
        [by left|].
      right. exists c.
      apply lookup_insert_Some in Hc as [[_ [=]]|[_ Hc]]. exact Hc.
Qed.

(** On a path that exists, be it a regular file, [mkdir -p] has nothing to
    create. *)
Lemma mkdirp_go_existing filename (todo : list string) :
  forall (seen : list string) (v : Memfs.Volume),
    wf v -> is_Some (v !! (seen ++ todo)%list) ->
    Memfs.mkdirp_go filename seen todo v = Ok v.
Proof.
  induction todo as [|x todo IH]; intros seen v Hwf Hin; [reflexivity|].
  cbn [Memfs.mkdirp_go].
  replace (seen ++ x :: todo)%list with ((seen ++ [x]) ++ todo)%list in Hin
    by (by rewrite <- app_assoc).
  destruct todo as [|y todo].
  - rewrite app_nil_r in Hin. destruct Hin as [[c|] ->]; reflexivity.
  - assert (Hdir : v !! (seen ++ [x])%list = Some Memfs.Dir)
      by (by apply (wf_ancestor v Hwf (y :: todo))).
    rewrite Hdir. by apply IH.
Qed.

(** X21: after [mkdir d] or [mkdir -p d] has returned, [cd d] succeeds and
    the current directory becomes the resolved path of [d], unless [d] was
    a regular file already, which [mkdir -p] leaves alone without a
    failure. *)
Theorem mkdir_then_cd w options d output args' w' :
  options = [] \/ options = ["-p"] ->
  JS.startsWith d "-" = false ->
  volume w !! [] = Some Memfs.Dir ->
  (forall c, volume w !! target_steps h w d <> Some (Memfs.File c)) ->
  MkdirCommand.execute h (options ++ [d])%list w = (Ok output, args', w') ->
  changeDirectory h d w'
  = (resolve h w d, set_currentDirectory (resolve h w d) w').
Proof.
  intros Hopt Hd Hroot Hfile Hrun.
  assert (Hmade : volume w' !! target_steps h w d = Some Memfs.Dir
                  /\ currentDirectory w' = currentDirectory w).
  { unfold MkdirCommand.execute in Hrun.
    destruct Hopt as [-> | ->]; cbn [app MkdirCommand.parse_args] in Hrun;
      rewrite ?Hd in Hrun; simpl in Hrun; rewrite ?Hd in Hrun;
      cbn [app MkdirCommand.create_all Memfs.mkdir] in Hrun.
    - unfold Memfs.mkdir_at in Hrun. fold (target_steps h w d) in Hrun.
      destruct (target_steps h w d) as [|x p] eqn:E; [done|].
      destruct (volume w !! removelast (x :: p)) as [[c|]|]; try done.
      destruct (volume w !! (x :: p)); [done|].
      injection Hrun as _ _ <-. split; [|reflexivity]. apply lookup_insert_eq.
    - unfold Memfs.mkdirp_at in Hrun. fold (target_steps h w d) in Hrun.
      destruct (Memfs.mkdirp_go (resolve h w d) [] (target_steps h w d)
                  (volume w)) as [v'|err] eqn:E; [|done].
      injection Hrun as _ _ <-. split; [|reflexivity].
      destruct (mkdirp_go_makes _ _ _ _ _ Hroot E) as [Hdir|[c Hc]];
        [exact Hdir|]. by destruct (Hfile c). }
  destruct Hmade as [Hdir Hcd].
  assert (Hres : resolve h w' d = resolve h w d)
    by (unfold resolve; by rewrite Hcd).
  pose proof (changeDirectory_cases h d w') as Hcases. simpl in Hcases.
  unfold Memfs.lstat, Memfs.lookup_at in Hcases. rewrite Hres in Hcases.
  unfold target_steps in Hdir. rewrite Hdir in Hcases. exact Hcases.
Qed.

(** On a regular file [mkdir -p] returns as on a success and changes
    nothing, and [cd] then answers that the path is not a directory. *)
Lemma mkdir_p_keeps_a_file w d c :
  JS.startsWith d "-" = false ->
  wf (volume w) ->
  volume w !! target_steps h w d = Some (Memfs.File c) ->
  exists w',
    MkdirCommand.execute h ["-p"; d] w = (Ok "", ["-p"; d], w')
    /\ volume w' = volume w
    /\ changeDirectory h d w' = (ERR_NOT_A_DIRECTORY d, w').
Proof.
  intros Hd Hwf Hfile. unfold MkdirCommand.execute.
  cbn [MkdirCommand.parse_args]. simpl JS.startsWith at 1. cbv iota.
  cbn [MkdirCommand.slice1 MkdirCommand.parse_flag]. simpl Ascii.eqb.
  cbv iota. cbn [MkdirCommand.parse_args]. rewrite Hd.
  cbn [app MkdirCommand.create_all Memfs.mkdir]. unfold Memfs.mkdirp_at.
  fold (target_steps h w d).
  rewrite (mkdirp_go_existing _ (target_steps h w d) [] (volume w) Hwf)
    by (by eexists).
  eexists. split; [reflexivity|]. split; [reflexivity|].
  pose proof (changeDirectory_cases h d (set_volume (volume w) w)) as Hcases.
  simpl in Hcases. unfold Memfs.lstat, Memfs.lookup_at in Hcases.
  change (resolve h (set_volume (volume w) w) d) with (resolve h w d)
    in Hcases.
  unfold target_steps in Hfile. rewrite Hfile in Hcases. exact Hcases.
Qed.

End Mkdir.

Lemma mkdir_rejects_unknown_option_witness :
  MkdirCommand.execute plain_host
    (["/a"; "-p"] ++ ("-" ++ "p" ++ String "x" "y")%string :: ["/b"])%list
    (world sample_shell)
  = (Throw (Error (ERR_INVALID_OPERATOR (String "x" ""))),
     (["/a"; "-p"] ++ ("-" ++ "p" ++ String "x" "y")%string :: ["/b"])%list,
     world sample_shell).
Proof.
  apply (mkdir_rejects_unknown_option plain_host (world sample_shell)
           ["/a"; "-p"] "p" "x"%char "y" ["/b"]).
  - repeat constructor.
  - reflexivity.
  - discriminate.
Defined.

Lemma mkdir_creates_what_it_can_witness :
  let w' := (MkdirCommand.execute plain_host ["/tmp"; "/new"]
                                  (world sample_shell)).2 in
  volume w'
  = Memfs.apply (process_cwd plain_host)
      (map (fun dir => Memfs.MMkdir dir false) ["/tmp"; "/new"])
      (volume (world sample_shell))
  /\ currentDirectory w' = currentDirectory (world sample_shell).
Proof.
  apply (mkdir_creates_what_it_can plain_host (world sample_shell) "/tmp"
           ["/new"] false ["/tmp"; "/new"]).
  reflexivity.
Defined.

Lemma mkdir_then_cd_witness :
  changeDirectory plain_host "/a/b"
    (MkdirCommand.execute plain_host (["-p"] ++ ["/a/b"])%list
                          (world sample_shell)).2
  = (resolve plain_host (world sample_shell) "/a/b",
     set_currentDirectory (resolve plain_host (world sample_shell) "/a/b")
       (MkdirCommand.execute plain_host (["-p"] ++ ["/a/b"])%list
                             (world sample_shell)).2).
Proof.
  apply (mkdir_then_cd plain_host (world sample_shell) ["-p"] "/a/b" ""
           ["-p"; "/a/b"]).
  - by right.
  - reflexivity.
  - reflexivity.
  - discriminate.
  - reflexivity.
Defined.

Example mkdir_p_on_sample_file :
  let r := executeCommand plain_host stocked_shell "mkdir -p /tmp/out.txt" in
  r.1 = Ok ""
  /\ volume (world r.2) = volume (world stocked_shell)
  /\ (executeCommand plain_host r.2 "cd /tmp/out.txt").1 = Ok ""
  /\ changeDirectory plain_host "/tmp/out.txt" (world r.2)
     = ("cd: /tmp/out.txt: not a directory", world r.2).
Proof. repeat split; vm_compute; reflexivity. Qed.

(** ** Events *)

Section Events.

Variable h : Host.

Lemma stderr_reports sh m w :
  quiet (world sh) w -> reports sh (ending sh (stderr m w)).
Proof.
  intros Hq. right. exists "stderr", ("bash: " ++ m).
  split; [by right|]. split; [reflexivity|].
  unfold quiet in Hq. simpl. by rewrite Hq.
Qed.

Lemma caught_reports sh err w :
  quiet (world sh) w -> reports sh (caught sh err w).
Proof.
  intros Hq. destruct err as [m c| |]; [by apply stderr_reports| |];
    by left.
Qed.

Lemma stdout_reports sh m w :
  quiet (world sh) w -> reports sh (ending sh (stdout m w)).
Proof.
  intros Hq. right. exists "stdout", ("bash: " ++ m).
  split; [by left|]. split; [reflexivity|].
  unfold quiet in Hq. simpl. by rewrite Hq.
Qed.

Lemma processRedirection_reports sh output operator target commandName w :
  quiet (world sh) w ->
  reports sh (ending sh (processRedirection h output operator target
                                            commandName w)).
Proof.
  intros Hq. unfold processRedirection.
  destruct (Memfs.access _ _ _); [|by apply stderr_reports].
  destruct (String.eqb operator ">").
  { destruct (Memfs.writeFile _ _ _ _);
      [by apply stdout_reports|by apply stderr_reports]. }
  destruct (String.eqb operator ">>"); [|by apply stderr_reports].
  destruct (Memfs.appendFile _ _ _ _);
    [by apply stdout_reports|by apply stderr_reports].
Qed.

Lemma run_all_quiet {F : Type} (call : F -> World -> Result unit * World)
    (l : list F) :
  (forall f w, f ∈ l -> quiet w (call f w).2) ->
  forall w, quiet w (Hook.run_all call l w).2.
Proof.
  induction l as [|f l IH]; intros Hl w; [reflexivity|].
  simpl. pose proof (Hl f w ltac:(left)) as Hf.
  destruct (call f w) as [[u|e] w']; simpl in Hf; [|exact Hf].
  unfold quiet in *. rewrite IH; [exact Hf|].
  intros g w0 Hg. apply Hl. by right.
Qed.

Lemma run_quiet {F : Type} (call : F -> World -> Result unit * World)
    (hooks : gmap string (list F)) name :
  (forall l f w, hooks !! name = Some l -> f ∈ l -> quiet w (call f w).2) ->
  forall w, quiet w (Hook.run call hooks name w).2.
Proof.
  intros Hl w. unfold Hook.run.
  destruct (hooks !! name) as [l|] eqn:E; [|reflexivity].
  apply run_all_quiet. intros f w0 Hf. by apply (Hl l).
Qed.

(** X22: when the commands and the hooks of a shell publish nothing
    themselves, a call of [executeCommand] publishes at most one event, a
    [stdout] or a [stderr] one, and its message is the string the call
    returns. *)
Theorem executeCommand_reports_what_it_returns sh command :
  (forall name cmd args w,
     commands sh !! name = Some cmd -> quiet w (cmd args w).2) ->
  (forall name l f args w,
     preHook sh !! name = Some l -> f ∈ l -> quiet w (f args w).2) ->
  (forall name l f args output w,
     postHook sh !! name = Some l -> f ∈ l -> quiet w (f args output w).2) ->
  reports sh (executeCommand h sh command).
Proof.
  intros Hcmd Hpre Hpost. unfold executeCommand.
  set (red := extractRedirection command).
  set (args := shellQuote_parse h (commandInput red)).
  set (name := commandName_of args).
  set (cargs := commandArgs_of args).
  cbv zeta.
  destruct (isInvalidCommand command); [by apply stderr_reports|].
  destruct (String.eqb name ""); [by apply stderr_reports|].
  destruct (negb (has_property name (commands sh)));
    [by apply stderr_reports|].
  pose proof (run_quiet (fun hook : PreHookFn => hook cargs) (preHook sh) name
                (fun l f w Hl Hf => Hpre name l f cargs w Hl Hf) (world sh))
    as Hq1.
  fold (PreHook.run (preHook sh) name cargs (world sh)) in Hq1.
  destruct (PreHook.run (preHook sh) name cargs (world sh)) as [[u|e] w1];
    simpl in Hq1; [|by apply caught_reports].
  unfold get_property.
  destruct (commands sh !! name) as [cmd|] eqn:Ecmd.
  - pose proof (Hcmd name cmd cargs w1 Ecmd) as Hq2.
    destruct (cmd cargs w1) as [[[output|e] cargs'] w2]; simpl in Hq2.
    + assert (Hq12 : quiet (world sh) w2)
        by (unfold quiet in *; congruence).
      pose proof (run_quiet (fun hook : PostHookFn => hook cargs' output)
                    (postHook sh) name
                    (fun l f w Hl Hf => Hpost name l f cargs' output w Hl Hf)
                    w2) as Hq3.
      fold (PostHook.run (postHook sh) name cargs' output w2) in Hq3.
      destruct (PostHook.run (postHook sh) name cargs' output w2)
        as [[u'|e] w3]; simpl in Hq3.
      * assert (Hq13 : quiet (world sh) w3)
          by (unfold quiet in *; congruence).
        destruct (redirectionOperator red) as [operator|];
          [|by left].
        destruct (targetFile red) as [target|]; [|by left].
        by apply processRedirection_reports.
      * apply caught_reports. unfold quiet in *. congruence.
    + apply caught_reports. unfold quiet in *. congruence.
  - destruct (bool_decide (name ∈ Object_prototype_keys));
      [by apply caught_reports|by apply stderr_reports].
Qed.

End Events.

(** ** The directory the shell stands in *)

Section Home.

Variable h : Host.

Lemma at_home_same w w' :
  volume w' = volume w -> currentDirectory w' = currentDirectory w ->
  at_home h w -> at_home h w'.
Proof. unfold at_home. by intros -> ->. Qed.

Lemma at_home_stderr m w : at_home h w -> at_home h (stderr m w).2.
Proof. by apply at_home_same. Qed.

Lemma at_home_stdout m w : at_home h w -> at_home h (stdout m w).2.
Proof. by apply at_home_same. Qed.

Lemma at_home_set_volume (w : World) (v' : Memfs.Volume) :
  at_home h w -> wf v' ->
  (forall q, volume w !! q = Some Memfs.Dir -> v' !! q = Some Memfs.Dir) ->
  at_home h (set_volume v' w).
Proof. intros [_ Hcd] Hwf Hkeep. split; [exact Hwf|]. by apply Hkeep. Qed.

Lemma write_at_keeps_dirs (filename : string) (p : list string)
    (upd : string -> string) (v v' : Memfs.Volume) :
  Memfs.write_at filename p upd v = Ok v' ->
  forall q, v !! q = Some Memfs.Dir -> v' !! q = Some Memfs.Dir.
Proof.
  unfold Memfs.write_at. intros Hw q Hq.
  destruct (v !! p) as [[c|]|] eqn:E; [| done |].
  - injection Hw as <-. rewrite lookup_insert_ne; [done|congruence].
  - destruct p as [|x p]; [done|].
    destruct (v !! removelast (x :: p)) as [[c|]|]; try done.
    injection Hw as <-. rewrite lookup_insert_ne; [done|congruence].
Qed.

Lemma mkdir_at_keeps_dirs (filename : string) (p : list string)
    (v v' : Memfs.Volume) :
  Memfs.mkdir_at filename p v = Ok v' ->
  forall q, v !! q = Some Memfs.Dir -> v' !! q = Some Memfs.Dir.
Proof.
  unfold Memfs.mkdir_at. intros Hm q Hq.
  destruct p as [|x p]; [done|].
  destruct (v !! removelast (x :: p)) as [[c|]|]; try done.
  destruct (v !! (x :: p)) eqn:E; [done|].
  injection Hm as <-. rewrite lookup_insert_ne; [done|congruence].
Qed.

Lemma mkdirp_go_keeps_dirs (filename : string) (todo : list string) :
  forall (seen : list string) (v v' : Memfs.Volume),
    Memfs.mkdirp_go filename seen todo v = Ok v' ->
    forall q, v !! q = Some Memfs.Dir -> v' !! q = Some Memfs.Dir.
Proof.
  induction todo as [|x todo IH]; intros seen v v' Hgo q Hq.
  - simpl in Hgo. congruence.
  - cbn [Memfs.mkdirp_go] in Hgo.
    destruct (v !! (seen ++ [x])%list) as [[c|]|] eqn:E.
    + destruct todo; [congruence|done].
    + by apply (IH _ _ _ Hgo).
    + apply (IH _ _ _ Hgo). rewrite lookup_insert_ne; [done|congruence].
Qed.

Lemma mkdir_keeps_dirs (dir : string) (parents : bool)
    (v v' : Memfs.Volume) :
  Memfs.mkdir (process_cwd h) dir parents v = Ok v' ->
  forall q, v !! q = Some Memfs.Dir -> v' !! q = Some Memfs.Dir.
Proof.
  unfold Memfs.mkdir, Memfs.mkdirp_at. destruct parents.
  - apply mkdirp_go_keeps_dirs.
  - apply mkdir_at_keeps_dirs.
Qed.

Lemma create_all_keeps (parents : bool) (directories : list string) :
  forall (errors : list string) (v : Memfs.Volume),
    wf v ->
    wf (MkdirCommand.create_all h parents directories errors v).2
    /\ forall q, v !! q = Some Memfs.Dir ->
                 (MkdirCommand.create_all h parents directories errors v).2
                 !! q = Some Memfs.Dir.
Proof.
  induction directories as [|dir directories IH]; intros errors v Hwf;
    [done|].
  cbn [MkdirCommand.create_all].
  destruct (Memfs.mkdir (process_cwd h) dir parents v) as [v'|err] eqn:E.
  - assert (Hwf' : wf v')
      by (apply (mutate_wf (process_cwd h) (Memfs.MMkdir dir parents) v);
          done).
    destruct (IH errors v' Hwf') as [H1 H2]. split; [exact H1|].
    intros q Hq. apply H2. by apply (mkdir_keeps_dirs _ _ _ _ E).
  - by apply IH.
Qed.

Lemma echo_at_home args w :
  at_home h w -> at_home h (EchoCommand.execute args w).2.
Proof. unfold EchoCommand.execute. by destruct args. Qed.

Lemma cat_at_home args w :
  at_home h w -> at_home h (CatCommand.execute h args w).2.
Proof. unfold CatCommand.execute. by destruct args. Qed.

Lemma rm_at_home args w :
  at_home h w -> at_home h (RmCommand.execute h args w).2.
Proof. by rewrite rm_execute_frame. Qed.

Lemma changeDirectory_at_home newPath w :
  at_home h w -> at_home h (changeDirectory h newPath w).2.
Proof.
  intros [Hwf Hcd]. unfold changeDirectory, Memfs.lstat, Memfs.lookup_at.
  destruct (volume w !! Memfs.filenameToSteps (process_cwd h)
                                              (resolve h w newPath))
    as [[c|]|] eqn:E; done.
Qed.

Lemma cd_at_home args w :
  at_home h w -> at_home h (CdCommand.execute h args w).2.
Proof.
  intros Hw. unfold CdCommand.execute. destruct args as [|newPath rest];
    [done|].
  pose proof (changeDirectory_at_home newPath w Hw) as H.
  by destruct (changeDirectory h newPath w).
Qed.

Lemma ENOENT_cases {A : Type} (c : string) (a b : A) :
  match c with "ENOENT" => a | _ => b end = a
  \/ match c with "ENOENT" => a | _ => b end = b.
Proof.
  repeat (let x := fresh "x" in
          destruct c as [|x c]; [by right|];
          destruct x as [[] [] [] [] [] [] [] []]; try (by right)).
  destruct c; [by left|by right].
Qed.

Lemma touch_at_home args w :
  at_home h w -> at_home h (TouchCommand.execute h args w).2.
Proof.
  intros Hw. unfold TouchCommand.execute. destruct args as [|fileName rest];
    [done|].
  destruct (String.eqb fileName ""); [done|].
  destruct (Memfs.utimes _ _ _) as [u|error]; [done|].
  destruct (code error) as [c|]; [|done].
  set (a := let '(r, w') := TouchCommand.createFile h (resolve h w fileName) w
            in (r, fileName :: rest, w')).
  set (b := (Throw (TouchCommand.handleError error fileName),
             fileName :: rest, w)).
  destruct (ENOENT_cases c a b) as [-> | ->]; subst a b; [|done].
  unfold TouchCommand.createFile, Memfs.writeFile.
  destruct (Memfs.write_at _ _ _ _) as [v'|err] eqn:E; [|done].
  simpl. apply at_home_set_volume; [done| |].
  - apply (write_at_wf _ _ _ _ _ (proj1 Hw) (filenameToSteps_valid _ _) E).
  - apply (write_at_keeps_dirs _ _ _ _ _ E).
Qed.

Lemma mkdir_at_home args w :
  at_home h w -> at_home h (MkdirCommand.execute h args w).2.
Proof.
  intros Hw. unfold MkdirCommand.execute. destruct args as [|arg args];
    [done|].
  destruct (MkdirCommand.parse_args h w (arg :: args) false [])
    as [[parents directories]|err]; [|done].
  destruct (create_all_keeps parents directories [] (volume w) (proj1 Hw))
    as [H1 H2].
  destruct (MkdirCommand.create_all h parents directories [] (volume w))
    as [errors v']. simpl in H1, H2.
  destruct errors; simpl; by apply at_home_set_volume.
Qed.

Lemma processRedirection_at_home output operator target commandName w :
  at_home h w ->
  at_home h (processRedirection h output operator target commandName w).2.
Proof.
  intros Hw. unfold processRedirection.
  destruct (Memfs.access _ _ _); [|by apply at_home_stderr].
  destruct (String.eqb operator ">").
  { unfold Memfs.writeFile.
    destruct (Memfs.write_at _ _ _ _) as [v'|err] eqn:E;
      [|by apply at_home_stderr].
    apply at_home_stdout, at_home_set_volume; [done| |].
    - apply (write_at_wf _ _ _ _ _ (proj1 Hw) (filenameToSteps_valid _ _) E).
    - apply (write_at_keeps_dirs _ _ _ _ _ E). }
  destruct (String.eqb operator ">>"); [|by apply at_home_stderr].
  unfold Memfs.appendFile.
  destruct (Memfs.write_at _ _ _ _) as [v'|err] eqn:E;
    [|by apply at_home_stderr].
  apply at_home_stdout, at_home_set_volume; [done| |].
  - apply (write_at_wf _ _ _ _ _ (proj1 Hw) (filenameToSteps_valid _ _) E).
  - apply (write_at_keeps_dirs _ _ _ _ _ E).
Qed.

Lemma all_builtins_at_home name cmd args w :
  all_builtins h !! name = Some cmd ->
  at_home h w -> at_home h (cmd args w).2.
Proof.
  unfold all_builtins, builtins, registerCommand.
  rewrite !lookup_insert_Some, lookup_empty.
  intros Hcmd Hw.
  destruct Hcmd as [[_ <-]|[_ [[_ <-]|[_ [[_ <-]|[_ [[_ <-]|[_ [[_ <-]|[_ [[_ <-]|[_ ?]]]]]]]]]]]];
    [by apply touch_at_home|by apply mkdir_at_home|by apply echo_at_home
    |by apply cat_at_home|by apply cd_at_home|by apply rm_at_home|done].
Qed.

Lemma run_empty {F : Type} (call : F -> World -> Result unit * World)
    name w :
  Hook.run call ∅ name w = (Ok tt, w).
Proof. unfold Hook.run. by rewrite lookup_empty. Qed.

Lemma at_home_caught sh err w :
  at_home h w -> at_home h (world (caught sh err w).2).
Proof. intros Hw. destruct err as [m c| |]; [by apply at_home_stderr| |]; done. Qed.

Lemma executeCommand_at_home sh command :
  commands sh = all_builtins h -> preHook sh = ∅ -> postHook sh = ∅ ->
  at_home h (world sh) ->
  at_home h (world (executeCommand h sh command).2).
Proof.
  intros Hcmds Hpre Hpost Hw. unfold executeCommand.
  set (red := extractRedirection command).
  set (args := shellQuote_parse h (commandInput red)).
  set (name := commandName_of args).
  set (cargs := commandArgs_of args).
  cbv zeta.
  destruct (isInvalidCommand command); [by apply at_home_stderr|].
  destruct (String.eqb name ""); [by apply at_home_stderr|].
  destruct (negb (has_property name (commands sh)));
    [by apply at_home_stderr|].
  unfold PreHook.run, PostHook.run. rewrite Hpre, Hpost, run_empty.
  unfold get_property.
  destruct (commands sh !! name) as [cmd|] eqn:Ecmd.
  - rewrite Hcmds in Ecmd.
    pose proof (all_builtins_at_home name cmd cargs (world sh) Ecmd Hw) as H2.
    destruct (cmd cargs (world sh)) as [[[output|e] cargs'] w2]; simpl in H2;
      [|by apply at_home_caught].
    rewrite run_empty.
    destruct (redirectionOperator red) as [operator|]; [|done].
    destruct (targetFile red) as [target|]; [|done].
    by apply processRedirection_at_home.
  - destruct (bool_decide (name ∈ Object_prototype_keys));
      [by apply at_home_caught|by apply at_home_stderr].
Qed.

Lemma executeCommand_same_shell sh command :
  commands (executeCommand h sh command).2 = commands sh
  /\ preHook (executeCommand h sh command).2 = preHook sh
  /\ postHook (executeCommand h sh command).2 = postHook sh.
Proof.
  unfold executeCommand, caught, ending. cbv zeta.
  repeat match goal with
         | |- context [match ?x with _ => _ end] => destruct x
         | |- context [if ?x then _ else _] => destruct x
         end; done.
Qed.

(** X23: a shell with the commands above and no hooks never loses its
    footing: if its volume is well formed and its current directory is a
    directory of the volume, this still holds after any sequence of lines,
    whether they succeed or fail. *)
Theorem session_stays_at_home sh lines :
  commands sh = all_builtins h -> preHook sh = ∅ -> postHook sh = ∅ ->
  at_home h (world sh) ->
  at_home h (world (run_lines h sh lines)).
Proof.
  revert sh. induction lines as [|line lines IH];
    intros sh Hcmds Hpre Hpost Hw; [exact Hw|].
  cbn [run_lines].
  destruct (executeCommand_same_shell sh line) as (E1 & E2 & E3).
  apply IH; [congruence|congruence|congruence|].
  by apply executeCommand_at_home.
Qed.

End Home.

(** ** The commands above publish nothing *)

Lemma all_builtins_quiet h name cmd args w :
  all_builtins h !! name = Some cmd -> quiet w (cmd args w).2.
Proof.
  unfold all_builtins, builtins, registerCommand.
  rewrite !lookup_insert_Some, lookup_empty.
  intros Hcmd.
  destruct Hcmd as [[_ <-]|[_ [[_ <-]|[_ [[_ <-]|[_ [[_ <-]|[_ [[_ <-]|[_ [[_ <-]|[_ ?]]]]]]]]]]]];
    [| | | | | |done].
  - unfold TouchCommand.execute. destruct args as [|fileName rest]; [done|].
    destruct (String.eqb fileName ""); [done|].
    destruct (Memfs.utimes _ _ _) as [u|error]; [done|].
    destruct (code error) as [c|]; [|done].
    set (a := let '(r, w') := TouchCommand.createFile h (resolve h w fileName) w
              in (r, fileName :: rest, w')).
    set (b := (Throw (TouchCommand.handleError error fileName),
               fileName :: rest, w)).
    destruct (ENOENT_cases c a b) as [-> | ->]; subst a b; [|done].
    unfold TouchCommand.createFile.
    by destruct (Memfs.writeFile _ _ _ _).
  - unfold MkdirCommand.execute. destruct args as [|arg args]; [done|].
    destruct (MkdirCommand.parse_args h w (arg :: args) false [])
      as [[parents directories]|err]; [|done].
    destruct (MkdirCommand.create_all h parents directories [] (volume w))
      as [errors v']. by destruct errors.
  - unfold EchoCommand.execute. by destruct args.
  - unfold CatCommand.execute. by destruct args.
  - unfold CdCommand.execute. destruct args as [|newPath rest]; [done|].
    unfold changeDirectory.
    by destruct (Memfs.lstat _ _ _) as [[c|]|].
  - by rewrite rm_execute_frame.
Qed.

Lemma executeCommand_reports_what_it_returns_witness :
  reports stocked_shell
    (executeCommand plain_host stocked_shell "echo hi > /tmp/out.txt").
Proof.
  apply (executeCommand_reports_what_it_returns plain_host stocked_shell
           "echo hi > /tmp/out.txt").
  - intros name cmd args w Hcmd. by apply (all_builtins_quiet plain_host name).
  - intros name l f args w Hl. simpl in Hl. by rewrite lookup_empty in Hl.
  - intros name l f args output w Hl. simpl in Hl. by rewrite lookup_empty in Hl.
Defined.

Lemma session_stays_at_home_witness :
  at_home plain_host
    (world (run_lines plain_host stocked_shell
              ["mkdir /a"; "cd /a"; "touch f"; "rm -x"; "cd .."])).
Proof.
  apply (session_stays_at_home plain_host stocked_shell
           ["mkdir /a"; "cd /a"; "touch f"; "rm -x"; "cd .."]).
  - reflexivity.
  - reflexivity.
  - reflexivity.
  - split; [apply apply_wf, wf_empty|reflexivity].
Defined.

(** ** A restore that fails *)

(** X24: when [deserializeVolume] throws, because the text is no JSON or
    because the snapshot cannot be loaded, the shell is left on an empty
    volume, the old one having been reset first, and in the directory it was
    in: it stands in a directory of its volume only if that was the root. *)
Theorem failed_restore_leaves_empty_volume h serializedVolume w err w' :
  deserializeVolume h serializedVolume w = (Throw err, w') ->
  volume w' = Memfs.empty
  /\ currentDirectory w' = currentDirectory w
  /\ (at_home h w'
      <-> Memfs.filenameToSteps (process_cwd h) (currentDirectory w) = []).
Proof.
  unfold deserializeVolume, deserializeVolume_on. intros Hrun.
  assert (Hw' : w' = set_volume Memfs.empty w).
  { destruct (JSON.parse serializedVolume) as [json|]; [|congruence].
    destruct (Memfs.fromJSON (process_cwd h) json); congruence. }
  subst w'. split; [reflexivity|]. split; [reflexivity|].
  unfold at_home. simpl. split.
  - intros [_ Hcd]. unfold Memfs.empty in Hcd.
    apply lookup_singleton_Some in Hcd. by destruct Hcd.
  - intros ->. split; [apply wf_empty|reflexivity].
Qed.

Lemma failed_restore_leaves_empty_volume_witness :
  volume (deserializeVolume plain_host "{" (world sample_shell)).2 = Memfs.empty
  /\ currentDirectory (deserializeVolume plain_host "{" (world sample_shell)).2
     = currentDirectory (world sample_shell)
  /\ (at_home plain_host (deserializeVolume plain_host "{" (world sample_shell)).2
      <-> Memfs.filenameToSteps (process_cwd plain_host)
            (currentDirectory (world sample_shell)) = []).
Proof.
  apply (failed_restore_leaves_empty_volume plain_host "{"
           (world sample_shell) JSON.SyntaxError).
  reflexivity.
Defined.

(** ** A session through [executeCommand] *)

Section Session.

Variable h : Host.

Lemma all_chars_append p a b :
  JS.all_chars p (a ++ b) = JS.all_chars p a && JS.all_chars p b.
Proof.
  induction a as [|c a IH]; [by rewrite append_nil_l|].
  rewrite append_cons. cbn [JS.all_chars]. by rewrite IH, andb_assoc.
Qed.

(** A line that the tokenizer cuts into a command name and one argument, on
    a shell without hooks: the command gets the argument and its outcome is
    the answer. *)
Lemma executeCommand_parsed_line sh line name arg cmd :
  preHook sh = ∅ -> postHook sh = ∅ ->
  shellQuote_parse h line = [PString name; PString arg] ->
  JS.all_chars JS.is_space line = false -> no_gt line = true ->
  name <> "" -> arg <> "" ->
  commands sh !! name = Some cmd ->
  executeCommand h sh line
  = match cmd [arg] (world sh) with
    | (Throw err, _, w2) => caught sh err w2
    | (Ok output, _, w2) => ending sh (output, w2)
    end.
Proof.
  intros Hpre Hpost Hparse Hblank Hgt Hname Harg Hcmd.
  assert (Hred : extractRedirection line = mkRedirection line None None).
  { unfold extractRedirection. by rewrite find_redirection_no_gt. }
  assert (Hn : parsed_name h line = name).
  { unfold parsed_name. rewrite Hred. simpl commandInput. by rewrite Hparse. }
  assert (Ha : parsed_args h line = [arg]).
  { unfold parsed_args. rewrite Hred. simpl commandInput. rewrite Hparse.
    unfold commandArgs_of. simpl.
    apply String.eqb_neq in Harg. by rewrite Harg. }
  rewrite (executeCommand_dispatch h sh line cmd).
  - rewrite Hn, Ha, Hred. unfold PreHook.run, PostHook.run.
    rewrite Hpre, Hpost, run_empty.
    cbn [redirectionOperator targetFile].
    destruct (cmd [arg] (world sh)) as [[[output|err] args'] w2];
      [|reflexivity].
    by rewrite run_empty.
  - by rewrite isInvalidCommand_spaces.
  - by rewrite Hn.
  - by rewrite Hn.
Qed.

Lemma plain_name_parts s :
  plain_name s = true ->
  valid_name s = true /\ no_gt s = true /\ JS.startsWith s "-" = false
  /\ s <> "".
Proof.
  unfold plain_name. rewrite !andb_true_iff, negb_true_iff.
  intros [[Hv Hg] Hd]. split_and!; try done.
  by destruct (valid_name_relative s Hv).
Qed.

Lemma mkdir_makes_child w (p : list string) d :
  currentDirectory w = Path.render p ->
  wf (volume w) ->
  volume w !! p = Some Memfs.Dir ->
  volume w !! (p ++ [d])%list = None ->
  plain_name d = true ->
  MkdirCommand.execute h [d] w
  = (Ok "", [d],
     set_volume (<[(p ++ [d])%list := Memfs.Dir]> (volume w)) w).
Proof.
  intros Hcd Hwf Hp Hnone Hd.
  destruct (plain_name_parts d Hd) as (Hvalid & _ & Hdash & _).
  assert (Hvp : valid_path p) by (apply Hwf; by eexists).
  pose proof (target_steps_child h w p d Hcd Hvp Hvalid) as Hsteps.
  unfold MkdirCommand.execute. cbn [MkdirCommand.parse_args]. rewrite Hdash.
  cbn [app MkdirCommand.create_all Memfs.mkdir].
  unfold Memfs.mkdir_at. fold (target_steps h w d). rewrite Hsteps.
  rewrite removelast_snoc, Hp, Hnone.
  by destruct (p ++ [d])%list eqn:E; [destruct p|].
Qed.

(** X25: [mkdir d], [cd d] and [touch f] given to [executeCommand] one after
    the other, in a directory where [d] does not exist yet, on a host whose
    tokenizer cuts each of the three lines into its command name and its
    argument, leave a volume with the new directory and an empty file [f]
    inside it, the shell in the new directory, and publish nothing. *)
Theorem mkdir_cd_touch_session sh (p : list string) d f :
  shellQuote_parse h ("mkdir " ++ d) = [PString "mkdir"; PString d] ->
  shellQuote_parse h ("cd " ++ d) = [PString "cd"; PString d] ->
  shellQuote_parse h ("touch " ++ f) = [PString "touch"; PString f] ->
  commands sh = all_builtins h -> preHook sh = ∅ -> postHook sh = ∅ ->
  wf (volume (world sh)) ->
  currentDirectory (world sh) = Path.render p ->
  volume (world sh) !! p = Some Memfs.Dir ->
  volume (world sh) !! (p ++ [d])%list = None ->
  plain_name d = true -> plain_name f = true ->
  let sh' := run_lines h sh ["mkdir " ++ d; "cd " ++ d; "touch " ++ f] in
  volume (world sh')
  = <[(p ++ [d; f])%list := Memfs.File ""]>
      (<[(p ++ [d])%list := Memfs.Dir]> (volume (world sh)))
  /\ currentDirectory (world sh') = Path.render (p ++ [d])
  /\ emitted (world sh') = emitted (world sh).
Proof.
  intros Hmk Hcdl Htl Hcmds Hpre Hpost Hwf Hcd Hp Hnone Hd Hf sh'. subst sh'.
  destruct (plain_name_parts d Hd) as (Hdv & Hdg & Hdash & Hdne).
  destruct (plain_name_parts f Hf) as (Hfv & Hfg & _ & Hfne).
  destruct Hwf as (Hroot & Hparent & Hvalid).
  assert (Hvp : valid_path p) by (apply Hvalid; by eexists).
  assert (Hvpd : valid_path (p ++ [d]))
    by (apply Forall_app; split; [done|by constructor]).
  assert (Hgt : forall name arg, no_gt name = true -> no_gt arg = true ->
                                 no_gt (name ++ arg) = true).
  { intros name arg H1 H2. unfold no_gt in *.
    by rewrite all_chars_append, H1, H2. }
  cbn [run_lines].
  (* mkdir d *)
  rewrite (executeCommand_parsed_line sh ("mkdir " ++ d) "mkdir" d
             (MkdirCommand.execute h));
    [|done|done|done|done|by apply Hgt|done|done|by rewrite Hcmds].
  rewrite (mkdir_makes_child (world sh) p d Hcd
             (conj Hroot (conj Hparent Hvalid)) Hp Hnone Hd).
  set (v1 := <[(p ++ [d])%list := Memfs.Dir]> (volume (world sh))).
  set (w1 := set_volume v1 (world sh)).
  cbn [ending fst snd].
  (* cd d *)
  rewrite (executeCommand_parsed_line (set_world w1 sh) ("cd " ++ d) "cd" d
             (CdCommand.execute h));
    [|done|done|done|done|by apply Hgt|done|done|simpl; by rewrite Hcmds].
  assert (Hsteps1 : target_steps h w1 d = (p ++ [d])%list)
    by (by apply target_steps_child).
  assert (Hcd1 : changeDirectory h d w1
                 = (Path.render (p ++ [d]),
                    set_currentDirectory (Path.render (p ++ [d])) w1)).
  { pose proof (changeDirectory_cases h d w1) as Hcases. simpl in Hcases.
    unfold Memfs.lstat, Memfs.lookup_at in Hcases.
    fold (target_steps h w1 d) in Hcases. rewrite Hsteps1 in Hcases.
    unfold w1 at 1, v1 in Hcases. simpl volume in Hcases.
    rewrite lookup_insert_eq in Hcases.
    rewrite Hcases. by rewrite resolve_render, Hsteps1. }
  unfold CdCommand.execute. cbn [world set_world]. rewrite Hcd1.
  set (w2 := set_currentDirectory (Path.render (p ++ [d])) w1).
  cbn [ending fst snd].
  (* touch f *)
  rewrite (executeCommand_parsed_line (set_world w2 (set_world w1 sh))
             ("touch " ++ f) "touch" f (TouchCommand.execute h));
    [|done|done|done|done|by apply Hgt|done|done|simpl; by rewrite Hcmds].
  assert (Hsteps2 : target_steps h w2 f = (p ++ [d; f])%list).
  { rewrite (target_steps_child h w2 (p ++ [d]) f); [|done|done|done].
    by rewrite <- app_assoc. }
  assert (Hfresh : volume (world sh) !! (p ++ [d; f])%list = None).
  { destruct (volume (world sh) !! (p ++ [d; f])%list) eqn:E; [|done].
    assert (Hin : is_Some (volume (world sh) !! ((p ++ [d]) ++ [f])%list))
      by (rewrite <- app_assoc; by eexists).
    apply Hparent in Hin. congruence. }
  cbn [world set_world].
  rewrite (touch_creates h w2 f []).
  - cbn [ending fst snd world set_world]. rewrite Hsteps2.
    split; [reflexivity|]. split; reflexivity.
  - done.
  - rewrite Hsteps2. simpl volume. unfold v1.
    rewrite lookup_insert_ne; [exact Hfresh|].
    intros E. apply (f_equal length) in E. rewrite !length_app in E.
    simpl in E. lia.
  - rewrite Hsteps2. simpl volume. unfold v1.
    replace (p ++ [d; f])%list with ((p ++ [d]) ++ [f])%list
      by (by rewrite <- app_assoc).
    rewrite removelast_snoc. apply lookup_insert_eq.
Qed.

End Session.

Lemma mkdir_cd_touch_session_witness :
  let sh' := run_lines plain_host stocked_shell
               ["mkdir " ++ "docs"; "cd " ++ "docs"; "touch " ++ "a.txt"] in
  volume (world sh')
  = <[([] ++ ["docs"; "a.txt"])%list := Memfs.File ""]>
      (<[([] ++ ["docs"])%list := Memfs.Dir]> (volume (world stocked_shell)))
  /\ currentDirectory (world sh') = Path.render ([] ++ ["docs"])
  /\ emitted (world sh') = emitted (world stocked_shell).
Proof.
  apply (mkdir_cd_touch_session plain_host stocked_shell [] "docs" "a.txt").
  - reflexivity.
  - reflexivity.
  - reflexivity.
  - reflexivity.
  - reflexivity.
  - reflexivity.
  - apply apply_wf, wf_empty.
  - reflexivity.
  - reflexivity.
  - reflexivity.
  - reflexivity.
  - reflexivity.
Defined.

(** ** Search paths *)

Lemma join_split sep s : JS.join (String sep "") (JS.split sep s) = s.
Proof.
  induction s as [|c s IH]; [reflexivity|].
  cbn [JS.split]. destruct (Ascii.eqb c sep) eqn:E.
  - apply Ascii.eqb_eq in E as ->.
    pose proof (split_nonempty sep s) as Hne.
    destruct (JS.split sep s) as [|w ws]; [done|].
    change (JS.join (String sep "") ("" :: w :: ws))
      with ("" ++ String sep "" ++ JS.join (String sep "") (w :: ws)).
    by rewrite IH.
  - pose proof (split_nonempty sep s) as Hne.
    destruct (JS.split sep s) as [|w ws]; [done|].
    destruct ws as [|w' ws].
    + cbn [JS.join] in *. by rewrite IH.
    + change (JS.join (String sep "") (String c w :: w' :: ws))
        with (String c w ++ String sep "" ++ JS.join (String sep "") (w' :: ws)).
      change (JS.join (String sep "") (w :: w' :: ws))
        with (w ++ String sep "" ++ JS.join (String sep "") (w' :: ws)) in IH.
      by rewrite append_cons, IH.
Qed.

Lemma split_elements_no_sep sep s :
  Forall (fun seg => JS.all_chars (fun c => negb (Ascii.eqb c sep)) seg = true)
         (JS.split sep s).
Proof.
  induction s as [|c s IH]; simpl.
  - repeat constructor.
  - destruct (Ascii.eqb c sep) eqn:Hc.
    + constructor; [reflexivity|exact IH].
    + destruct (JS.split sep s) as [|w ws].
      * constructor; [|constructor]. cbn [JS.all_chars]. by rewrite Hc.
      * inversion IH as [|? ? Hw Hws]; subst. constructor; [|exact Hws].
        cbn [JS.all_chars]. by rewrite Hc, Hw.
Qed.

(** X26: [getSearchPaths] cuts PATH at every separator and nowhere else: no
    entry holds a separator, joining the entries with it gives PATH back
    (the empty string when PATH is not set), and the list is never empty,
    so an unset PATH yields one empty entry. *)
Theorem getSearchPaths_cuts_at_separators PATH platform :
  JS.join (String (search_separator platform) "") (getSearchPaths PATH platform)
  = or_default PATH ""
  /\ Forall (fun entry =>
               JS.all_chars
                 (fun c => negb (Ascii.eqb c (search_separator platform)))
                 entry = true)
            (getSearchPaths PATH platform)
  /\ getSearchPaths PATH platform <> []
  /\ getSearchPaths None platform = [""].
Proof.
  unfold getSearchPaths, search_separator. split_and!.
  - apply join_split.
  - apply split_elements_no_sep.
  - apply split_nonempty.
  - reflexivity.
Qed.

(** ** Loading the command modules *)

(** X27: files whose name does not end in [.js] are invisible to
    [importCommandModules]: it settles the same way and leaves the same
    registry as on the list without them. *)
Theorem importCommandModules_skips_other_files h import files :
  forall cmds : gmap string Command,
    importCommandModules h import files cmds
    = importCommandModules h import
        (List.filter (fun file => JS.endsWith file ".js") files) cmds.
Proof.
  induction files as [|file files IH]; intros cmds; [reflexivity|].
  cbn [importCommandModules List.filter].
  destruct (JS.endsWith file ".js") eqn:E; cbn [negb]; [|apply IH].
  cbn [importCommandModules]. rewrite E. cbn [negb].
  destruct (import _) as [module|err]; [|reflexivity].
  destruct (find typeof_function module) as [CommandClass|]; [|reflexivity].
  destruct (isValidCommand CommandClass); [apply IH|reflexivity].
Qed.

Lemma importCommandModules_lowercase_witness :
  is_Some ((importCommandModules plain_host (fun _ => Ok echo_module)
              ["Echo-command.js"] ∅).2 !! "echo")
  /\ JS.toLowerCase "echo" = "echo".
Proof.
  assert (H : is_Some ((importCommandModules plain_host
                          (fun _ => Ok echo_module)
                          ["Echo-command.js"] ∅).2 !! "echo"))
    by (by eexists).
  split; [exact H|].
  apply (importCommandModules_lowercase plain_host (fun _ => Ok echo_module)
           ["Echo-command.js"] ∅); [|exact H].
  intros k [c Hc]. by rewrite lookup_empty in Hc.
Defined.

(** ** Construction *)

(** X28: an option that is present wins over the default even when it is the
    empty string: the constructor first sets the fields with [||] and then
    copies the options over them.  Without a snapshot the new shell has an
    empty volume and an empty registry. *)
Theorem constructor_options_win h options files import c :
  or_null (opt_serializedVolume options) = None ->
  constructor h options (Ok files) import = Ok c ->
  currentDirectory (world (instance c))
  = default "/" (opt_currentDirectory options)
  /\ user (world (instance c)) = default "guest" (opt_user options)
  /\ volume (world (instance c)) = Memfs.empty
  /\ commands (instance c) = ∅.
Proof.
  intros Hsnap. unfold constructor. rewrite Hsnap. intros [= <-]. simpl.
  unfold or_default, or_null.
  split_and!; try reflexivity.
  - destruct (opt_currentDirectory options) as [s|]; [reflexivity|done].
  - destruct (opt_user options) as [s|]; [reflexivity|done].
Qed.

Lemma constructor_options_win_witness :
  exists c,
    constructor plain_host (mkOptions None (Some "") None) (Ok [])
                (fun _ => Ok echo_module) = Ok c
    /\ currentDirectory (world (instance c)) = ""
    /\ user (world (instance c)) = "guest".
Proof.
  eexists. split; [reflexivity|].
  pose proof (constructor_options_win plain_host
                (mkOptions None (Some "") None) []
                (fun _ => Ok echo_module) _ eq_refl eq_refl) as (H1 & H2 & _).
  split; [exact H1|exact H2].
Defined.

Lemma constructor_with_snapshot_throws_witness :
  exists err,
    constructor plain_host (mkOptions (Some "{}") None None) (Ok [])
                (fun _ => Ok echo_module) = Throw err.
Proof.
  apply (constructor_with_snapshot_throws plain_host
           (mkOptions (Some "{}") None None) (Ok [])
           (fun _ => Ok echo_module) "{}").
  reflexivity.
Defined.

(** ** Names with uppercase letters *)

Lemma builtins_lowercase h k :
  is_Some (builtins h !! k) -> JS.toLowerCase k = k.
Proof.
  intros [c Hc]. unfold builtins, registerCommand in Hc.
  rewrite !lookup_insert_Some, lookup_empty in Hc.
  destruct Hc as [[<- _]|[_ [[<- _]|[_ [[<- _]|[_ [[<- _]|[_ ?]]]]]]]];
    done.
Qed.

Lemma uppercase_name_not_found_witness :
  executeCommand plain_host sample_shell "Ls -l"
  = ending sample_shell
      (stderr (ERR_CMD_NOT_FOUND (parsed_name plain_host "Ls -l"))
              (world sample_shell)).
Proof.
  apply (uppercase_name_not_found plain_host sample_shell "Ls -l").
  - reflexivity.
  - apply builtins_lowercase.
  - discriminate.
  - intros H. repeat (apply elem_of_cons in H as [H|H]; [discriminate|]).
    by apply elem_of_nil in H.
Defined.

(** ** The operator of a redirection *)

Lemma find_redirection_suffix s : forall acc group1 group2,
  find_redirection acc s = Some (group1, group2) ->
  redirection_suffix group2 = true.
Proof.
  induction s as [|c s IH]; intros acc group1 group2.
  - cbn [find_redirection].
    destruct (redirection_suffix "") eqn:E; [|done].
    intros [= _ <-]. exact E.
  - cbn [find_redirection].
    destruct (redirection_suffix (String c s)) eqn:E.
    + intros [= _ <-]. exact E.
    + apply IH.
Qed.

Lemma trimStart_split r :
  exists ws, r = ws ++ JS.trimStart r /\ JS.all_chars JS.is_space ws = true.
Proof.
  induction r as [|c r (ws & Hr & Hws)]; [by exists ""|].
  cbn [JS.trimStart]. destruct (JS.is_space c) eqn:E.
  - exists (String c ws). rewrite append_cons, <- Hr. split; [done|].
    cbn [JS.all_chars]. by rewrite E, Hws.
  - by exists "".
Qed.

Lemma is_target_split r :
  is_target r = true ->
  exists ws w, r = ws ++ w /\ JS.all_chars JS.is_space ws = true
               /\ is_word w = true.
Proof.
  unfold is_target. intros H.
  destruct (trimStart_split r) as (ws & Hr & Hws).
  exists ws, (JS.trimStart r). done.
Qed.

Lemma runs_go_skip_spaces ws w :
  JS.all_chars JS.is_space ws = true -> is_word w = true ->
  JS.runs_go None (ws ++ w) = [w].
Proof.
  induction ws as [|c ws IH]; intros Hws Hw.
  - rewrite append_nil_l. by apply runs_go_word.
  - cbn [JS.all_chars] in Hws. apply andb_true_iff in Hws as [Hc Hws].
    rewrite append_cons. cbn [JS.runs_go]. rewrite Hc. simpl. by apply IH.
Qed.

(** The tokens of an operator followed by white space and a word: two when
    there is white space, one when the word is glued to the operator. *)
Lemma runs_go_operator cur ws w :
  JS.all_chars JS.is_space ws = true -> is_word w = true ->
  JS.runs_go (Some cur) (ws ++ w)
  = match ws with
    | EmptyString => [String.rev cur ++ w]
    | _ => [String.rev cur; w]
    end.
Proof.
  intros Hws Hw. destruct ws as [|c ws].
  - rewrite append_nil_l. apply runs_go_no_spaces.
    unfold is_word in Hw. by apply andb_true_iff in Hw as [_ Hw].
  - cbn [JS.all_chars] in Hws. apply andb_true_iff in Hws as [Hc Hws].
    rewrite append_cons. cbn [JS.runs_go]. rewrite Hc. simpl.
    by rewrite runs_go_skip_spaces.
Qed.

Lemma suffix_tokens group2 :
  redirection_suffix group2 = true ->
  (exists operator w,
     (operator = ">" \/ operator = ">>") /\ is_word w = true
     /\ JS.split_spaces (JS.trim group2) = [operator; w])
  \/ exists u, JS.split_spaces (JS.trim group2) = [u].
Proof.
  unfold redirection_suffix, JS.trim.
  destruct (JS.trimStart group2) as [|c rest]; [done|].
  destruct (Ascii.eqb c ">") eqn:Ec; [|done].
  apply Ascii.eqb_eq in Ec as ->. cbn [andb].
  intros [Ht | Ht]%orb_true_iff.
  - destruct (is_target_split rest Ht) as (ws & w & -> & Hws & Hw).
    rewrite <- append_cons, trimEnd_append_word by done.
    rewrite append_cons. cbn [JS.split_spaces JS.runs_go].
    change (JS.is_space ">") with false. cbn [from_option].
    rewrite runs_go_operator by done.
    destruct ws; [right; by eexists|].
    left. exists ">", w. split_and!; by try left.
  - destruct rest as [|c' rest']; [done|].
    apply andb_true_iff in Ht as [Ec Ht]. apply Ascii.eqb_eq in Ec as ->.
    destruct (is_target_split rest' Ht) as (ws & w & -> & Hws & Hw).
    rewrite <- !append_cons, trimEnd_append_word by done.
    rewrite !append_cons. cbn [JS.split_spaces JS.runs_go].
    change (JS.is_space ">") with false. cbn [from_option].
    rewrite runs_go_operator by done.
    destruct ws; [right; by eexists|].
    left. exists ">>", w. split_and!; by try right.
Qed.

(** X29: whenever [extractRedirection] yields both an operator and a target,
    the operator is [>] or [>>] and the target is one word: no line makes
    [executeCommand] reach the invalid-operator answer of
    [processRedirection]. *)
Theorem redirection_operator_is_known command operator target :
  redirectionOperator (extractRedirection command) = Some operator ->
  targetFile (extractRedirection command) = Some target ->
  (operator = ">" \/ operator = ">>") /\ is_word target = true.
Proof.
  unfold extractRedirection.
  destruct (find_redirection "" command) as [[group1 group2]|] eqn:E;
    [|done].
  apply find_redirection_suffix in E.
  destruct (suffix_tokens group2 E) as [(op & w & Hop & Hw & ->)|[u ->]];
    [|done].
  cbn [redirectionOperator targetFile lookup list_lookup].
  rewrite (or_null_word w Hw).
  assert (Hopw : or_null (Some op) = Some op)
    by (by destruct Hop as [-> | ->]).
  rewrite Hopw. by intros [= <-] [= <-].
Qed.

Lemma redirection_operator_is_known_witness :
  redirectionOperator (extractRedirection "a >>  b") = Some ">>"
  /\ targetFile (extractRedirection "a >>  b") = Some "b"
  /\ (">>" = ">" \/ ">>" = ">>") /\ is_word "b" = true.
Proof.
  split; [reflexivity|]. split; [reflexivity|].
  apply (redirection_operator_is_known "a >>  b" ">>" "b");
    reflexivity.
Defined.

(** ** [cat] on a directory *)

(** X30: [cat] throws on the first argument that is a directory; its own
    [catch] wraps the not-a-directory message worded for [cd] once more, so
    the message names the file twice. *)
Theorem cat_on_directory h w files contents dir post :
  Forall2 (fun f c => volume w !! target_steps h w f = Some (Memfs.File c))
          files contents ->
  volume w !! target_steps h w dir = Some Memfs.Dir ->
  CatCommand.execute h (files ++ dir :: post)%list w
  = (Throw (Error ("cat: " ++ Path.basename (resolve h w dir) ++ ": cd: "
                     ++ Path.basename (resolve h w dir)
                     ++ ": not a directory")),
     (files ++ dir :: post)%list, w).
Proof.
  intros Hall Hdir. unfold CatCommand.execute.
  destruct (files ++ dir :: post)%list eqn:E; [by destruct files|].
  rewrite <- E. rewrite map_app.
  rewrite (read_all_regular h w _ _ "" Hall). simpl.
  unfold Memfs.lstat, Memfs.lookup_at. unfold target_steps in Hdir.
  rewrite Hdir. reflexivity.
Qed.

Lemma cat_on_directory_witness :
  CatCommand.execute plain_host (["/tmp/out.txt"] ++ "/tmp" :: ["/x"])%list
                     (world sample_shell)
  = (Throw (Error ("cat: "
                     ++ Path.basename (resolve plain_host (world sample_shell)
                                               "/tmp")
                     ++ ": cd: "
                     ++ Path.basename (resolve plain_host (world sample_shell)
                                               "/tmp")
                     ++ ": not a directory")),
     (["/tmp/out.txt"] ++ "/tmp" :: ["/x"])%list, world sample_shell).
Proof.
  apply (cat_on_directory plain_host (world sample_shell) ["/tmp/out.txt"]
           ["old"] "/tmp" ["/x"]).
  - repeat constructor.
  - reflexivity.
Defined.
